(** * Caching layer of the store node: stream response cache, tiered
      disk-fallback index cache, remote cache-service backend.

    Shallow embedding of
    - package [grpccache]  (the Series() caching interceptor),
    - package [storecache] ([BadgerIndexCache]),
    - packages [cache] and [cacheutil] ([RueidisCache], [RueidisClient]),
    - package [store] (reference adjusters, [LookupTableBuilder]),
    followed by the properties of the specification that concern them and
    by further properties of the same code. *)

From Stdlib Require Import ZArith NArith Lia.
From Stdlib.Strings Require Import Ascii String Byte.
From Stdlib Require Import DecimalString DecimalZ DecimalFacts.
From stdpp Require Import base option list strings gmap fin_maps functions.

Local Open Scope Z_scope.

(** ** Go values shared by the packages *)

(** [[]byte]. *)
Abbreviation bytes := (list Byte.byte).

(** [string(b)] and [[]byte(s)]: a Go string is its byte sequence. *)
Definition string_of_bytes (b : bytes) : string := string_of_list_byte b.
Definition bytes_of_string (s : string) : bytes := list_byte_of_string s.

(** Values of the interface [error] that the code tells apart:
    [io.EOF], [badger.ErrKeyNotFound], and every other error, carried
    with its message. [errors_Is] is [errors.Is] on unwrapped errors. *)
Inductive error : Type :=
| io_EOF
| badger_ErrKeyNotFound
| err_other (msg : string).

Global Instance error_eq_dec : EqDecision error.
Proof. solve_decision. Defined.

Definition errors_Is (err target : error) : bool := bool_decide (err = target).

(** A call that can stop the goroutine with a [panic]. *)
Inductive outcome (A : Type) : Type :=
| Returns (a : A)
| Panics (msg : string).
Arguments Returns {A} a.
Arguments Panics {A} msg.

(** ** Package fmt: the two verbs the interceptor uses *)

Module fmt.

(** [fmt.Sprintf("%d", n)]: optional minus sign, decimal digits. *)
Definition Sprintf_d (n : Z) : string := NilZero.string_of_int (Z.to_int n).

Definition is_digit (a : ascii) : bool :=
  match NilEmpty.uint_of_string (String a "") with Some _ => true | None => false end.

(** The blanks [SkipSpace] steps over; a newline is not one of them when
    scanning with a format. *)
Definition is_blank (a : ascii) : bool :=
  bool_decide (a ∈ [" "; "009"; "011"; "012"; "013"]%char).

Fixpoint SkipSpace (s : string) : option string :=
  match s with
  | "" => Some ""
  | String a s' =>
      if Ascii.eqb a "010" then None
      else if is_blank a then SkipSpace s'
      else Some s
  end.

(** [s.accept(digits)] repeated: the longest prefix of decimal digits. *)
Fixpoint scanNumber (s : string) : string :=
  match s with
  | "" => ""
  | String a s' => if is_digit a then String a (scanNumber s') else ""
  end.

Definition minInt64 : Z := - 2 ^ 63.
Definition maxInt64 : Z := 2 ^ 63 - 1.

(** [strconv.ParseInt(tok, 10, 64)] on a token made of an optional sign
    and at least one digit. *)
Definition ParseInt (neg : bool) (digits : string) : option Z :=
  match NilZero.uint_of_string digits with
  | Some u =>
      let v := if neg then - Z.of_uint u else Z.of_uint u in
      if bool_decide (minInt64 <= v <= maxInt64) then Some v else None
  | None => None
  end.

(** [n, err := fmt.Sscanf(s, "%d", &v)]: [Some v] when [n = 1] and
    [err = nil]. Input after the number is left unread. *)
Definition Sscanf_d (s : string) : option Z :=
  match SkipSpace s with
  | None => None
  | Some "" => None
  | Some (String a s' as t) =>
      if Ascii.eqb a "-" then ParseInt true (scanNumber s')
      else if Ascii.eqb a "+" then ParseInt false (scanNumber s')
      else ParseInt false (scanNumber t)
  end.

End fmt.

(** ** Package grpccache: the Series() caching interceptor *)

Module grpccache.

(** [5*time.Minute], a [time.Duration] in nanoseconds. *)
Definition ttl_5min : Z := 5 * 60 * 1000000000.

(** Package storepb is generated code outside the sources at hand: the
    two message types with their [Marshal] (whose error result the
    interceptor drops) and [Unmarshal] on a zero message ([None] when
    [err != nil]). *)
Class Storepb : Type := {
  SeriesRequest : Type;
  SeriesResponse : Type;
  SeriesRequest_Marshal : SeriesRequest → bytes;
  SeriesResponse_Marshal : SeriesResponse → bytes;
  SeriesResponse_Unmarshal : bytes → option SeriesResponse;
}.

(** Package xxhash (third party): the 64-bit digest of the bytes written
    to the hasher. *)
Class XXHash : Type := { Sum64 : bytes → Z }.

(** Addresses of the [storepb.SeriesResponse] objects. *)
Abbreviation loc := nat.

Section interceptor.
Context {PB : Storepb} {XX : XXHash}.

(** The dynamic value behind the [interface{}] argument of [SendMsg] and
    [RecvMsg]: a request (only read), a pointer to a response object, or
    a value of any other type. *)
Inductive any : Type :=
| PtrSeriesRequest (r : SeriesRequest)
| PtrSeriesResponse (l : loc)
| OtherValue (tag : nat).

(** What a read of the underlying transport gives: the decoded message,
    written through the destination, or a non-nil error. *)
Inductive recv_result : Type :=
| RecvOK (decoded : SeriesResponse)
| RecvErr (err : error).

(** The embedded [grpc.ClientStream]. *)
Class ClientStream (S : Type) : Type := {
  stream_RecvMsg : S → any → S * recv_result;
  stream_SendMsg : S → any → S * option error;
}.

(** Calls that leave the interceptor, in the order they are made. *)
Inductive event : Type :=
| EvFetch (keys : list string)
| EvStore (data : gmap string bytes) (ttl : Z)
| EvSendMsg (m : any)
| EvRecvMsg (m : any).

(** Everything a call can touch besides the interceptor's own fields:
    the message objects, the shared cache, the wrapped stream, the
    shared counter [thanos_grpc_cached_calls_total]. *)
Record World (S : Type) : Type := mkWorld {
  heap : loc → SeriesResponse;
  next : loc;
  cache : gmap string bytes;
  stream : S;
  cachedCalls : nat;
  events : list event;
}.
Arguments mkWorld {S}.
Arguments heap {S}. Arguments next {S}. Arguments cache {S}.
Arguments stream {S}. Arguments cachedCalls {S}. Arguments events {S}.

Context {S : Type} {CSt : ClientStream S}.

(** State and panic monad of the calls. *)
Definition M (A : Type) : Type := World S → outcome (A * World S).

Global Instance M_ret : MRet M := λ A a w, Returns (a, w).
Global Instance M_bind : MBind M := λ A B f m w,
  match m w with
  | Returns (a, w') => f a w'
  | Panics msg => Panics msg
  end.

Definition panic {A} (msg : string) : M A := λ _, Panics msg.

(** A new message object ([var r storepb.SeriesResponse], reached
    through [&r]). *)
Definition alloc (v : SeriesResponse) : M loc := λ w,
  Returns (next w, mkWorld (<[next w := v]> (heap w)) (Datatypes.S (next w))
                           (cache w) (stream w) (cachedCalls w) (events w)).

Definition load (l : loc) : M SeriesResponse := λ w, Returns (heap w l, w).

Definition store (l : loc) (v : SeriesResponse) : M unit := λ w,
  Returns (tt, mkWorld (<[l := v]> (heap w)) (next w) (cache w) (stream w)
                       (cachedCalls w) (events w)).

Definition get_heap : M (loc → SeriesResponse) := λ w, Returns (heap w, w).

(** Modelled from the spec: the in-process store behind the Cache Backend
    Contract (package cache, [InMemoryCache], is not among the sources).
    Its content is a finite map; [Fetch] returns only the requested keys
    that are present; [Store] writes the batch, the last write winning
    per key. Expiry and eviction remove entries between calls and are
    stated where a property depends on them. *)
Definition InMemoryCache_Fetch (c : gmap string bytes) (keys : list string)
  : gmap string bytes :=
  filter (λ kv, kv.1 ∈ keys) c.

Definition InMemoryCache_Store (c : gmap string bytes) (data : gmap string bytes)
  : gmap string bytes :=
  data ∪ c.

Definition Fetch (keys : list string) : M (gmap string bytes) := λ w,
  Returns (InMemoryCache_Fetch (cache w) keys,
           mkWorld (heap w) (next w) (cache w) (stream w) (cachedCalls w)
                   (events w ++ [EvFetch keys])).

Definition Store (data : gmap string bytes) (ttl : Z) : M unit := λ w,
  Returns (tt, mkWorld (heap w) (next w) (InMemoryCache_Store (cache w) data)
                       (stream w) (cachedCalls w)
                       (events w ++ [EvStore data ttl])).

Definition cachedCalls_Inc : M unit := λ w,
  Returns (tt, mkWorld (heap w) (next w) (cache w) (stream w)
                       (Datatypes.S (cachedCalls w)) (events w)).

(** [i.ClientStream.RecvMsg(m)]: [None] is a nil error. *)
Definition ClientStream_RecvMsg (m : any) : M (option error) := λ w,
  let '(s', r) := stream_RecvMsg (stream w) m in
  let ev := events w ++ [EvRecvMsg m] in
  match r with
  | RecvErr err =>
      Returns (Some err, mkWorld (heap w) (next w) (cache w) s' (cachedCalls w) ev)
  | RecvOK v =>
      let heap' := match m with
                   | PtrSeriesResponse l => <[l := v]> (heap w)
                   | _ => heap w
                   end in
      Returns (None, mkWorld heap' (next w) (cache w) s' (cachedCalls w) ev)
  end.

Definition ClientStream_SendMsg (m : any) : M (option error) := λ w,
  let '(s', err) := stream_SendMsg (stream w) m in
  Returns (err, mkWorld (heap w) (next w) (cache w) s' (cachedCalls w)
                        (events w ++ [EvSendMsg m])).

(** [fmt.Sprintf("%s-num", reqSig)] and [fmt.Sprintf("%s-%d", reqSig, i)]. *)
Definition numKeysKey (reqSig : string) : string := reqSig +:+ "-num".
Definition indexKey (reqSig : string) (i : nat) : string :=
  reqSig +:+ "-" +:+ fmt.Sprintf_d (Z.of_nat i).

(** The second loop of [getResponses], over the indices [idx] left. *)
Fixpoint getResponses_decode (fetchedData : gmap string bytes) (reqSig : string)
    (idx : list nat) (ret : list loc) : M (list loc + error) :=
  match idx with
  | [] => mret (inl ret)
  | i :: idx' =>
      let data := default [] (fetchedData !! indexKey reqSig i) in
      match SeriesResponse_Unmarshal data with
      | None => mret (inr (err_other "unmarshaling data from cache"))
      | Some v =>
          r ← alloc v;
          getResponses_decode fetchedData reqSig idx' (ret ++ [r])
      end
  end.

(** [make([]string, 0, numKeys)] panics on a negative capacity; what a
    capacity too large for the memory at hand does is not modelled. *)
Definition getResponses (reqSig : string) : M (list loc + error) :=
  numKeysFetchRes ← Fetch [numKeysKey reqSig];
  match numKeysFetchRes !! numKeysKey reqSig with
  | None => mret (inr (err_other "not found num key"))
  | Some numKeysBytes =>
      match fmt.Sscanf_d (string_of_bytes numKeysBytes) with
      | None => mret (inr (err_other ("parsing " +:+ string_of_bytes numKeysBytes)))
      | Some numKeys =>
          if bool_decide (numKeys < 0)
          then panic "makeslice: cap out of range"
          else
            let idx := seq 0 (Z.to_nat numKeys) in
            fetchedData ← Fetch (indexKey reqSig <$> idx);
            if bool_decide (Z.of_nat (size fetchedData) ≠ numKeys)
            then mret (inr (err_other "got wrong number of keys"))
            else getResponses_decode fetchedData reqSig idx []
      end
  end.

(** The map [keys] of [putResponses] after the loop has run over
    [responses], whose first element has index [i]. *)
Fixpoint putResponses_keys (h : loc → SeriesResponse) (reqSig : string)
    (i : nat) (responses : list loc) (keys : gmap string bytes)
  : gmap string bytes :=
  match responses with
  | [] => keys
  | resp :: rest =>
      putResponses_keys h reqSig (Datatypes.S i) rest
        (<[indexKey reqSig i := SeriesResponse_Marshal (h resp)]> keys)
  end.

Definition putResponses_batch (h : loc → SeriesResponse) (reqSig : string)
    (responses : list loc) : gmap string bytes :=
  putResponses_keys h reqSig 0 responses
    {[ numKeysKey reqSig :=
         bytes_of_string (fmt.Sprintf_d (Z.of_nat (length responses))) ]}.

Definition putResponses (reqSig : string) (responses : list loc) : M unit :=
  h ← get_heap;
  Store (putResponses_batch h reqSig responses) ttl_5min.

(** [h.Sum(nil)]: the digest, big-endian, in eight bytes. *)
Definition byte_of_Z (z : Z) : Byte.byte :=
  default Byte.x00 (Byte.of_N (Z.to_N (z `mod` 256))).

Definition Sum (digest : Z) : bytes :=
  (λ k, byte_of_Z (digest ≫ (8 * k))) <$> [7; 6; 5; 4; 3; 2; 1; 0].

Definition hashReqTarget (r : SeriesRequest) (target : string) : string :=
  string_of_bytes (Sum (Sum64 (bytes_of_string target ++ SeriesRequest_Marshal r))).

(** The fields of [seriesInterceptor] that belong to one call; [c],
    [cachedCalls] and the embedded stream are shared and live in the
    world. *)
Record seriesInterceptor : Type := mkInterceptor {
  target : string;
  hashedReq : string;
  responses : list loc;
  cachedResponsesAvailable : bool;
}.

Definition set_hashedReq (i : seriesInterceptor) (h : string) :=
  mkInterceptor (target i) h (responses i) (cachedResponsesAvailable i).
Definition set_responses (i : seriesInterceptor) (rs : list loc) :=
  mkInterceptor (target i) (hashedReq i) rs (cachedResponsesAvailable i).
Definition set_cachedResponsesAvailable (i : seriesInterceptor) (b : bool) :=
  mkInterceptor (target i) (hashedReq i) (responses i) b.

Definition RecvMsg (i : seriesInterceptor) (m : any)
  : M (seriesInterceptor * option error) :=
  if bool_decide (hashedReq i = "") then
    err ← ClientStream_RecvMsg m; mret (i, err)
  else if cachedResponsesAvailable i then
    match responses i with
    | [] => mret (i, Some io_EOF)
    | r0 :: rest =>
        match m with
        | PtrSeriesResponse resp =>
            v ← load r0;
            _ ← store resp v;
            mret (set_responses i rest, None)
        | _ => panic "should be a series response type"
        end
    end
  else
    err ← ClientStream_RecvMsg m;
    match err with
    | Some e =>
        _ ← (if bool_decide (e = io_EOF) && bool_decide (0 < length (responses i))%nat
             then putResponses (hashedReq i) (responses i)
             else mret tt);
        mret (i, Some e)
    | None =>
        match m with
        | PtrSeriesResponse resp => mret (set_responses i (responses i ++ [resp]), None)
        | _ => mret (i, None)
        end
    end.

Definition SendMsg (i : seriesInterceptor) (m : any)
  : M (seriesInterceptor * option error) :=
  i' ← match m with
       | PtrSeriesRequest req =>
           let i1 := set_hashedReq i (hashReqTarget req (target i)) in
           res ← getResponses (hashedReq i1);
           match res with
           | inl rs =>
               _ ← cachedCalls_Inc;
               mret (set_cachedResponsesAvailable (set_responses i1 rs) true)
           | inr _ => mret i1
           end
       | _ => mret i
       end;
  err ← ClientStream_SendMsg m;
  mret (i', err).

(** One call seen from the caller: the messages it sends and the
    destinations it reads into (a call of the server-streaming method
    Series sends one message and then reads). What the caller observes
    of a step is the returned error and, after a read through a response
    pointer, the content of that object. *)
Inductive op : Type :=
| OpSendMsg (m : any)
| OpRecvMsg (m : any).

Definition observe (m : any) (err : option error)
  : M (option error * option SeriesResponse) :=
  h ← get_heap;
  mret (err, match m with PtrSeriesResponse l => Some (h l) | _ => None end).

Fixpoint run_interceptor (i : seriesInterceptor) (ops : list op)
  : M (seriesInterceptor * list (option error * option SeriesResponse)) :=
  match ops with
  | [] => mret (i, [])
  | OpSendMsg m :: ops' =>
      '(i', err) ← SendMsg i m;
      '(i'', obs) ← run_interceptor i' ops';
      mret (i'', (err, None) :: obs)
  | OpRecvMsg m :: ops' =>
      '(i', err) ← RecvMsg i m;
      o ← observe m err;
      '(i'', obs) ← run_interceptor i' ops';
      mret (i'', o :: obs)
  end.

(** The same call on the stream without the interceptor. *)
Fixpoint run_stream (ops : list op)
  : M (list (option error * option SeriesResponse)) :=
  match ops with
  | [] => mret []
  | OpSendMsg m :: ops' =>
      err ← ClientStream_SendMsg m;
      obs ← run_stream ops';
      mret ((err, None) :: obs)
  | OpRecvMsg m :: ops' =>
      err ← ClientStream_RecvMsg m;
      o ← observe m err;
      obs ← run_stream ops';
      mret (o :: obs)
  end.

(** *** Notions used to state the properties *)

(** The event a caller's operation causes on the bare stream. *)
Definition op_event (o : op) : event :=
  match o with
  | OpSendMsg m => EvSendMsg m
  | OpRecvMsg m => EvRecvMsg m
  end.

Definition sends_request (o : op) : Prop :=
  ∃ r, o = OpSendMsg (PtrSeriesRequest r).

(** What the wrapped stream answers to successive reads into [ms]. *)
Fixpoint stream_reads (s : S) (ms : list any) : list recv_result * S :=
  match ms with
  | [] => ([], s)
  | m :: ms' =>
      let '(s', r) := stream_RecvMsg s m in
      let '(rs, s'') := stream_reads s' ms' in
      (r :: rs, s'')
  end.

(** The objects after the messages [vs] were written through [ds], one
    after the other. *)
Fixpoint write_all (h : loc → SeriesResponse) (ds : list loc)
    (vs : list SeriesResponse) : loc → SeriesResponse :=
  match ds, vs with
  | d :: ds', v :: vs' => write_all (<[d := v]> h) ds' vs'
  | _, _ => h
  end.

(** The messages the second loop of [getResponses] decodes, when every
    one of them decodes. *)
Fixpoint decode_all (fd : gmap string bytes) (reqSig : string) (idx : list nat)
  : option (list SeriesResponse) :=
  match idx with
  | [] => Some []
  | j :: idx' =>
      v ← SeriesResponse_Unmarshal (default [] (fd !! indexKey reqSig j));
      vs ← decode_all fd reqSig idx';
      Some (v :: vs)
  end.

(** The world after the lookup has made its [Fetch] calls. *)
Definition fetched (evs : list event) (w : World S) : World S :=
  mkWorld (heap w) (next w) (cache w) (stream w) (cachedCalls w) (events w ++ evs).

(** The world after the objects [vs] were allocated. *)
Definition allocated (vs : list SeriesResponse) (w : World S) : World S :=
  mkWorld (write_all (heap w) (seq (next w) (length vs)) vs)
          (next w + length vs) (cache w) (stream w) (cachedCalls w) (events w).

End interceptor.

Arguments mkWorld {_ S}.
Arguments heap {_ S}.
Arguments next {_ S}.
Arguments cache {_ S}.
Arguments stream {_ S}.
Arguments cachedCalls {_ S}.
Arguments events {_ S}.

(** *** Installing the interceptor *)

(** [strings.TrimPrefix(fullMethod, "/")]. *)
Definition TrimPrefix_slash (s : string) : string :=
  match s with
  | String a s' => if Ascii.eqb a "/" then s' else s
  | "" => ""
  end.

(** [fullMethod[:i], fullMethod[i+1:]] at [i = strings.Index(fullMethod, "/")],
    when [i >= 0]. *)
Fixpoint cut_slash (s : string) : option (string * string) :=
  match s with
  | "" => None
  | String a s' =>
      if Ascii.eqb a "/" then Some ("", s')
      else match cut_slash s' with
           | Some (svc, method) => Some (String a svc, method)
           | None => None
           end
  end.

Definition splitMethodName (fullMethod : string) : string * string :=
  match cut_slash (TrimPrefix_slash fullMethod) with
  | Some p => p
  | None => ("unknown", "unknown")
  end.

(** [cache.InMemoryCacheConfig]; [model.Bytes] is a [uint64]. *)
Record InMemoryCacheConfig : Type := mkConfig {
  MaxSize : N;
  MaxItemSize : N;
}.

(** [inmemoryCache] is a pointer, [None] when nil. The counter it also
    holds is the shared one of the world. *)
Record SeriesRequestCachingInterceptor (IMC : Type) : Type := mkCaching {
  inmemoryCache : option IMC;
  passthrough : bool;
}.
Arguments mkCaching {IMC}.
Arguments inmemoryCache {IMC}.
Arguments passthrough {IMC}.

(** [cache.NewInMemoryCacheWithConfig] is outside the sources at hand and
    is taken as an argument. *)
Definition NewSeriesRequestcachingInterceptor {IMC : Type}
    (NewInMemoryCacheWithConfig : string → InMemoryCacheConfig → IMC + error)
    (maxSize maxItemSize : N) : SeriesRequestCachingInterceptor IMC + error :=
  let maxItemSize := if bool_decide (maxSize = 0%N) then 0%N else maxItemSize in
  match NewInMemoryCacheWithConfig "cachinginterceptor" (mkConfig maxSize maxItemSize) with
  | inr err => inr err
  | inl imc => inl (mkCaching (Some imc) (bool_decide (maxSize = 0%N)))
  end.

(** Modelled from the spec: the constructor of the size-bounded in-process
    store (package cache, not among the sources), an external collaborator
    whose limits are configuration: a store with that configuration and no
    entry. *)
Record InMemoryCache : Type := mkInMemoryCache {
  imc_name : string;
  imc_config : InMemoryCacheConfig;
  imc_items : gmap string bytes;
}.

Definition NewInMemoryCacheWithConfig (name : string) (config : InMemoryCacheConfig)
  : InMemoryCache + error :=
  inl (mkInMemoryCache name config ∅).

(** The [grpc.ClientStream] the installed function returns: the stream
    [cs] of the wrapped [streamer], or a [&seriesInterceptor{...}] around
    it. *)
Inductive clientStream (CS IMC : Type) : Type :=
| Underlying (cs : CS)
| Intercepting (cs : CS) (c : option IMC) (i : seriesInterceptor).
Arguments Underlying {CS IMC} cs.
Arguments Intercepting {CS IMC} cs c i.

(** The function returned by [GetInterceptor], applied to a call on
    [method] to the connection target [cc_Target], [streamer] being the
    result [(cs, err)] of the wrapped streamer. *)
Definition GetInterceptor {CS IMC : Type} (i : SeriesRequestCachingInterceptor IMC)
    (cc_Target method : string) (streamer : CS * option error)
  : clientStream CS IMC * option error :=
  let '(cs, err) := streamer in
  match err with
  | Some e => (Underlying cs, Some e)
  | None =>
      if passthrough i then (Underlying cs, None)
      else
        let '(svc, actualMethod) := splitMethodName method in
        if String.eqb svc "thanos.Store" && String.eqb actualMethod "Series"
        then (Intercepting cs (inmemoryCache i) (mkInterceptor cc_Target "" [] false), None)
        else (Underlying cs, None)
  end.

(** A call made on the stream the installed function returned. *)
Definition run_clientStream {PB : Storepb} {XX : XXHash} {S : Type}
    {CSt : ClientStream S}
    {CS IMC : Type} (cs : clientStream CS IMC) (ops : list op)
  : M (list (option error * option SeriesResponse)) :=
  match cs with
  | Underlying _ => run_stream ops
  | Intercepting _ _ i => '(_, obs) ← run_interceptor i ops; mret obs
  end.

End grpccache.

(** ** Package storecache: the tiered disk-fallback index cache *)

Module storecache.

(** [labels.Label]. *)
Record Label : Type := mkLabel { Name : string; Value : string }.

Global Instance Label_eq_dec : EqDecision Label.
Proof. solve_decision. Defined.

Global Instance Label_countable : Countable Label.
Proof.
  refine (inj_countable' (λ l, (Name l, Value l)) (λ p, mkLabel p.1 p.2) _).
  by intros [].
Defined.

Definition coreLabel : Label := mkLabel "app" "core".

Section badger.
(** Block identifiers, and [cacheKey{blockID, cacheKeyPostings(l)}.string()],
    declared in a file outside the sources at hand. *)
Context {ULID : Type} (cacheKey_string : ULID → Label → string).

(** Package badger (third party): what a read transaction answers to
    [txn.Get] and what [item.ValueCopy(nil)] gives. *)
Record DB : Type := mkDB {
  Item : Type;
  txn_Get : bytes → Item + error;
  ValueCopy : Item → bytes + error;
}.

(** The interface [IndexCache] as far as the fallback is used here; a
    [hits] map can be nil ([None]). *)
Class IndexCache (IC : Type) : Type := {
  ic_FetchMultiPostings : IC → ULID → list Label → option (gmap Label bytes) * list Label;
}.

Record BadgerIndexCache (IC : Type) : Type := mkBadgerIndexCache {
  db : DB;
  ic : IC;
}.
Arguments mkBadgerIndexCache {IC}.
Arguments db {IC}.
Arguments ic {IC}.

(** The first loop of [FetchMultiPostings]: at the first index [i] with
    [lbls[i] == coreLabel], [lbls[i] = lbls[len(lbls)-1]] and the slice
    loses its last element. *)
Definition extractCore (lbls : list Label) : list Label * bool :=
  match list_find (λ lbl, lbl = coreLabel) lbls with
  | Some (i, _) =>
      let lbls' := match lbls !! (length lbls - 1)%nat with
                   | Some lst => <[i := lst]> lbls
                   | None => lbls
                   end in
      (take (length lbls - 1) lbls', true)
  | None => (lbls, false)
  end.

(** The function passed to [c.db.View]: the extra hits, the extra misses
    and the error it returns. *)
Definition View_core (d : DB) (blockID : ULID)
  : gmap Label bytes * list Label * option error :=
  let key := bytes_of_string (cacheKey_string blockID coreLabel) in
  match txn_Get d key with
  | inr err =>
      (∅, if errors_Is err badger_ErrKeyNotFound then [coreLabel] else [], Some err)
  | inl item =>
      match ValueCopy d item with
      | inr err => (∅, [], Some err)
      | inl val => ({[coreLabel := val]}, [], None)
      end
  end.

Definition FetchMultiPostings {IC} {ICI : IndexCache IC} (c : BadgerIndexCache IC)
    (blockID : ULID) (lbls : list Label) : gmap Label bytes * list Label :=
  let '(lbls, foundCore) := extractCore lbls in
  let '(extraHits, extraMisses, _) :=
    if foundCore then View_core (db c) blockID else (∅, [], None) in
  let '(hits, misses) := ic_FetchMultiPostings (ic c) blockID lbls in
  let misses := misses ++ extraMisses in
  let hits := default ∅ hits in
  (extraHits ∪ hits, misses).

(** The disk read of [key] is conclusive: the value is found and copied,
    or the store reports [badger.ErrKeyNotFound]. *)
Definition conclusive (d : DB) (key : bytes) : Prop :=
  match txn_Get d key with
  | inl item => ∃ val, ValueCopy d item = inl val
  | inr err => err = badger_ErrKeyNotFound
  end.

(** What the contract of a [FetchMultiPostings] promises for the
    requested labels [lbls]: hits and misses together are exactly the
    requested labels, no label is both a hit and a miss, and no label is
    listed twice among the misses. *)
Definition backend_result (lbls : list Label) (hits : gmap Label bytes)
    (misses : list Label) : Prop :=
  (∀ l, l ∈ lbls ↔ is_Some (hits !! l) ∨ l ∈ misses) ∧
  (∀ l, is_Some (hits !! l) → l ∉ misses) ∧
  NoDup misses.

(** The first loop of [FetchMultiPostings] as it acts on the memory of
    the caller: [lbls] shares its backing array with the slice the caller
    passed, and [lbls[i] = lbls[len(lbls)-1]] writes to that array. The
    result is the array after the loop, the length of [lbls] after it,
    and [foundCore]; [i] is the index of the head of [todo]. *)
Fixpoint extractCore_loop (arr : list Label) (i : nat) (todo : list Label)
  : list Label * nat * bool :=
  match todo with
  | [] => (arr, length arr, false)
  | lbl :: todo' =>
      if bool_decide (lbl = coreLabel)
      then (match arr !! (length arr - 1)%nat with
            | Some lst => <[i := lst]> arr
            | None => arr
            end, (length arr - 1)%nat, true)
      else extractCore_loop arr (S i) todo'
  end.

Definition extractCore_array (lbls : list Label) : list Label * nat * bool :=
  extractCore_loop lbls 0 lbls.

(** The interface [IndexCache] as far as [StorePostings] uses the
    fallback: the fallback after the call. *)
Class IndexCacheStore (IC : Type) : Type := {
  ic_StorePostings : IC → ULID → Label → bytes → IC;
}.

(** Package badger (third party): the store after
    [wb := db.NewWriteBatch(); wb.Set(key, v); wb.Flush()], the errors of
    [Set] and [Flush] being dropped by the caller. *)
Context (WriteBatch_Set_Flush : DB → bytes → bytes → DB).

(** [StorePostings]: the cache after the call. What it prints is not
    part of the model. *)
Definition StorePostings {IC} {ICS : IndexCacheStore IC} (c : BadgerIndexCache IC)
    (blockID : ULID) (l : Label) (v : bytes) : BadgerIndexCache IC :=
  if bool_decide (Name l = "app") && bool_decide (Value l = "core") then
    let key := cacheKey_string blockID l in
    mkBadgerIndexCache (WriteBatch_Set_Flush (db c) (bytes_of_string key) v) (ic c)
  else
    mkBadgerIndexCache (db c) (ic_StorePostings (ic c) blockID l v).

End badger.

Arguments mkBadgerIndexCache {IC}.
Arguments db {IC}.
Arguments ic {IC}.

End storecache.

(** ** Packages cacheutil and cache: the remote cache-service backend *)

Module cacheutil.

(** Package rueidis (third party): the reply to the client-side cached
    [MGET keys...] as [ToArray] gives it, and [ToString] on one of its
    elements. The client changes with the command (its read cache). *)
Class Rueidis (Client Message : Type) : Type := {
  DoCache_Mget : Client → list string → Client * (list Message * option error);
  ToString : Message → string + error;
}.

Section client.
Context {Client Message : Type} {R : Rueidis Client Message}.

(** [stringToBytes]: the bytes of the string. *)
Definition stringToBytes (s : string) : bytes := bytes_of_string s.

(** The loop over [resps], from index [i] on; [keys[i]] panics outside
    the slice. *)
Fixpoint GetMulti_loop (keys : list string) (i : nat) (resps : list Message)
    (results : gmap string bytes) : outcome (gmap string bytes) :=
  match resps with
  | [] => Returns results
  | resp :: resps' =>
      match ToString resp with
      | inl val =>
          match keys !! i with
          | Some k => GetMulti_loop keys (S i) resps' (<[k := stringToBytes val]> results)
          | None => Panics "index out of range"
          end
      | inr _ => GetMulti_loop keys (S i) resps' results
      end
  end.

(** [GetMulti]: a nil map reads as the empty map. The latency it observes
    is not part of the model. *)
Definition GetMulti (c : Client) (keys : list string)
  : outcome (Client * gmap string bytes) :=
  match keys with
  | [] => Returns (c, ∅)
  | _ =>
      let '(c', (resps, _)) := DoCache_Mget c keys in
      match GetMulti_loop keys 0 resps ∅ with
      | Returns results => Returns (c', results)
      | Panics msg => Panics msg
      end
  end.

(** What a reply contributes to the result of [GetMulti]: its bytes when
    [ToString] gives no error. *)
Definition reply_bytes (resp : Message) : option bytes :=
  match ToString resp with
  | inl val => Some (stringToBytes val)
  | inr _ => None
  end.

End client.
End cacheutil.

Module cache.
Import cacheutil.

(** [RueidisCache] with its two counters; they only ever receive whole
    numbers, kept here as integers. *)
Record RueidisCache (Client : Type) : Type := mkRueidisCache {
  redisClient : Client;
  requests : Z;
  hits : Z;
}.
Arguments mkRueidisCache {Client}.
Arguments redisClient {Client}.
Arguments requests {Client}.
Arguments hits {Client}.

Definition Fetch {Client Message : Type} {R : Rueidis Client Message}
    (c : RueidisCache Client) (keys : list string)
  : outcome (RueidisCache Client * gmap string bytes) :=
  let requests' := requests c + Z.of_nat (length keys) in
  match GetMulti (redisClient c) keys with
  | Panics msg => Panics msg
  | Returns (client', results) =>
      Returns (mkRueidisCache client' requests' (hits c + Z.of_nat (size results)),
               results)
  end.

End cache.

(** ** Package store: reference adjusters and the lookup table builder *)

Module store.

(** [uint64] values are integers in [0, 2^64); arithmetic wraps around. *)
Definition MaxUint64 : Z := 2 ^ 64 - 1.
Definition uint64 (z : Z) : Z := z `mod` 2 ^ 64.

(** Integer division and remainder panic on a zero divisor. *)
Definition maxStringsPerStore (storeCount : Z) : outcome Z :=
  if bool_decide (storeCount = 0)
  then Panics "runtime error: integer divide by zero"
  else Returns (MaxUint64 `div` storeCount).

(** The [adjusterFn] returned for [storeIndex] by the factory that was
    made with [eachStore]. *)
Definition adjusterFn (eachStore storeIndex : Z) (ref : Z) : outcome Z :=
  let startFrom := uint64 (eachStore * storeIndex) in
  if bool_decide (eachStore = 0)
  then Panics "runtime error: integer divide by zero"
  else Returns (uint64 (startFrom + ref `mod` eachStore)).

Definition NewReferenceAdjusterFactory (storeCount : Z)
  : outcome (Z → Z → outcome Z) :=
  match maxStringsPerStore storeCount with
  | Panics msg => Panics msg
  | Returns eachStore => Returns (adjusterFn eachStore)
  end.

Record LookupTableBuilder : Type := mkLookupTableBuilder {
  maxElements : Z;
  current : Z;
  table : gmap Z string;
  reverseTable : gmap string Z;
}.

Definition NewLookupTableBuilder (maxElements : Z) : LookupTableBuilder :=
  mkLookupTableBuilder maxElements 0 ∅ ∅.

Definition MaxElementsReached : error :=
  err_other "max elements reached in lookup table builder".

(** [PutString]: the builder after the call and the two results.
    [strings.Clone] gives a string with the same bytes. *)
Definition PutString (b : LookupTableBuilder) (s : string)
  : LookupTableBuilder * (Z * option error) :=
  if bool_decide (maxElements b ≤ current b) then (b, (0, Some MaxElementsReached))
  else
    match reverseTable b !! s with
    | Some num => (b, (num, None))
    | None =>
        let b' := mkLookupTableBuilder (maxElements b) (uint64 (current b + 1))
                    (<[current b := s]> (table b))
                    (<[s := current b]> (reverseTable b)) in
        (b', (uint64 (current b' - 1), None))
    end.

Definition GetTable (b : LookupTableBuilder) : gmap Z string := table b.

(** The builder after the strings [ss] were put one after the other, and
    the results of the calls. *)
Fixpoint PutStrings (b : LookupTableBuilder) (ss : list string)
  : LookupTableBuilder * list (Z * option error) :=
  match ss with
  | [] => (b, [])
  | s :: ss' =>
      let '(b1, r) := PutString b s in
      let '(b2, rs) := PutStrings b1 ss' in
      (b2, r :: rs)
  end.

(** The state of a builder that the properties below are about: the
    counter is a [uint64] within the limit, the two maps are inverse to
    each other, the numbers in use are those below the counter, and each
    map has as many entries as the counter says. *)
Definition consistent (b : LookupTableBuilder) : Prop :=
  0 ≤ current b ≤ maxElements b ∧ maxElements b ≤ MaxUint64 ∧
  (∀ n s, table b !! n = Some s ↔ reverseTable b !! s = Some n) ∧
  (∀ n, is_Some (table b !! n) ↔ 0 ≤ n < current b) ∧
  Z.of_nat (size (table b)) = current b ∧
  Z.of_nat (size (reverseTable b)) = current b.

End store.

(** ** A small instance of the collaborators

    Messages are strings, serialized behind a tag byte; the digest is the
    number of bytes hashed; the wrapped stream plays a script and then
    reports end-of-stream; the fallback index cache holds nothing. *)

Module instance.
Import grpccache.

Definition Unmarshal (b : bytes) : option string :=
  match b with
  | [] => Some ""
  | x :: rest => if Byte.eqb x Byte.x0a then Some (string_of_bytes rest) else None
  end.

Definition storepb : Storepb := {|
  SeriesRequest := string;
  SeriesResponse := string;
  SeriesRequest_Marshal := bytes_of_string;
  SeriesResponse_Marshal := λ r, Byte.x0a :: bytes_of_string r;
  SeriesResponse_Unmarshal := Unmarshal;
|}.

Definition xxhash : XXHash := {| Sum64 := λ b, Z.of_nat (length b) |}.

Definition script : @ClientStream storepb (list (@recv_result storepb)) := {|
  stream_RecvMsg := λ s _,
    match s with
    | [] => ([], @RecvErr storepb io_EOF)
    | r :: s' => (s', r)
    end;
  stream_SendMsg := λ s _, (s, None);
|}.

Definition msg (s : string) : @SeriesResponse storepb := s.

(** A connection target, a request and its fingerprint. *)
Definition tgt : string := "store:10901".
Definition req : @SeriesRequest storepb := "up".
Definition F : string := @hashReqTarget storepb xxhash req tgt.

(** Two recorded objects. *)
Definition recorded (l : loc) : @SeriesResponse storepb :=
  match l with
  | 0%nat => "a"
  | _ => "b"
  end.

(** A world with no object written, an empty cache and the stream [s]. *)
Definition world (s : list (@recv_result storepb))
  : @World storepb (list (@recv_result storepb)) :=
  @mkWorld storepb _ (λ _, "") 0%nat ∅ s 0%nat [].

(** The world [world s] after a request was sent and its lookup found
    no count key. *)
Definition world_after_miss (s : list (@recv_result storepb))
  : @World storepb (list (@recv_result storepb)) :=
  @mkWorld storepb _ (λ _, "") 0%nat ∅ s 0%nat
    [@EvFetch storepb [numKeysKey F]; EvSendMsg (@PtrSeriesRequest storepb req)].

(** The entry recorded for [F] from the two recorded objects, a cache
    that holds it, and the world of a later call on that cache, before
    and after its request was sent. *)
Definition entry : gmap string bytes :=
  @putResponses_batch storepb recorded F [0%nat; 1%nat].

Definition world_recording : @World storepb (list (@recv_result storepb)) :=
  @mkWorld storepb _ recorded 2%nat ∅ [] 0%nat [].

Definition world_later : @World storepb (list (@recv_result storepb)) :=
  @mkWorld storepb _ (λ _, "") 5%nat (InMemoryCache_Store ∅ entry) [] 0%nat [].

Definition world_after_hit : @World storepb (list (@recv_result storepb)) :=
  @mkWorld storepb _ (<[6%nat := "b"]> (<[5%nat := "a"]> (λ _, ""))) 7%nat
    (InMemoryCache_Store ∅ entry) [] 1%nat
    [@EvFetch storepb [numKeysKey F];
     EvFetch [indexKey F 0; indexKey F 1];
     EvSendMsg (@PtrSeriesRequest storepb req)].

(** Block identifiers are numbers; the disk key of a label; a fallback
    index cache that holds nothing and answers with a nil map; a disk
    store whose reads fail, one that holds [v] under every key, and one
    that holds nothing. *)
Definition cacheKey_string (blockID : nat) (l : storecache.Label) : string :=
  "P:" +:+ storecache.Name l +:+ "=" +:+ storecache.Value l.

Definition empty_ic : @storecache.IndexCache nat unit :=
  {| storecache.ic_FetchMultiPostings := λ _ _ lbls, (None, lbls) |}.

Definition db_failing (msg : string) : storecache.DB :=
  storecache.mkDB unit (λ _, inr (err_other msg)) (λ _, inl []).

Definition db_holding (v : bytes) : storecache.DB :=
  storecache.mkDB unit (λ _, inl tt) (λ _, inl v).

Definition db_empty : storecache.DB :=
  storecache.mkDB unit (λ _, inr badger_ErrKeyNotFound) (λ _, inl []).

(** A fallback that keeps nothing of what it is given to store, and the
    disk store [d] after the value [v] was written under the key [k]. *)
Definition empty_ic_store : @storecache.IndexCacheStore nat unit :=
  {| storecache.ic_StorePostings := λ ic _ _ _, ic |}.

Definition db_write (d : storecache.DB) (k v : bytes) : storecache.DB :=
  storecache.mkDB (bytes + storecache.Item d)
    (λ k', if String.eqb (string_of_bytes k') (string_of_bytes k) then inl (inl v)
           else match storecache.txn_Get d k' with
                | inl it => inl (inr it)
                | inr e => inr e
                end)
    (λ it, match it with
           | inl v' => inl v'
           | inr it' => storecache.ValueCopy d it'
           end).

(** A redis that is a finite map and answers [MGET] with one message per
    key, nil for an absent key. *)
Definition redis : cacheutil.Rueidis (gmap string string) (option string) := {|
  cacheutil.DoCache_Mget := λ c keys, (c, ((λ k, c !! k) <$> keys, None));
  cacheutil.ToString := λ resp,
    match resp with
    | Some s => inl s
    | None => inr (err_other "redis nil message returned")
    end;
|}.

End instance.

(** * Properties *)

(** ** Decimal printing and scanning *)

Section fmt_facts.
Import fmt.

Lemma scanNumber_digits (u : Decimal.uint) :
  scanNumber (NilEmpty.string_of_uint u) = NilEmpty.string_of_uint u.
Proof. induction u; simpl; [done | by rewrite IHu ..]. Qed.

Lemma SkipSpace_digits (u : Decimal.uint) :
  SkipSpace (NilEmpty.string_of_uint u) = Some (NilEmpty.string_of_uint u).
Proof. by destruct u. Qed.

Lemma head_digit (u : Decimal.uint) :
  u ≠ Decimal.Nil →
  ∃ a s, NilEmpty.string_of_uint u = String a s ∧
         Ascii.eqb a "-" = false ∧ Ascii.eqb a "+" = false.
Proof. destruct u; [done | by eexists _, _ ..]. Qed.

Lemma ParseInt_digits (neg : bool) (u : Decimal.uint) :
  u ≠ Decimal.Nil →
  let v := if neg then - Z.of_uint u else Z.of_uint u in
  minInt64 ≤ v ≤ maxInt64 →
  ParseInt neg (NilEmpty.string_of_uint u) = Some v.
Proof.
  intros Hu v Hv. unfold ParseInt.
  replace (NilEmpty.string_of_uint u) with (NilZero.string_of_uint u)
    by (by destruct u).
  rewrite NilZero.usu by done.
  fold v. by rewrite bool_decide_eq_true_2.
Qed.

Lemma Sprintf_d_pos (p : positive) :
  Sprintf_d (Z.pos p) = NilEmpty.string_of_uint (Pos.to_uint p).
Proof.
  unfold Sprintf_d. simpl. unfold NilZero.string_of_uint.
  pose proof (DecimalPos.Unsigned.to_uint_nonnil p).
  by destruct (Pos.to_uint p).
Qed.

Lemma Sprintf_d_neg (p : positive) :
  Sprintf_d (Z.neg p) = String "-" (NilEmpty.string_of_uint (Pos.to_uint p)).
Proof.
  unfold Sprintf_d. simpl. unfold NilZero.string_of_uint.
  pose proof (DecimalPos.Unsigned.to_uint_nonnil p).
  by destruct (Pos.to_uint p).
Qed.

Lemma of_uint_to_uint (p : positive) : Z.of_uint (Pos.to_uint p) = Z.pos p.
Proof. unfold Z.of_uint. by rewrite DecimalPos.Unsigned.of_to. Qed.

(** Scanning what [%d] printed gives the number back, for every [int64]. *)
Lemma Sscanf_d_Sprintf_d (n : Z) :
  minInt64 ≤ n ≤ maxInt64 → Sscanf_d (Sprintf_d n) = Some n.
Proof.
  intros Hn. destruct n as [|p|p].
  - reflexivity.
  - rewrite Sprintf_d_pos. unfold Sscanf_d. rewrite SkipSpace_digits.
    pose proof (DecimalPos.Unsigned.to_uint_nonnil p) as Hnil.
    destruct (head_digit _ Hnil) as (a & s & Hs & Hm & Hp).
    rewrite Hs, Hm, Hp, <- Hs, scanNumber_digits.
    rewrite ParseInt_digits; rewrite ?of_uint_to_uint; done.
  - rewrite Sprintf_d_neg. unfold Sscanf_d. simpl.
    rewrite scanNumber_digits.
    pose proof (DecimalPos.Unsigned.to_uint_nonnil p) as Hnil.
    rewrite ParseInt_digits; rewrite ?of_uint_to_uint; done.
Qed.

Lemma Sprintf_d_inj (a b : Z) : Sprintf_d a = Sprintf_d b → a = b.
Proof.
  unfold Sprintf_d. intros Hab. apply DecimalZ.to_int_inj.
  assert (Hnn : ∀ z, Z.to_int z ≠ Decimal.Pos Decimal.Nil ∧
                     Z.to_int z ≠ Decimal.Neg Decimal.Nil).
  { intros [|p|p]; simpl; split; try done;
      intros [= Hp]; by apply (DecimalPos.Unsigned.to_uint_nonnil p). }
  destruct (Hnn a) as [Ha1 Ha2], (Hnn b) as [Hb1 Hb2].
  pose proof (NilZero.isi _ Ha1 Ha2) as Ia.
  pose proof (NilZero.isi _ Hb1 Hb2) as Ib.
  rewrite Hab in Ia. congruence.
Qed.

(** What [%d] prints starts with a digit or a minus sign, never with the
    letter of ["num"]. *)
Lemma Sprintf_d_not_num (n : Z) : Sprintf_d n ≠ "num".
Proof.
  destruct n as [|p|p]; [done | rewrite Sprintf_d_pos | by rewrite Sprintf_d_neg].
  intros Hp. pose proof (NilEmpty.usu (Pos.to_uint p)) as Hu.
  rewrite Hp in Hu. discriminate Hu.
Qed.

End fmt_facts.

Example Sprintf_d_12 : fmt.Sprintf_d 12 = "12". Proof. reflexivity. Qed.
Example Sprintf_d_0 : fmt.Sprintf_d 0 = "0". Proof. reflexivity. Qed.
Example Sscanf_d_3abc : fmt.Sscanf_d " 3abc" = Some 3. Proof. reflexivity. Qed.
Example Sscanf_d_neg : fmt.Sscanf_d "-17" = Some (-17). Proof. reflexivity. Qed.
Example Sscanf_d_bad : fmt.Sscanf_d "x3" = None. Proof. reflexivity. Qed.
Example Sscanf_d_newline : fmt.Sscanf_d (String "010" "3") = None. Proof. reflexivity. Qed.
Example Sscanf_d_big : fmt.Sscanf_d "9223372036854775808" = None. Proof. reflexivity. Qed.

(** ** The chunked entry written by [putResponses] *)

Section batch_facts.
Import grpccache.
Context {PB : Storepb}.
Implicit Types (h : loc → SeriesResponse) (reqSig k : string) (rs : list loc).
Implicit Types (keys : gmap string bytes).

Lemma indexKey_inj reqSig (i j : nat) : indexKey reqSig i = indexKey reqSig j → i = j.
Proof.
  unfold indexKey. intros Hk.
  apply (inj (String.app reqSig)), (inj (String.app "-")) in Hk.
  apply Sprintf_d_inj in Hk. lia.
Qed.

Lemma indexKey_ne_numKeysKey reqSig (i : nat) : indexKey reqSig i ≠ numKeysKey reqSig.
Proof.
  unfold indexKey, numKeysKey. intros Hk.
  apply (inj (String.app reqSig)) in Hk. injection Hk as Hk.
  by apply Sprintf_d_not_num in Hk.
Qed.

Lemma putResponses_keys_other h reqSig (i : nat) rs keys k :
  (∀ j, (j < length rs)%nat → k ≠ indexKey reqSig (i + j)) →
  putResponses_keys h reqSig i rs keys !! k = keys !! k.
Proof.
  revert i keys. induction rs as [|r rs IH]; intros i keys Hk; simpl; [done|].
  rewrite IH.
  - rewrite lookup_insert_ne; [done|].
    intros Heq. apply (Hk 0%nat); simpl; [lia|]. by rewrite Nat.add_0_r.
  - intros j Hj. replace (S i + j)%nat with (i + S j)%nat by lia.
    apply Hk. simpl. lia.
Qed.

Lemma putResponses_keys_index h reqSig (i : nat) rs keys (j : nat) r :
  rs !! j = Some r →
  putResponses_keys h reqSig i rs keys !! indexKey reqSig (i + j)
  = Some (SeriesResponse_Marshal (h r)).
Proof.
  revert i keys j. induction rs as [|r0 rs IH]; intros i keys j Hj; [done|].
  destruct j as [|j]; simpl in *.
  - injection Hj as ->. rewrite putResponses_keys_other.
    + by rewrite Nat.add_0_r, lookup_insert_eq.
    + intros j _ Heq. apply indexKey_inj in Heq. lia.
  - replace (i + S j)%nat with (S i + j)%nat by lia. by apply IH.
Qed.

Lemma putResponses_keys_Some h reqSig (i : nat) rs keys k (v : bytes) :
  putResponses_keys h reqSig i rs keys !! k = Some v →
  keys !! k = Some v ∨
  ∃ (j : nat) r, rs !! j = Some r ∧ k = indexKey reqSig (i + j) ∧
                 v = SeriesResponse_Marshal (h r).
Proof.
  revert i keys. induction rs as [|r0 rs IH]; intros i keys Hk; simpl in *.
  { by left. }
  apply IH in Hk as [Hk|(j & r & Hj & -> & ->)].
  - apply lookup_insert_Some in Hk as [[<- <-]|[_ Hk]]; [|by left].
    right. exists 0%nat, r0. by rewrite Nat.add_0_r.
  - right. exists (S j), r. split; [done|]. split; [f_equal; lia|done].
Qed.

Lemma batch_numKeys h reqSig rs :
  putResponses_batch h reqSig rs !! numKeysKey reqSig
  = Some (bytes_of_string (fmt.Sprintf_d (Z.of_nat (length rs)))).
Proof.
  unfold putResponses_batch. rewrite putResponses_keys_other.
  - by rewrite lookup_singleton_eq.
  - intros j _ Heq. by apply (indexKey_ne_numKeysKey reqSig (0 + j)).
Qed.

Lemma batch_index h reqSig rs (j : nat) r :
  rs !! j = Some r →
  putResponses_batch h reqSig rs !! indexKey reqSig j
  = Some (SeriesResponse_Marshal (h r)).
Proof.
  intros Hj. unfold putResponses_batch.
  by apply (putResponses_keys_index h reqSig 0 rs _ j r).
Qed.

(** The batch holds the count key and the [n] indexed keys, and nothing
    else. *)
Lemma batch_exactly h reqSig rs k (v : bytes) :
  putResponses_batch h reqSig rs !! k = Some v ↔
    (k = numKeysKey reqSig ∧
     v = bytes_of_string (fmt.Sprintf_d (Z.of_nat (length rs)))) ∨
    (∃ (j : nat) r, rs !! j = Some r ∧ k = indexKey reqSig j ∧
                    v = SeriesResponse_Marshal (h r)).
Proof.
  split.
  - intros Hk. unfold putResponses_batch in Hk.
    apply putResponses_keys_Some in Hk as [Hk|(j & r & Hj & -> & ->)].
    + apply lookup_singleton_Some in Hk as [<- <-]. by left.
    + right. by exists j, r.
  - intros [[-> ->]|(j & r & Hj & -> & ->)].
    + apply batch_numKeys.
    + by apply batch_index.
Qed.

End batch_facts.

(** ** The interceptor, one step at a time *)

Ltac munfold :=
  unfold grpccache.observe, grpccache.putResponses in *;
  unfold mbind, grpccache.M_bind, mret, grpccache.M_ret, grpccache.panic,
    grpccache.alloc, grpccache.load, grpccache.store,
    grpccache.get_heap, grpccache.Fetch, grpccache.Store,
    grpccache.cachedCalls_Inc, grpccache.ClientStream_RecvMsg,
    grpccache.ClientStream_SendMsg in *.

Section interceptor_steps.
Import grpccache.
Context {PB : Storepb} {XX : XXHash} {S : Type} {CSt : ClientStream S}.
Implicit Types (i : seriesInterceptor) (m : any) (w : World S).

Lemma hashReqTarget_nonempty (r : SeriesRequest) (tgt : string) :
  hashReqTarget r tgt ≠ "".
Proof. unfold hashReqTarget, Sum. simpl. discriminate. Qed.

Lemma RecvMsg_no_fingerprint i m w :
  hashedReq i = "" →
  RecvMsg i m w = (err ← ClientStream_RecvMsg m; mret (i, err)) w.
Proof. intros Hh. unfold RecvMsg. by rewrite bool_decide_eq_true_2. Qed.

Lemma SendMsg_not_request i m w :
  (∀ r, m ≠ PtrSeriesRequest r) →
  SendMsg i m w = (err ← ClientStream_SendMsg m; mret (i, err)) w.
Proof. intros Hm. destruct m; [by destruct (Hm r) | done..]. Qed.

Lemma run_stream_total (ops : list op) w :
  ∃ obs w', run_stream ops w = Returns (obs, w') ∧
            cache w' = cache w ∧ cachedCalls w' = cachedCalls w ∧
            events w' = events w ++ (op_event <$> ops).
Proof.
  revert w. induction ops as [|[m|m] ops IH]; intros w; simpl.
  - eexists _, _. split; [done|]. by rewrite app_nil_r.
  - munfold. destruct (stream_SendMsg (stream w) m) as [s' err].
    match goal with |- context [run_stream ops ?w0] =>
      destruct (IH w0) as (obs & w' & -> & Hc & Hn & He) end.
    eexists _, _. split; [done|]. rewrite Hc, Hn, He. simpl.
    by rewrite <- app_assoc.
  - munfold. destruct (stream_RecvMsg (stream w) m) as [s' [v|err]]; simpl;
      match goal with |- context [run_stream ops ?w0] =>
        destruct (IH w0) as (obs & w' & -> & Hc & Hn & He) end;
      (eexists _, _; split; [done|]); rewrite Hc, Hn, He; simpl;
      by rewrite <- app_assoc.
Qed.

Lemma run_no_fingerprint i (ops : list op) w :
  hashedReq i = "" →
  Forall (λ o, ¬ sends_request o) ops →
  run_interceptor i ops w =
    match run_stream ops w with
    | Returns (obs, w') => Returns ((i, obs), w')
    | Panics msg => Panics msg
    end.
Proof.
  intros Hh Hops. revert w.
  induction Hops as [|[m|m] ops Ho Hops IH]; intros w; simpl; [done|..].
  - unfold mbind at 1, M_bind at 1. rewrite SendMsg_not_request.
    2:{ intros r ->. apply Ho. by exists r. }
    munfold. destruct (stream_SendMsg (stream w) m) as [s' err].
    rewrite IH. by destruct (run_stream ops _) as [[obs w']|].
  - unfold mbind at 1, M_bind at 1. rewrite RecvMsg_no_fingerprint by done.
    munfold. destruct (stream_RecvMsg (stream w) m) as [s' [v|err]]; simpl;
      rewrite IH; by destruct (run_stream ops _) as [[obs w']|].
Qed.

End interceptor_steps.

Section interceptor_runs.
Import grpccache.
Context {PB : Storepb} {XX : XXHash} {S : Type} {CSt : ClientStream S}.
Implicit Types (i : seriesInterceptor) (m : any) (w : World S).
Implicit Types (h : loc → SeriesResponse).

Lemma write_all_other h ds vs (l : loc) : l ∉ ds → write_all h ds vs l = h l.
Proof.
  revert h vs. induction ds as [|d ds IH]; intros h [|v vs] Hl; simpl; try done.
  rewrite IH by set_solver. apply fn_lookup_insert_ne. set_solver.
Qed.

Lemma write_all_lookup h ds vs (j : nat) d v :
  NoDup ds → ds !! j = Some d → vs !! j = Some v → write_all h ds vs d = v.
Proof.
  revert h vs j. induction ds as [|d0 ds IH]; intros h [|v0 vs] j Hnd Hd Hv;
    try done.
  apply list.NoDup_cons in Hnd as [Hd0 Hnd]. destruct j as [|j]; simpl in *.
  - injection Hd as ->. injection Hv as ->.
    rewrite write_all_other by done. apply fn_lookup_insert.
  - by eapply IH.
Qed.

Lemma run_interceptor_app i (ops1 ops2 : list op) w :
  run_interceptor i (ops1 ++ ops2) w =
    match run_interceptor i ops1 w with
    | Returns ((i1, obs1), w1) =>
        match run_interceptor i1 ops2 w1 with
        | Returns ((i2, obs2), w2) => Returns ((i2, obs1 ++ obs2), w2)
        | Panics msg => Panics msg
        end
    | Panics msg => Panics msg
    end.
Proof.
  revert i w. induction ops1 as [|[m|m] ops1 IH]; intros i w; simpl.
  - munfold. by destruct (run_interceptor i ops2 w) as [[[i2 obs2] w2]|].
  - munfold. destruct (SendMsg i m w) as [[[i' err] w']|]; simpl; [|done].
    rewrite IH. destruct (run_interceptor i' ops1 w') as [[[i1 obs1] w1]|]; [|done].
    by destruct (run_interceptor i1 ops2 w1) as [[[i2 obs2] w2]|].
  - munfold. destruct (RecvMsg i m w) as [[[i' err] w']|]; simpl; [|done].
    rewrite IH. destruct (run_interceptor i' ops1 w') as [[[i1 obs1] w1]|]; [|done].
    by destruct (run_interceptor i1 ops2 w1) as [[[i2 obs2] w2]|].
Qed.

(** A read while recording: the transport is read; end-of-stream with a
    non-empty buffer stores the whole buffer, any other error stores
    nothing; a message read through a response pointer is buffered. *)
Lemma RecvMsg_record i m w :
  hashedReq i ≠ "" → cachedResponsesAvailable i = false →
  RecvMsg i m w =
    let '(s', r) := stream_RecvMsg (stream w) m in
    let ev := events w ++ [EvRecvMsg m] in
    match r with
    | RecvOK v =>
        match m with
        | PtrSeriesResponse l =>
            Returns ((set_responses i (responses i ++ [l]), None),
                     mkWorld (<[l := v]> (heap w)) (next w) (cache w) s'
                             (cachedCalls w) ev)
        | _ => Returns ((i, None),
                        mkWorld (heap w) (next w) (cache w) s' (cachedCalls w) ev)
        end
    | RecvErr e =>
        if bool_decide (e = io_EOF) && bool_decide (0 < length (responses i))%nat
        then
          let batch := putResponses_batch (heap w) (hashedReq i) (responses i) in
          Returns ((i, Some e),
                   mkWorld (heap w) (next w) (InMemoryCache_Store (cache w) batch) s'
                           (cachedCalls w) (ev ++ [EvStore batch ttl_5min]))
        else Returns ((i, Some e),
                      mkWorld (heap w) (next w) (cache w) s' (cachedCalls w) ev)
    end.
Proof.
  intros Hh Hc. unfold RecvMsg. rewrite bool_decide_eq_false_2 by done.
  rewrite Hc. munfold.
  destruct (stream_RecvMsg (stream w) m) as [s' [v|e]]; simpl.
  - by destruct m.
  - by destruct (bool_decide (e = io_EOF) && _).
Qed.

(** [n] reads while recording, the transport delivering [vs]. *)
Lemma run_record i (ds : list loc) (vs : list SeriesResponse) w :
  hashedReq i ≠ "" → cachedResponsesAvailable i = false →
  (stream_reads (stream w) (PtrSeriesResponse <$> ds)).1 = RecvOK <$> vs →
  run_interceptor i (OpRecvMsg <$> (PtrSeriesResponse <$> ds)) w =
    Returns ((set_responses i (responses i ++ ds), (λ v, (None, Some v)) <$> vs),
             mkWorld (write_all (heap w) ds vs) (next w) (cache w)
                     (stream_reads (stream w) (PtrSeriesResponse <$> ds)).2
                     (cachedCalls w)
                     (events w ++ (EvRecvMsg <$> (PtrSeriesResponse <$> ds)))).
Proof.
  revert i vs w. induction ds as [|d ds IH]; intros i vs w Hh Hc Hvs.
  - destruct vs; [|done]. simpl. munfold. rewrite !app_nil_r. by destruct i, w.
  - rewrite !fmap_cons in *. cbn [run_interceptor stream_reads] in *.
    unfold mbind at 1, M_bind at 1. rewrite RecvMsg_record by done.
    destruct (stream_RecvMsg (stream w) (PtrSeriesResponse d)) as [s' r].
    destruct (stream_reads s' (PtrSeriesResponse <$> ds)) as [rs s''] eqn:Hrs.
    simpl in Hvs. destruct vs as [|v vs]; [done|]. injection Hvs as -> Hvs.
    munfold. cbn beta iota zeta. rewrite IH with (vs := vs); simpl; try done.
    + rewrite Hrs. simpl. rewrite fn_lookup_insert.
      rewrite <- !app_assoc. done.
    + by rewrite Hrs.
Qed.

End interceptor_runs.

Section lookup_facts.
Import grpccache.
Context {PB : Storepb} {XX : XXHash} {S : Type} {CSt : ClientStream S}.
Implicit Types (i : seriesInterceptor) (m : any) (w : World S).
Implicit Types (h : loc → SeriesResponse) (fd c : gmap string bytes).

(** A read while replaying never reaches the transport. *)
Lemma RecvMsg_replay i m w :
  hashedReq i ≠ "" → cachedResponsesAvailable i = true →
  RecvMsg i m w =
    match responses i with
    | [] => Returns ((i, Some io_EOF), w)
    | r0 :: rest =>
        match m with
        | PtrSeriesResponse resp =>
            Returns ((set_responses i rest, None),
                     mkWorld (<[resp := heap w r0]> (heap w)) (next w) (cache w)
                             (stream w) (cachedCalls w) (events w))
        | _ => Panics "should be a series response type"
        end
    end.
Proof.
  intros Hh Hc. unfold RecvMsg. rewrite bool_decide_eq_false_2 by done.
  rewrite Hc. destruct (responses i) as [|r0 rest]; [done|]. by destruct m.
Qed.

Lemma run_replay i (ds : list loc) m w :
  hashedReq i ≠ "" → cachedResponsesAvailable i = true →
  length ds = length (responses i) →
  (∀ d, d ∈ ds → d ∉ responses i) →
  let heap' := write_all (heap w) ds (heap w <$> responses i) in
  run_interceptor i ((OpRecvMsg <$> (PtrSeriesResponse <$> ds)) ++ [OpRecvMsg m]) w =
    Returns ((set_responses i [],
              ((λ r, (None, Some (heap w r))) <$> responses i) ++
              [(Some io_EOF,
                match m with PtrSeriesResponse l => Some (heap' l) | _ => None end)]),
             mkWorld heap' (next w) (cache w) (stream w) (cachedCalls w) (events w)).
Proof.
  revert i w. induction ds as [|d ds IH]; intros i w Hh Hc Hlen Hdisj heap'.
  - destruct i as [tgt hr rs fl]. simpl in *. destruct rs; [|done].
    unfold mbind at 1, M_bind at 1. rewrite RecvMsg_replay by done.
    simpl. munfold. subst heap'. simpl. by destruct w.
  - destruct i as [tgt hr rs fl]. simpl in *. destruct rs as [|r0 rest]; [done|].
    rewrite !fmap_cons. cbn [app run_interceptor].
    unfold mbind at 1, M_bind at 1. rewrite RecvMsg_replay by done.
    cbn [responses]. munfold. cbn beta iota zeta.
    rewrite IH; cbn [heap next cache stream cachedCalls events responses
                       hashedReq cachedResponsesAvailable set_responses];
      [|done|done|simpl in *; lia|intros d' Hd'; set_solver].
    assert (Hfr : ∀ r, r ∈ rest → <[d := heap w r0]> (heap w) r = heap w r).
    { intros r Hr. apply fn_lookup_insert_ne. intros Heq.
      apply (Hdisj d); [set_solver|]. rewrite Heq. set_solver. }
    assert (Hrest : (<[d := heap w r0]> (heap w)) <$> rest = heap w <$> rest).
    { apply list_fmap_ext. intros j r Hr. apply Hfr, list_elem_of_lookup.
      by exists j. }
    assert (Hobs : (λ r, (@None error, Some (<[d := heap w r0]> (heap w) r))) <$> rest
                   = (λ r, (None, Some (heap w r))) <$> rest).
    { apply list_fmap_ext. intros j r Hr. rewrite Hfr; [done|].
      apply list_elem_of_lookup. by exists j. }
    subst heap'. cbn [fmap list_fmap write_all]. rewrite fn_lookup_insert.
    fold (list_fmap _ _ (heap w) rest). fold (@fmap list _ _ _ (heap w) rest).
    by rewrite Hrest, Hobs.
Qed.

End lookup_facts.

Section getResponses_facts.
Import grpccache.
Context {PB : Storepb} {XX : XXHash} {S : Type} {CSt : ClientStream S}.
Implicit Types (i : seriesInterceptor) (m : any) (w : World S).
Implicit Types (h : loc → SeriesResponse) (fd c : gmap string bytes).
Implicit Types (reqSig : string) (idx : list nat).

Lemma Fetch_lookup c (keys : list string) (k : string) :
  InMemoryCache_Fetch c keys !! k = if decide (k ∈ keys) then c !! k else None.
Proof.
  unfold InMemoryCache_Fetch. destruct (decide (k ∈ keys)) as [Hk|Hk].
  - destruct (c !! k) as [v|] eqn:Hc.
    + by apply map_lookup_filter_Some.
    + apply map_lookup_filter_None. by left.
  - apply map_lookup_filter_None. right. by intros v _.
Qed.

Lemma decode_ok fd reqSig idx (ret : list loc) vs w :
  decode_all fd reqSig idx = Some vs →
  getResponses_decode fd reqSig idx ret w
  = Returns (inl (ret ++ seq (next w) (length vs)), allocated vs w).
Proof.
  revert ret vs w. induction idx as [|j idx IH]; intros ret vs w Hd; simpl in *.
  - injection Hd as <-. unfold allocated. simpl.
    rewrite app_nil_r, Nat.add_0_r. by destruct w.
  - destruct (SeriesResponse_Unmarshal _) as [v|]; [|done]. simpl in Hd.
    destruct (decode_all fd reqSig idx) as [vs'|] eqn:Hvs'; [|done].
    injection Hd as <-. munfold. cbn beta iota zeta.
    rewrite (IH _ vs') by done. unfold allocated. simpl.
    rewrite <- app_assoc. simpl. do 3 f_equal. lia.
Qed.

Lemma decode_fail fd reqSig idx (ret : list loc) w :
  decode_all fd reqSig idx = None →
  ∃ w', getResponses_decode fd reqSig idx ret w
        = Returns (inr (err_other "unmarshaling data from cache"), w') ∧
        cache w' = cache w ∧ stream w' = stream w ∧
        cachedCalls w' = cachedCalls w ∧ events w' = events w.
Proof.
  revert ret w. induction idx as [|j idx IH]; intros ret w Hd; simpl in *; [done|].
  destruct (SeriesResponse_Unmarshal _) as [v|]; [|by eexists]. simpl in Hd.
  destruct (decode_all fd reqSig idx) as [vs'|] eqn:Hvs'; [done|].
  munfold. cbn beta iota zeta.
  match goal with |- context [getResponses_decode _ _ _ ?r ?w0] =>
    destruct (IH r w0 eq_refl) as (w' & -> & ? & ? & ? & ?) end.
  by eexists.
Qed.

Lemma decode_all_None fd reqSig idx (j : nat) :
  j ∈ idx →
  SeriesResponse_Unmarshal (default [] (fd !! indexKey reqSig j)) = None →
  decode_all fd reqSig idx = None.
Proof.
  induction idx as [|j0 idx IH]; intros Hj Hu; [by apply elem_of_nil in Hj|].
  simpl. apply elem_of_cons in Hj as [->|Hj]; [by rewrite Hu|].
  rewrite IH by done.
  by destruct (SeriesResponse_Unmarshal (default [] (fd !! indexKey reqSig j0))).
Qed.

Lemma getResponses_unfold reqSig w :
  getResponses reqSig w =
    let ev1 := [EvFetch [numKeysKey reqSig]] in
    match cache w !! numKeysKey reqSig with
    | None => Returns (inr (err_other "not found num key"), fetched ev1 w)
    | Some b =>
        match fmt.Sscanf_d (string_of_bytes b) with
        | None =>
            Returns (inr (err_other ("parsing " +:+ string_of_bytes b)), fetched ev1 w)
        | Some numKeys =>
            if bool_decide (numKeys < 0) then Panics "makeslice: cap out of range"
            else
              let idx := seq 0 (Z.to_nat numKeys) in
              let fd := InMemoryCache_Fetch (cache w) (indexKey reqSig <$> idx) in
              let w2 := fetched (ev1 ++ [EvFetch (indexKey reqSig <$> idx)]) w in
              if bool_decide (Z.of_nat (size fd) ≠ numKeys)
              then Returns (inr (err_other "got wrong number of keys"), w2)
              else getResponses_decode fd reqSig idx [] w2
        end
    end.
Proof.
  unfold getResponses. munfold. cbn beta iota zeta. rewrite Fetch_lookup.
  rewrite decide_True by set_solver.
  destruct (cache w !! numKeysKey reqSig) as [b|]; [|done].
  destruct (fmt.Sscanf_d _) as [numKeys|]; [|done].
  destruct (bool_decide (numKeys < 0)); [done|]. simpl.
  unfold fetched. simpl. rewrite <- !app_assoc. simpl.
  by destruct (bool_decide (Z.of_nat _ ≠ numKeys)).
Qed.

(** Whatever the lookup answers, it leaves the cache, the stream and the
    counter alone, writes no object that existed before, and makes
    [Fetch] calls only. *)
Lemma getResponses_frame reqSig w (r : list loc + error) w' :
  getResponses reqSig w = Returns (r, w') →
  cache w' = cache w ∧ stream w' = stream w ∧ cachedCalls w' = cachedCalls w ∧
  ∃ keys, events w' = events w ++ [EvFetch [numKeysKey reqSig]] ++ (EvFetch <$> keys).
Proof.
  rewrite getResponses_unfold. cbn zeta.
  destruct (cache w !! numKeysKey reqSig) as [b|].
  2:{ intros [= <- <-]. repeat split; try done. by exists []. }
  destruct (fmt.Sscanf_d _) as [numKeys|].
  2:{ intros [= <- <-]. repeat split; try done. by exists []. }
  destruct (bool_decide (numKeys < 0)); [done|].
  destruct (bool_decide (Z.of_nat _ ≠ numKeys)).
  { intros [= <- <-]. repeat split; try done. by eexists [_]. }
  destruct (decode_all (InMemoryCache_Fetch (cache w)
              (indexKey reqSig <$> seq 0 (Z.to_nat numKeys))) reqSig
              (seq 0 (Z.to_nat numKeys))) as [vs|] eqn:Hd.
  - rewrite (decode_ok _ _ _ _ _ _ Hd). intros [= <- <-].
    repeat split; try done. by eexists [_].
  - destruct (decode_fail _ _ _ [] (fetched ([EvFetch [numKeysKey reqSig]] ++
        [EvFetch (indexKey reqSig <$> seq 0 (Z.to_nat numKeys))]) w) Hd)
      as (w'' & -> & Hc & Hs & Hn & He).
    intros [= <- <-]. rewrite Hc, Hs, Hn, He. repeat split; try done.
    by eexists [_].
Qed.

End getResponses_facts.

Section round_trip_facts.
Import grpccache.
Context {PB : Storepb} {XX : XXHash} {S : Type} {CSt : ClientStream S}.
Implicit Types (i : seriesInterceptor) (m : any) (w : World S).
Implicit Types (h : loc → SeriesResponse) (fd c : gmap string bytes).
Implicit Types (reqSig : string) (idx : list nat).

Lemma string_of_bytes_of_string (s : string) : string_of_bytes (bytes_of_string s) = s.
Proof. apply string_of_list_byte_of_string. Qed.

Lemma SendMsg_request i (req : SeriesRequest) w :
  let reqSig := hashReqTarget req (target i) in
  let m := PtrSeriesRequest req in
  let sent (w0 : World S) (calls : nat) :=
    mkWorld (heap w0) (next w0) (cache w0) (stream_SendMsg (stream w0) m).1 calls
            (events w0 ++ [EvSendMsg m]) in
  SendMsg i m w =
    match getResponses reqSig w with
    | Panics msg => Panics msg
    | Returns (inl rs, w0) =>
        Returns ((mkInterceptor (target i) reqSig rs true,
                  (stream_SendMsg (stream w0) m).2),
                 sent w0 (Datatypes.S (cachedCalls w0)))
    | Returns (inr _, w0) =>
        Returns ((mkInterceptor (target i) reqSig (responses i)
                                (cachedResponsesAvailable i),
                  (stream_SendMsg (stream w0) m).2),
                 sent w0 (cachedCalls w0))
    end.
Proof.
  intros reqSig m sent. unfold SendMsg. simpl. fold reqSig.
  unfold mbind, M_bind.
  destruct (getResponses reqSig w) as [[[rs|e] w0]|]; [| |done].
  - munfold. subst sent m. simpl. by destruct (stream_SendMsg (stream w0) _).
  - munfold. subst sent m. simpl. by destruct (stream_SendMsg (stream w0) _).
Qed.

(** When [n] distinct keys are asked for and [n] entries come back, every
    key was found. *)
Lemma Fetch_full c (f : nat → string) (n : nat) :
  Inj (=) (=) f →
  size (InMemoryCache_Fetch c (f <$> seq 0 n)) = n →
  ∀ j, (j < n)%nat → is_Some (c !! f j).
Proof.
  intros Hf Hsz j Hj. set (keys := f <$> seq 0 n) in *.
  set (fd := InMemoryCache_Fetch c keys) in *.
  assert (Hsub : dom fd ⊆ (list_to_set keys : gset string)).
  { intros k [v Hk]%elem_of_dom. unfold fd in Hk. rewrite Fetch_lookup in Hk.
    destruct (decide (k ∈ keys)); [|done]. by apply elem_of_list_to_set. }
  assert (Hnd : NoDup keys) by (apply NoDup_fmap_2, NoDup_seq; done).
  assert (Heq : dom fd ≡ list_to_set keys).
  { apply set_subseteq_size_equiv; [done|].
    rewrite size_dom, Hsz, size_list_to_set by done.
    unfold keys. by rewrite length_fmap, length_seq. }
  assert (Hin : f j ∈ dom fd).
  { apply Heq, elem_of_list_to_set, list_elem_of_fmap. exists j. split; [done|].
    apply elem_of_seq. lia. }
  apply elem_of_dom in Hin as [v Hv]. unfold fd in Hv. rewrite Fetch_lookup in Hv.
  destruct (decide (f j ∈ keys)); [by exists v|done].
Qed.

Lemma decode_all_Forall2 fd reqSig idx (vs : list SeriesResponse) :
  Forall2 (λ j v, SeriesResponse_Unmarshal (default [] (fd !! indexKey reqSig j)) = Some v)
          idx vs →
  decode_all fd reqSig idx = Some vs.
Proof. induction 1 as [|j v idx vs Hj _ IH]; simpl; [done|]. by rewrite Hj, IH. Qed.

(** The lookup on a cache that holds a recorded entry, or what is left of
    it: if it succeeds, it returns the recorded messages, in order, in
    new objects. *)
Lemma lookup_recorded (c0 : gmap string bytes) h reqSig (buf rs : list loc) w w' :
  (∀ r, SeriesResponse_Unmarshal (SeriesResponse_Marshal r) = Some r) →
  Z.of_nat (length buf) ≤ fmt.maxInt64 →
  cache w ⊆ InMemoryCache_Store c0 (putResponses_batch h reqSig buf) →
  getResponses reqSig w = Returns (inl rs, w') →
  rs = seq (next w) (length buf) ∧
  w' = allocated (h <$> buf)
         (fetched [EvFetch [numKeysKey reqSig];
                   EvFetch (indexKey reqSig <$> seq 0 (length buf))] w).
Proof.
  intros Hrt Hmax Hsub. rewrite getResponses_unfold. cbn zeta.
  set (batch := putResponses_batch h reqSig buf) in *.
  assert (Hin : ∀ k x y, cache w !! k = Some x → batch !! k = Some y → x = y).
  { intros k x y Hx Hy. eapply lookup_weaken in Hx; [|done].
    unfold InMemoryCache_Store in Hx.
    rewrite (lookup_union_Some_l _ _ _ _ Hy) in Hx. congruence. }
  destruct (cache w !! numKeysKey reqSig) as [b|] eqn:Hb; [|done].
  rewrite (Hin _ _ _ Hb (batch_numKeys h reqSig buf)).
  rewrite string_of_bytes_of_string, Sscanf_d_Sprintf_d.
  2:{ unfold fmt.minInt64. lia. }
  rewrite bool_decide_eq_false_2 by lia. rewrite Nat2Z.id.
  case_bool_decide as Hsz; [done|].
  assert (Hsize : size (InMemoryCache_Fetch (cache w)
                          (indexKey reqSig <$> seq 0 (length buf))) = length buf).
  { by apply Nat2Z.inj. }
  assert (Hd : decode_all (InMemoryCache_Fetch (cache w)
                 (indexKey reqSig <$> seq 0 (length buf))) reqSig
                 (seq 0 (length buf)) = Some (h <$> buf)).
  { apply decode_all_Forall2, Forall2_same_length_lookup_2.
    { by rewrite length_seq, length_fmap. }
    intros j k v Hk Hv. apply lookup_seq in Hk as [-> Hj]. simpl.
    apply list_lookup_fmap_Some in Hv as (r & -> & Hr).
    destruct (Fetch_full (cache w) (indexKey reqSig) (length buf)
                (indexKey_inj reqSig) Hsize j Hj) as [x Hx].
    rewrite Fetch_lookup, decide_True.
    2:{ apply list_elem_of_fmap. exists j. split; [done|]. apply elem_of_seq. lia. }
    rewrite Hx. simpl.
    by rewrite (Hin _ _ _ Hx (batch_index h reqSig buf j r Hr)). }
  rewrite (decode_ok _ _ _ _ _ _ Hd). intros [= <- <-].
  by rewrite length_fmap.
Qed.

End round_trip_facts.

Section interceptor_claims.
Import grpccache.
Context {PB : Storepb} {XX : XXHash} {S : Type} {CSt : ClientStream S}.
Implicit Types (i : seriesInterceptor) (m : any) (w : World S).
Implicit Types (h : loc → SeriesResponse) (fd c : gmap string bytes).
Implicit Types (reqSig : string) (idx : list nat).

Lemma stream_reads_app (s : S) (ms1 ms2 : list any) :
  stream_reads s (ms1 ++ ms2) =
    let '(rs1, s1) := stream_reads s ms1 in
    let '(rs2, s2) := stream_reads s1 ms2 in
    (rs1 ++ rs2, s2).
Proof.
  revert s. induction ms1 as [|m ms1 IH]; intros s; simpl.
  - by destruct (stream_reads s ms2).
  - destruct (stream_RecvMsg s m) as [s' r]. rewrite IH.
    destruct (stream_reads s' ms1) as [rs1 s1].
    by destruct (stream_reads s1 ms2) as [rs2 s2].
Qed.

Lemma stream_reads_length (s : S) (ms : list any) :
  length (stream_reads s ms).1 = length ms.
Proof.
  revert s. induction ms as [|m ms IH]; intros s; simpl; [done|].
  destruct (stream_RecvMsg s m) as [s' r]. specialize (IH s').
  destruct (stream_reads s' ms). simpl in *. by rewrite IH.
Qed.

(** Reads on the recording path show the caller what the stream itself
    would have shown. *)
Lemma run_record_observations i (ms : list any) w wu :
  cachedResponsesAvailable i = false →
  heap w = heap wu → stream w = stream wu →
  ∃ i' obs w' wu',
    run_interceptor i (OpRecvMsg <$> ms) w = Returns ((i', obs), w') ∧
    run_stream (OpRecvMsg <$> ms) wu = Returns (obs, wu') ∧
    cachedResponsesAvailable i' = false ∧
    heap w' = heap wu' ∧ stream w' = stream wu'.
Proof.
  revert i w wu. induction ms as [|m ms IH]; intros i w wu Hc Hh Hs.
  { by eexists _, _, _, _. }
  rewrite !fmap_cons. cbn [run_interceptor run_stream].
  unfold mbind, M_bind.
  assert (∃ i1 err w1 wu1,
    RecvMsg i m w = Returns ((i1, err), w1) ∧
    ClientStream_RecvMsg m wu = Returns (err, wu1) ∧
    cachedResponsesAvailable i1 = false ∧
    heap w1 = heap wu1 ∧ stream w1 = stream wu1) as
    (i1 & err & w1 & wu1 & -> & -> & Hc1 & Hh1 & Hs1).
  { destruct (decide (hashedReq i = "")) as [He|He].
    - rewrite RecvMsg_no_fingerprint by done. munfold. rewrite Hs, Hh.
      destruct (stream_RecvMsg (stream wu) m) as [s' [v|e]]; simpl;
        by eexists _, _, _, _.
    - rewrite RecvMsg_record by done. munfold. rewrite Hs, Hh.
      destruct (stream_RecvMsg (stream wu) m) as [s' [v|e]]; simpl.
      + destruct m; by eexists _, _, _, _.
      + destruct (bool_decide (e = io_EOF) && _); by eexists _, _, _, _. }
  destruct (IH i1 w1 wu1 Hc1 Hh1 Hs1) as (i' & obs & w' & wu' & Hr & Hu & ? & ? & ?).
  munfold. cbn beta iota zeta. rewrite Hr, Hu, Hh1. by eexists _, _, _, _.
Qed.


(** C8. While a non-empty buffer is replayed, a destination that is not a
    [*storepb.SeriesResponse] makes [RecvMsg] panic, nothing being
    delivered; a destination of that type receives the first buffered
    message and the call returns without panic. *)
Theorem C8_replay_type_contract i m w (r0 : loc) (rest : list loc) :
  hashedReq i ≠ "" → cachedResponsesAvailable i = true →
  responses i = r0 :: rest →
  match m with
  | PtrSeriesResponse resp =>
      RecvMsg i m w =
        Returns ((set_responses i rest, None),
                 mkWorld (<[resp := heap w r0]> (heap w)) (next w) (cache w)
                         (stream w) (cachedCalls w) (events w))
  | _ => RecvMsg i m w = Panics "should be a series response type"
  end.
Proof.
  intros Hh Hc Hr. rewrite RecvMsg_replay by done. rewrite Hr. by destruct m.
Qed.

(** C6. While recording, a read stores the chunked entry exactly when the
    transport answers [io.EOF] and the buffer is not empty, and it is the
    whole buffer that is stored; on every transport error the error is
    returned as it is, and on an error other than that nothing is stored. *)
Theorem C6_persist_on_clean_EOF i m w :
  hashedReq i ≠ "" → cachedResponsesAvailable i = false →
  let r := (stream_RecvMsg (stream w) m).2 in
  let batch := putResponses_batch (heap w) (hashedReq i) (responses i) in
  ∃ i' err w',
    RecvMsg i m w = Returns ((i', err), w') ∧
    (r = RecvErr io_EOF ∧ responses i ≠ [] →
       events w' = events w ++ [EvRecvMsg m; EvStore batch ttl_5min] ∧
       cache w' = InMemoryCache_Store (cache w) batch) ∧
    (¬ (r = RecvErr io_EOF ∧ responses i ≠ []) →
       events w' = events w ++ [EvRecvMsg m] ∧ cache w' = cache w) ∧
    (∀ e, r = RecvErr e → err = Some e ∧ i' = i).
Proof.
  intros Hh Hc r batch. rewrite RecvMsg_record by done. subst r.
  destruct (stream_RecvMsg (stream w) m) as [s' [v|e]]; cbn [snd].
  - destruct m; eexists _, _, _; (split; [done|]);
      (split; [by intros [? _]|]); (split; [done|]); by intros e.
  - destruct (decide (e = io_EOF ∧ responses i ≠ [])) as [[-> Hne]|Hno].
    + rewrite bool_decide_eq_true_2 by done.
      rewrite bool_decide_eq_true_2 by (destruct (responses i); [done|simpl; lia]).
      eexists _, _, _. split; [done|]. split.
      { intros _. cbn. by rewrite <- app_assoc. }
      split; [by intros []|]. by intros e [= <-].
    + replace (bool_decide (e = io_EOF) && bool_decide (0 < length (responses i))%nat)
        with false.
      2:{ symmetry. apply andb_false_iff.
          destruct (decide (e = io_EOF)) as [->|]; [right|left].
          - apply bool_decide_eq_false_2. intros Hl. apply Hno. split; [done|].
            intros Hr. rewrite Hr in Hl. simpl in Hl. lia.
          - by apply bool_decide_eq_false_2. }
      eexists _, _, _. split; [done|].
      split; [intros [[= ->] ?]; by destruct Hno|].
      split; [done|]. by intros e' [= <-].
Qed.

(** C10. When the message sent on the call is not a
    [*storepb.SeriesRequest], the fingerprint stays empty and every read
    that follows goes to the wrapped stream: the call gives the results
    of the same call on that stream and leaves the same objects and the
    same stream; the cache is neither read nor written, nothing is
    buffered, the counter stays. *)
Theorem C10_transparent_proxy (tgt : string) m (ms : list any) w :
  (∀ r, m ≠ PtrSeriesRequest r) →
  let i0 := mkInterceptor tgt "" [] false in
  let ops := OpSendMsg m :: (OpRecvMsg <$> ms) in
  ∃ obs w',
    run_stream ops w = Returns (obs, w') ∧
    run_interceptor i0 ops w = Returns ((i0, obs), w') ∧
    cache w' = cache w ∧ cachedCalls w' = cachedCalls w ∧
    events w' = events w ++ (op_event <$> ops).
Proof.
  intros Hm i0 ops.
  destruct (run_stream_total ops w) as (obs & w' & Hs & Hc & Hn & He).
  exists obs, w'. rewrite run_no_fingerprint, Hs; [done|done|].
  constructor.
  - intros [r [= ->]]. by apply (Hm r).
  - apply Forall_fmap, Forall_forall. by intros d _ [r Hr].
Qed.

Lemma lookup_fails reqSig w (numKeysBytes : bytes) :
  let keys (n : Z) := indexKey reqSig <$> seq 0 (Z.to_nat n) in
  cache w !! numKeysKey reqSig = Some numKeysBytes →
  (fmt.Sscanf_d (string_of_bytes numKeysBytes) = None ∨
   ∃ n, fmt.Sscanf_d (string_of_bytes numKeysBytes) = Some n ∧
        (Z.of_nat (size (InMemoryCache_Fetch (cache w) (keys n))) < n ∨
         ∃ j, (j < Z.to_nat n)%nat ∧
              SeriesResponse_Unmarshal
                (default [] (InMemoryCache_Fetch (cache w) (keys n) !! indexKey reqSig j))
              = None)) →
  ∃ e w0, getResponses reqSig w = Returns (inr e, w0).
Proof.
  intros keys Hb Hcases. rewrite getResponses_unfold. cbn zeta. rewrite Hb.
  destruct Hcases as [->|(n & -> & Hcases)]; [by eexists _, _|].
  assert (Hn : 0 < n) by (destruct Hcases as [?|(j & ? & _)]; lia).
  rewrite bool_decide_eq_false_2 by lia.
  case_bool_decide as Hsz; [by eexists _, _|].
  destruct Hcases as [Hlt|(j & Hj & Hu)]; [unfold keys in Hlt; lia|].
  match goal with |- context [getResponses_decode ?fd _ ?idx ?ret ?w0] =>
    destruct (decode_fail fd reqSig idx ret w0) as (w1 & -> & _) end;
    [|by eexists _, _].
  apply (decode_all_None _ _ _ j); [|done]. apply elem_of_seq. lia.
Qed.

(** C5. When the count key is found but the count does not scan, or fewer
    than the declared number of indexed entries come back, or one of them
    does not deserialize, [SendMsg] leaves the call on the recording
    path with an empty buffer, returns what the stream's [SendMsg]
    returns, counts no cached call and writes nothing to the cache; the
    reads that follow show the caller what the wrapped stream shows. *)
Theorem C5_partial_entry_immunity w (req : SeriesRequest) (tgt : string)
    (numKeysBytes : bytes) :
  let reqSig := hashReqTarget req tgt in
  let m := PtrSeriesRequest req in
  let keys (n : Z) := indexKey reqSig <$> seq 0 (Z.to_nat n) in
  cache w !! numKeysKey reqSig = Some numKeysBytes →
  (fmt.Sscanf_d (string_of_bytes numKeysBytes) = None ∨
   ∃ n, fmt.Sscanf_d (string_of_bytes numKeysBytes) = Some n ∧
        (Z.of_nat (size (InMemoryCache_Fetch (cache w) (keys n))) < n ∨
         ∃ j, (j < Z.to_nat n)%nat ∧
              SeriesResponse_Unmarshal
                (default [] (InMemoryCache_Fetch (cache w) (keys n) !! indexKey reqSig j))
              = None)) →
  ∃ w1,
    SendMsg (mkInterceptor tgt "" [] false) m w
    = Returns ((mkInterceptor tgt reqSig [] false, (stream_SendMsg (stream w) m).2), w1) ∧
    cache w1 = cache w ∧ cachedCalls w1 = cachedCalls w ∧
    (∃ fetches, events w1 = events w ++ (EvFetch <$> fetches) ++ [EvSendMsg m]) ∧
    ∀ ms : list any, ∃ i' obs w' wu',
      run_interceptor (mkInterceptor tgt reqSig [] false) (OpRecvMsg <$> ms) w1
      = Returns ((i', obs), w') ∧
      run_stream (OpRecvMsg <$> ms) w1 = Returns (obs, wu').
Proof.
  intros reqSig m keys Hb Hcases.
  destruct (lookup_fails reqSig w numKeysBytes Hb Hcases) as (e & w0 & Hg).
  destruct (getResponses_frame _ _ _ _ Hg) as (Hc & Hs & Hn & ks & He).
  pose proof (SendMsg_request (mkInterceptor tgt "" [] false) req w) as Hsend.
  cbn zeta in Hsend. cbn [target responses cachedResponsesAvailable] in Hsend.
  fold reqSig m in Hsend. rewrite Hg in Hsend. rewrite Hs in Hsend.
  eexists. split; [exact Hsend|]. cbn. split; [done|]. split; [done|].
  split.
  { exists ([numKeysKey reqSig] :: ks). rewrite He, <- !app_assoc. done. }
  intros ms.
  edestruct (run_record_observations (mkInterceptor tgt reqSig [] false) ms)
    as (i' & obs & w' & wu' & Hr & Hu & _); [done|reflexivity|reflexivity|].
  by eexists _, _, _, _.
Qed.


(** What [SendMsg] of a request leaves behind when the lookup did not
    succeed. *)
Lemma SendMsg_miss (tgt : string) (req : SeriesRequest) w i1 (e1 : option error) w1 :
  SendMsg (mkInterceptor tgt "" [] false) (PtrSeriesRequest req) w
  = Returns ((i1, e1), w1) →
  cachedResponsesAvailable i1 = false →
  i1 = mkInterceptor tgt (hashReqTarget req tgt) [] false ∧
  cachedCalls w1 = cachedCalls w.
Proof.
  rewrite SendMsg_request. cbn zeta. cbn [target responses cachedResponsesAvailable].
  destruct (getResponses _ w) as [[[rs|e] w0]|] eqn:Hg; [| |done].
  - by intros [= <- _ _].
  - intros [= <- _ <-] _. split; [done|]. cbn.
    by destruct (getResponses_frame _ _ _ _ Hg) as (_ & _ & -> & _).
Qed.

(** C7. A call on the recording path that reads [n] messages through the
    destinations [ds] and then end-of-stream writes, when [n > 0], one
    batch: the key [F-num] with the decimal digits of [n], and the keys
    [F-i] for [i < n] with the serialized content of the [i]-th buffered
    object, nothing else; with a destination of its own for each read the
    [i]-th object holds the [i]-th message that arrived. The counter of
    fully cached calls is where it was before the call. *)
Theorem C7_chunked_entry_encoding (tgt : string) (req : SeriesRequest) w i1
    (e1 : option error) w1 (ds : list loc) (vs : list SeriesResponse) m :
  let reqSig := hashReqTarget req tgt in
  SendMsg (mkInterceptor tgt "" [] false) (PtrSeriesRequest req) w
  = Returns ((i1, e1), w1) →
  cachedResponsesAvailable i1 = false →
  (stream_reads (stream w1) ((PtrSeriesResponse <$> ds) ++ [m])).1
  = (RecvOK <$> vs) ++ [RecvErr io_EOF] →
  ∃ i2 obs w2 batch,
    run_interceptor i1 ((OpRecvMsg <$> (PtrSeriesResponse <$> ds)) ++ [OpRecvMsg m]) w1
    = Returns ((i2, obs), w2) ∧
    events w2 = events w1 ++ (EvRecvMsg <$> (PtrSeriesResponse <$> ds)) ++
                [EvRecvMsg m] ++
                match ds with [] => [] | _ => [EvStore batch ttl_5min] end ∧
    (∀ k v, batch !! k = Some v ↔
       (k = numKeysKey reqSig ∧
        v = bytes_of_string (fmt.Sprintf_d (Z.of_nat (length ds)))) ∨
       (∃ (j : nat) d, ds !! j = Some d ∧ k = indexKey reqSig j ∧
                       v = SeriesResponse_Marshal (heap w2 d))) ∧
    (NoDup ds → ∀ (j : nat) d v, ds !! j = Some d → vs !! j = Some v → heap w2 d = v) ∧
    cachedCalls w2 = cachedCalls w.
Proof.
  intros reqSig Hsend Hflag Hreads.
  destruct (SendMsg_miss _ _ _ _ _ _ Hsend Hflag) as [-> Hcalls].
  fold reqSig. set (i1 := mkInterceptor tgt reqSig [] false).
  rewrite stream_reads_app in Hreads.
  pose proof (stream_reads_length (stream w1) (PtrSeriesResponse <$> ds)) as Hlen1.
  destruct (stream_reads (stream w1) (PtrSeriesResponse <$> ds)) as [rs1 s1] eqn:Hrs1.
  cbn [stream_reads] in Hreads.
  destruct (stream_RecvMsg s1 m) as [s2 r2] eqn:Hr2. cbn in Hreads, Hlen1.
  rewrite length_fmap in Hlen1.
  assert (Hlen : length rs1 = length (RecvOK <$> vs)).
  { apply (f_equal length) in Hreads. rewrite !length_app in Hreads.
    simpl in Hreads. lia. }
  apply app_inj_1 in Hreads as [-> [= ->]]; [|done].
  assert (Hnone : hashedReq i1 ≠ "") by apply hashReqTarget_nonempty.
  rewrite run_interceptor_app.
  rewrite (run_record i1 ds vs w1) by (by rewrite ?Hrs1).
  rewrite Hrs1. cbn [snd run_interceptor responses app].
  unfold mbind, M_bind. rewrite RecvMsg_record by done.
  cbn [stream heap next cache cachedCalls events]. rewrite Hr2.
  cbn [hashedReq responses set_responses].
  set (h2 := write_all (heap w1) ds vs).
  set (batch := putResponses_batch h2 reqSig ds).
  assert (Hbatch : ∀ k v, batch !! k = Some v ↔
       (k = numKeysKey reqSig ∧
        v = bytes_of_string (fmt.Sprintf_d (Z.of_nat (length ds)))) ∨
       (∃ (j : nat) d, ds !! j = Some d ∧ k = indexKey reqSig j ∧
                       v = SeriesResponse_Marshal (h2 d))).
  { intros k v. apply batch_exactly. }
  assert (Hnd : NoDup ds → ∀ (j : nat) d v,
            ds !! j = Some d → vs !! j = Some v → h2 d = v).
  { intros ? j d v ??. by eapply write_all_lookup. }
  rewrite bool_decide_eq_true_2 by done. cbn [andb].
  destruct ds as [|d0 ds'].
  - rewrite bool_decide_eq_false_2 by (simpl; lia). munfold. cbn.
    eexists _, _, _, batch. split; [done|]. cbn. rewrite app_nil_r.
    split; [done|]. by split.
  - rewrite bool_decide_eq_true_2 by (simpl; lia). munfold. cbn zeta.
    eexists _, _, _, batch. split; [done|]. cbn [events heap cachedCalls].
    split; [by rewrite <- !app_assoc|]. by split.
Qed.

(** C1. Let the messages in the objects [buf] (their number an [int])
    be recorded under [reqSig] by [putResponses], and let a later call, whose request hashes to
    [reqSig], find in the cache no more than that store left there. If
    its lookup succeeds, the next [n] reads deliver the recorded
    messages, in order, and the read after them returns [io.EOF]; the
    stream is not read: no event is added and its state stays. The
    destinations are the caller's objects, none of them a buffered one. *)
Theorem C1_round_trip
    (wr wr' w w1 : World S) (reqSig tgt : string) (buf : list loc)
    (req : SeriesRequest) i1 (e1 : option error) (ds : list loc) m :
  (∀ r, SeriesResponse_Unmarshal (SeriesResponse_Marshal r) = Some r) →
  Z.of_nat (length buf) ≤ fmt.maxInt64 →
  putResponses reqSig buf wr = Returns (tt, wr') →
  cache w ⊆ cache wr' →
  hashReqTarget req tgt = reqSig →
  SendMsg (mkInterceptor tgt "" [] false) (PtrSeriesRequest req) w
  = Returns ((i1, e1), w1) →
  cachedResponsesAvailable i1 = true →
  length ds = length buf →
  (∀ d, d ∈ ds → d ∉ responses i1) →
  ∃ i2 w2 last,
    run_interceptor i1 ((OpRecvMsg <$> (PtrSeriesResponse <$> ds)) ++ [OpRecvMsg m]) w1
    = Returns ((i2, ((λ r, (None, Some (heap wr r))) <$> buf) ++ [(Some io_EOF, last)]),
               w2) ∧
    events w2 = events w1 ∧ stream w2 = stream w1.
Proof.
  intros Hcodec Hmax Hput Hsub Hsig Hsend Hflag Hlen Hdisj.
  unfold putResponses in Hput. munfold. injection Hput as <-. cbn in Hsub.
  rewrite SendMsg_request in Hsend. cbn zeta in Hsend. cbn [target] in Hsend.
  rewrite Hsig in Hsend.
  destruct (getResponses reqSig w) as [[[rs|e] w0]|] eqn:Hg; [| |done].
  2:{ injection Hsend as <- _ _. done. }
  destruct (lookup_recorded _ _ _ _ _ _ _ Hcodec Hmax Hsub Hg) as [-> ->].
  injection Hsend as <- _ <-.
  cbn [responses] in Hdisj.
  rewrite run_replay; cbn [hashedReq cachedResponsesAvailable responses];
    [|by rewrite <- Hsig; apply hashReqTarget_nonempty|done
     |by rewrite length_seq|done].
  cbn [heap allocated fetched next].
  assert (Hobs :
    (λ r, (@None error,
           Some (write_all (heap w) (seq (next w) (length (heap wr <$> buf)))
                   (heap wr <$> buf) r))) <$> seq (next w) (length buf)
    = (λ r, (None, Some (heap wr r))) <$> buf).
  { rewrite <- (length_fmap (heap wr) buf).
    set (vs := heap wr <$> buf).
    transitivity ((λ v, (@None error, Some v)) <$> vs);
      [|unfold vs; by rewrite <- list_fmap_compose].
    apply list_eq. intros j. rewrite !list_lookup_fmap.
    destruct (vs !! j) as [v|] eqn:Hv.
    - assert (Hj : (j < length vs)%nat) by (by eapply lookup_lt_Some).
      rewrite lookup_seq_lt by done. cbn. do 3 f_equal.
      eapply write_all_lookup; [apply NoDup_seq| |done]. by apply lookup_seq_lt.
    - apply lookup_ge_None in Hv. by rewrite lookup_seq_ge. }
  rewrite Hobs. by eexists _, _, _.
Qed.

End interceptor_claims.

(** ** Installing the interceptor *)

Section install_claims.
Import grpccache.
Context {PB : Storepb} {XX : XXHash} {S : Type} {CSt : ClientStream S}.

(** C4 (amended). With a maximum size of zero the constructor still
    builds the in-memory cache, with both limits zero, and keeps it; the
    function returned by [GetInterceptor] then returns the stream and the
    error of the wrapped streamer as they are, for every method, so that
    a call is the call on that stream, without fingerprint or lookup. *)
Theorem C4_pass_through_mode {IMC CS : Type}
    (newCache : string → InMemoryCacheConfig → IMC + error)
    (maxItemSize : N) (c : SeriesRequestCachingInterceptor IMC) :
  NewSeriesRequestcachingInterceptor newCache 0 maxItemSize = inl c →
  (∀ (tgt method : string) (cs : CS) (err : option error),
     GetInterceptor c tgt method (cs, err) = (Underlying cs, err)) ∧
  (∀ (tgt method : string) (cs : CS) (err : option error) (ops : list op)
     (w : World S),
     run_clientStream (GetInterceptor c tgt method (cs, err)).1 ops w
     = run_stream ops w) ∧
  (∃ imc, newCache "cachinginterceptor" (mkConfig 0 0) = inl imc ∧
          inmemoryCache c = Some imc).
Proof.
  intros Hnew.
  assert (passthrough c = true ∧
            ∃ imc, newCache "cachinginterceptor" (mkConfig 0 0) = inl imc ∧
                   inmemoryCache c = Some imc) as [Hpass Himc].
  { unfold NewSeriesRequestcachingInterceptor in Hnew. cbn in Hnew.
    destruct (newCache _ _) as [imc|e]; [|done]. injection Hnew as Hnew.
    subst c.
    split; [done|]. by exists imc. }
  assert (Hget : ∀ (tgt method : string) (cs : CS) (err : option error),
     GetInterceptor c tgt method (cs, err) = (Underlying cs, err)).
  { intros tgt method cs [e|]; unfold GetInterceptor; [done|]. by rewrite Hpass. }
  split; [done|]. split; [|done].
  intros tgt method cs err ops w. by rewrite Hget.
Qed.

End install_claims.

(** C4, as stated, fails: with a maximum size of zero the constructor
    returns an interceptor that holds a cache it has constructed. *)
Lemma C4_backend_is_constructed :
  grpccache.NewSeriesRequestcachingInterceptor
    grpccache.NewInMemoryCacheWithConfig 0 1024
  = inl (grpccache.mkCaching
           (Some (grpccache.mkInMemoryCache "cachinginterceptor"
                    (grpccache.mkConfig 0 0) ∅))
           true) ∧
  ¬ (∀ c, grpccache.NewSeriesRequestcachingInterceptor
            grpccache.NewInMemoryCacheWithConfig 0 1024 = inl c →
          grpccache.inmemoryCache c = None).
Proof.
  split; [reflexivity|]. intros Hnone.
  by specialize (Hnone _ eq_refl).
Qed.

Lemma C4_witness :
  grpccache.GetInterceptor (CS := nat)
    (grpccache.mkCaching
       (Some (grpccache.mkInMemoryCache "cachinginterceptor"
                (grpccache.mkConfig 0 0) ∅)) true)
    "store:10901" "/thanos.Store/Series" (7%nat, None)
  = (grpccache.Underlying 7%nat, None).
Proof.
  apply (C4_pass_through_mode (PB := instance.storepb)
           (XX := instance.xxhash) (CSt := instance.script)
           grpccache.NewInMemoryCacheWithConfig 1024 _ eq_refl).
Defined.

(** ** The interceptor on the small instance *)

Section interceptor_witnesses.
Import grpccache.
Local Existing Instances instance.storepb instance.xxhash instance.script.

Import instance.

Lemma C8_witness :
  RecvMsg (mkInterceptor tgt F [0%nat] true) (OtherValue 7) (instance.world [])
  = Panics "should be a series response type".
Proof.
  apply (C8_replay_type_contract (mkInterceptor tgt F [0%nat] true)
           (OtherValue 7) (instance.world []) 0%nat []);
    [discriminate | reflexivity | reflexivity].
Defined.

Lemma C6_witness :
  ∃ w', RecvMsg (mkInterceptor tgt F [0%nat] false) (PtrSeriesResponse 1)
          (instance.world [])
        = Returns ((mkInterceptor tgt F [0%nat] false, Some io_EOF), w') ∧
        events w' = [EvRecvMsg (PtrSeriesResponse 1);
                     EvStore (putResponses_batch (λ _, instance.msg "") F [0%nat]) ttl_5min].
Proof.
  destruct (C6_persist_on_clean_EOF (mkInterceptor tgt F [0%nat] false)
              (PtrSeriesResponse 1) (instance.world []))
    as (i' & err & w' & Heq & Hstore & _ & Herr);
    [discriminate | reflexivity |].
  destruct (Herr io_EOF eq_refl) as [-> ->].
  exists w'. split; [exact Heq|]. apply Hstore. split; [reflexivity|discriminate].
Defined.

Lemma C10_witness :
  ∃ obs w',
    run_stream [OpSendMsg (OtherValue 3); OpRecvMsg (PtrSeriesResponse 0)]
      (instance.world [RecvOK (instance.msg "a")]) = Returns (obs, w') ∧
    run_interceptor (mkInterceptor tgt "" [] false)
      [OpSendMsg (OtherValue 3); OpRecvMsg (PtrSeriesResponse 0)]
      (instance.world [RecvOK (instance.msg "a")])
    = Returns ((mkInterceptor tgt "" [] false, obs), w') ∧
    cache w' = ∅ ∧ cachedCalls w' = 0%nat ∧
    events w' = [EvSendMsg (OtherValue 3); EvRecvMsg (PtrSeriesResponse 0)].
Proof.
  apply (C10_transparent_proxy tgt (OtherValue 3) [PtrSeriesResponse 0]
           (instance.world [RecvOK (instance.msg "a")])).
  intros r. discriminate.
Defined.

Lemma C5_witness :
  ∃ w1,
    SendMsg (mkInterceptor tgt "" [] false) (PtrSeriesRequest req)
      (mkWorld (λ _, msg "") 0%nat
         {[ numKeysKey F := bytes_of_string "2";
            indexKey F 0 := SeriesResponse_Marshal (msg "a") ]} [] 0%nat [])
    = Returns ((mkInterceptor tgt F [] false, None), w1) ∧
    cachedCalls w1 = 0%nat.
Proof.
  destruct (C5_partial_entry_immunity
              (mkWorld (λ _, msg "") 0%nat
                 {[ numKeysKey F := bytes_of_string "2";
                    indexKey F 0 := SeriesResponse_Marshal (msg "a") ]} [] 0%nat [])
              req tgt (bytes_of_string "2"))
    as (w1 & Hsend & _ & Hcalls & _).
  - reflexivity.
  - right. exists 2. split; [reflexivity|]. left. vm_compute. reflexivity.
  - exists w1. split; [exact Hsend | exact Hcalls].
Defined.

Lemma C7_witness :
  ∃ i2 obs w2 batch,
    SendMsg (mkInterceptor tgt "" [] false) (PtrSeriesRequest req)
      (instance.world [RecvOK (msg "a"); RecvOK (msg "b")])
    = Returns ((mkInterceptor tgt F [] false, None),
               world_after_miss [RecvOK (msg "a"); RecvOK (msg "b")]) ∧
    run_interceptor (mkInterceptor tgt F [] false)
      [OpRecvMsg (PtrSeriesResponse 0); OpRecvMsg (PtrSeriesResponse 1);
       OpRecvMsg (PtrSeriesResponse 2)]
      (world_after_miss [RecvOK (msg "a"); RecvOK (msg "b")])
    = Returns ((i2, obs), w2) ∧
    batch !! numKeysKey F = Some (bytes_of_string "2") ∧
    batch !! indexKey F 1 = Some (SeriesResponse_Marshal (msg "b")) ∧
    ∃ evs, events w2 = evs ++ [EvStore batch ttl_5min].
Proof.
  assert (Hnd2 : NoDup [0%nat; 1%nat]).
  { apply NoDup_cons_2; [|apply NoDup_singleton].
    intros Hin%list_elem_of_singleton. discriminate Hin. }
  destruct (C7_chunked_entry_encoding tgt req
              (instance.world [RecvOK (msg "a"); RecvOK (msg "b")])
              (mkInterceptor tgt F [] false) None
              (world_after_miss [RecvOK (msg "a"); RecvOK (msg "b")])
              [0%nat; 1%nat] [msg "a"; msg "b"] (PtrSeriesResponse 2))
    as (i2 & obs & w2 & batch & Hrun & Hev & Hbatch & Hnd & _);
    [reflexivity | reflexivity | reflexivity |].
  exists i2, obs, w2, batch. split; [reflexivity|]. split; [exact Hrun|].
  split; [apply Hbatch; left; split; reflexivity|].
  split.
  - apply Hbatch. right. exists 1%nat, 1%nat. split; [reflexivity|].
    split; [reflexivity|]. f_equal. symmetry.
    apply (Hnd Hnd2 1%nat); reflexivity.
  - eexists. rewrite Hev. rewrite !app_assoc. reflexivity.
Defined.

Lemma C1_witness :
  ∃ i2 w2 last,
    SendMsg (mkInterceptor tgt "" [] false) (PtrSeriesRequest req) world_later
    = Returns ((mkInterceptor tgt F [5%nat; 6%nat] true, None), world_after_hit) ∧
    run_interceptor (mkInterceptor tgt F [5%nat; 6%nat] true)
      [OpRecvMsg (PtrSeriesResponse 10); OpRecvMsg (PtrSeriesResponse 11);
       OpRecvMsg (PtrSeriesResponse 12)] world_after_hit
    = Returns ((i2, [(None, Some (msg "a")); (None, Some (msg "b"));
                     (Some io_EOF, last)]), w2) ∧
    events w2 = events world_after_hit.
Proof.
  assert (Hsend :
    SendMsg (mkInterceptor tgt "" [] false) (PtrSeriesRequest req) world_later
    = Returns ((mkInterceptor tgt F [5%nat; 6%nat] true, None), world_after_hit))
    by (vm_compute; reflexivity).
  destruct (C1_round_trip world_recording
              (mkWorld recorded 2%nat (InMemoryCache_Store ∅ entry) [] 0%nat
                 [EvStore entry ttl_5min])
              world_later world_after_hit F tgt [0%nat; 1%nat] req
              (mkInterceptor tgt F [5%nat; 6%nat] true) None
              [10%nat; 11%nat] (PtrSeriesResponse 12))
    as (i2 & w2 & last & Hrun & Hev & _).
  - intros r. apply (f_equal Some), string_of_list_byte_of_string.
  - vm_compute. discriminate.
  - reflexivity.
  - reflexivity.
  - reflexivity.
  - exact Hsend.
  - reflexivity.
  - reflexivity.
  - intros d Hd Hr. cbn in Hd, Hr.
    apply elem_of_cons in Hd as [->|Hd%list_elem_of_singleton];
      apply elem_of_cons in Hr as [Hr|Hr%list_elem_of_singleton]; subst;
      discriminate.
  - exists i2, w2, last. split; [exact Hsend|]. split; [exact Hrun | exact Hev].
Defined.

End interceptor_witnesses.

(** ** The tiered disk-fallback index cache *)

Section badger_claims.
Import storecache.
Context {ULID : Type} (cacheKey_string : ULID → Label → string).
Context {IC : Type} {ICI : IndexCache (ULID := ULID) IC}.
Implicit Types (lbls : list Label) (c : BadgerIndexCache IC) (blockID : ULID).

Lemma insert_Permutation {A} (l : list A) (i : nat) (x y : A) :
  l !! i = Some x → <[i := y]> l ≡ₚ y :: delete i l.
Proof.
  intros Hi. rewrite insert_take_drop by (by eapply lookup_lt_Some).
  rewrite delete_take_drop. symmetry. apply Permutation_middle.
Qed.

(** Overwriting position [i] with the last element and dropping the last
    position removes one occurrence, the one at [i]. *)
Lemma swap_remove_Permutation {A} (l : list A) (i : nat) (x lst : A) :
  l !! i = Some x → l !! (length l - 1)%nat = Some lst →
  l ≡ₚ x :: take (length l - 1) (<[i := lst]> l).
Proof.
  intros Hi Hlst.
  assert (Hlen : (i < length l)%nat) by (by eapply lookup_lt_Some).
  destruct (length l) as [|k] eqn:Hk; [lia|].
  replace (S k - 1)%nat with k in * by lia.
  assert (Hl : l = take k l ++ [lst]).
  { rewrite <- (take_S_r _ _ _ Hlst). symmetry. apply take_ge. lia. }
  destruct (decide (i = k)) as [->|Hne].
  - rewrite take_insert_ge by lia. assert (x = lst) as -> by congruence.
    rewrite Hl at 1. symmetry. apply Permutation_cons_append.
  - rewrite take_insert_lt by lia.
    assert (Hti : take k l !! i = Some x) by (rewrite lookup_take_lt by lia; done).
    rewrite (insert_Permutation _ _ _ lst Hti). rewrite Hl at 1.
    rewrite (delete_Permutation _ _ _ Hti) at 1.
    rewrite <- Permutation_cons_append. apply perm_swap.
Qed.

Lemma extractCore_found lbls :
  coreLabel ∈ lbls →
  ∃ lbls', extractCore lbls = (lbls', true) ∧ lbls ≡ₚ coreLabel :: lbls'.
Proof.
  intros Hin. unfold extractCore.
  destruct (list_find_elem_of (λ lbl, lbl = coreLabel) lbls coreLabel Hin eq_refl)
    as [[i x] Hfind].
  rewrite Hfind. apply list_find_Some in Hfind as (Hi & -> & _).
  assert (Hlen : (i < length lbls)%nat) by (by eapply lookup_lt_Some).
  destruct (lookup_lt_is_Some_2 lbls (length lbls - 1)) as [lst Hlst]; [lia|].
  rewrite Hlst. eexists. split; [done|].
  by apply swap_remove_Permutation.
Qed.

Lemma extractCore_not_found lbls :
  coreLabel ∉ lbls → extractCore lbls = (lbls, false).
Proof.
  intros Hnin. unfold extractCore.
  destruct (list_find _ lbls) as [[i x]|] eqn:Hfind; [|done].
  apply list_find_Some in Hfind as (Hi & -> & _).
  destruct Hnin. apply list_elem_of_lookup. by exists i.
Qed.

(** C2 (amended). For a list of distinct labels, a fallback that keeps
    the contract, and a disk read that is conclusive, the hits and misses
    of [FetchMultiPostings] are exactly the requested labels, no label is
    both a hit and a miss, and no label is missed twice. *)
Theorem C2_merge_completeness c blockID lbls :
  NoDup lbls →
  (∀ ls, NoDup ls →
     backend_result ls (default ∅ (ic_FetchMultiPostings (ic c) blockID ls).1)
                    (ic_FetchMultiPostings (ic c) blockID ls).2) →
  conclusive (db c) (bytes_of_string (cacheKey_string blockID coreLabel)) →
  backend_result lbls (FetchMultiPostings cacheKey_string c blockID lbls).1
                 (FetchMultiPostings cacheKey_string c blockID lbls).2.
Proof.
  intros Hnd Hic Hdisk. unfold FetchMultiPostings.
  destruct (decide (coreLabel ∈ lbls)) as [Hin|Hnin].
  - destruct (extractCore_found lbls Hin) as (lbls' & -> & Hperm).
    assert (Hnd' : NoDup (coreLabel :: lbls')) by (by rewrite <- Hperm).
    apply list.NoDup_cons in Hnd' as [Hcore Hnd'].
    specialize (Hic lbls' Hnd').
    destruct (ic_FetchMultiPostings (ic c) blockID lbls') as [hits misses].
    cbn [fst snd] in Hic. destruct Hic as (Hall & Hdisj & Hndm).
    assert (Hmem : ∀ l, l ∈ lbls ↔ l = coreLabel ∨ l ∈ lbls').
    { intros l. rewrite Hperm. apply elem_of_cons. }
    assert (Hcm : coreLabel ∉ misses).
    { intros Hm. apply Hcore, Hall. by right. }
    assert (Hch : default ∅ hits !! coreLabel = None).
    { apply eq_None_not_Some. intros Hs. apply Hcore, Hall. by left. }
    unfold conclusive, View_core in *.
    destruct (txn_Get (db c) _) as [item|err].
    + destruct Hdisk as [val ->]. cbn [fst snd]. rewrite app_nil_r.
      split; [|split; [|done]].
      * intros l. rewrite Hmem, Hall.
        destruct (decide (l = coreLabel)) as [->|Hne].
        -- rewrite lookup_union_l', lookup_singleton_eq by (by rewrite lookup_singleton_eq).
           split; [by left; eexists|by left].
        -- rewrite lookup_union_r by (by rewrite lookup_singleton_ne). tauto.
      * intros l. destruct (decide (l = coreLabel)) as [->|Hne]; [done|].
        rewrite lookup_union_r by (by rewrite lookup_singleton_ne). apply Hdisj.
    + subst err. unfold errors_Is. rewrite bool_decide_eq_true_2 by done.
      cbn [fst snd]. rewrite (left_id_L ∅ (∪)).
      split; [|split].
      * intros l. rewrite Hmem, Hall, elem_of_app, list_elem_of_singleton.
        tauto.
      * intros l Hl [Hm| ->%list_elem_of_singleton]%elem_of_app.
        -- by apply (Hdisj l).
        -- rewrite Hch in Hl. by destruct Hl.
      * apply list.NoDup_app. split; [done|]. split; [|apply NoDup_singleton].
        intros l Hm ->%list_elem_of_singleton. done.
  - rewrite (extractCore_not_found lbls Hnin).
    specialize (Hic lbls Hnd).
    destruct (ic_FetchMultiPostings (ic c) blockID lbls) as [hits misses].
    cbn [fst snd] in *. by rewrite app_nil_r, (left_id_L ∅ (∪)).
Qed.

(** C3 (amended). When the disk read of the routed label fails with an
    error other than key-not-found, the call returns what the fallback
    returns for the remaining labels (an empty map for a nil one): the
    routed label is added neither to the hits nor to the misses, and the
    error is not part of the result. *)
Theorem C3_disk_error_policy c blockID lbls (e : error) :
  coreLabel ∈ lbls →
  (View_core cacheKey_string (db c) blockID).2 = Some e →
  e ≠ badger_ErrKeyNotFound →
  let rest := (extractCore lbls).1 in
  let fallback := ic_FetchMultiPostings (ic c) blockID rest in
  lbls ≡ₚ coreLabel :: rest ∧
  FetchMultiPostings cacheKey_string c blockID lbls
  = (default ∅ fallback.1, fallback.2).
Proof.
  intros Hin Herr Hne rest fallback. subst rest fallback.
  unfold FetchMultiPostings.
  destruct (extractCore_found lbls Hin) as (lbls' & -> & Hperm). cbn [fst].
  split; [done|]. unfold View_core in *.
  destruct (ic_FetchMultiPostings (ic c) blockID lbls') as [hits misses].
  destruct (txn_Get (db c) _) as [item|err].
  - destruct (ValueCopy (db c) item) as [val|err]; [done|].
    cbn. by rewrite app_nil_r, (left_id_L ∅ (∪)).
  - injection Herr as ->. unfold errors_Is.
    rewrite bool_decide_eq_false_2 by done.
    cbn. by rewrite app_nil_r, (left_id_L ∅ (∪)).
Qed.

End badger_claims.

(** The two ways C2 fails as stated: a failing disk read loses the
    routed label, and a label list that names the routed label twice
    gets it back both as a hit and as a miss. *)
Lemma C2_label_lost_or_doubled :
  storecache.FetchMultiPostings (ICI := instance.empty_ic) instance.cacheKey_string
    (storecache.mkBadgerIndexCache (instance.db_failing "read error") tt) 7%nat
    [storecache.coreLabel] = (∅, []) ∧
  ¬ storecache.backend_result [storecache.coreLabel] ∅ [] ∧
  storecache.FetchMultiPostings (ICI := instance.empty_ic) instance.cacheKey_string
    (storecache.mkBadgerIndexCache (instance.db_holding [Byte.x01]) tt) 7%nat
    [storecache.coreLabel; storecache.coreLabel]
  = ({[storecache.coreLabel := [Byte.x01]]}, [storecache.coreLabel]) ∧
  ¬ storecache.backend_result [storecache.coreLabel; storecache.coreLabel]
      {[storecache.coreLabel := [Byte.x01]]} [storecache.coreLabel].
Proof.
  assert (He1 : storecache.extractCore [storecache.coreLabel] = ([], true))
    by (vm_compute; reflexivity).
  assert (He2 : storecache.extractCore [storecache.coreLabel; storecache.coreLabel]
                = ([storecache.coreLabel], true)) by (vm_compute; reflexivity).
  unfold storecache.FetchMultiPostings. rewrite He1, He2. cbn.
  rewrite !(right_id_L ∅ (∪)).
  split; [reflexivity|]. split.
  { intros (Hall & _). destruct (proj1 (Hall storecache.coreLabel)) as [[v Hv]|Hm].
    - apply list_elem_of_singleton. done.
    - by rewrite lookup_empty in Hv.
    - by apply elem_of_nil in Hm. }
  split; [reflexivity|].
  intros (_ & Hdisj & _). apply (Hdisj storecache.coreLabel).
  - eexists. apply lookup_insert_eq.
  - by apply list_elem_of_singleton.
Qed.

Lemma C2_witness :
  storecache.backend_result
    [storecache.mkLabel "job" "api"; storecache.coreLabel]
    (storecache.FetchMultiPostings (ICI := instance.empty_ic) instance.cacheKey_string
       (storecache.mkBadgerIndexCache instance.db_empty tt) 7%nat
       [storecache.mkLabel "job" "api"; storecache.coreLabel]).1
    (storecache.FetchMultiPostings (ICI := instance.empty_ic) instance.cacheKey_string
       (storecache.mkBadgerIndexCache instance.db_empty tt) 7%nat
       [storecache.mkLabel "job" "api"; storecache.coreLabel]).2.
Proof.
  apply (C2_merge_completeness (ICI := instance.empty_ic) instance.cacheKey_string
           (storecache.mkBadgerIndexCache instance.db_empty tt) 7%nat).
  - apply NoDup_cons_2; [|apply NoDup_singleton].
    intros Hin%list_elem_of_singleton. discriminate Hin.
  - intros ls Hls. cbn. split; [|split; [|exact Hls]].
    + intros l. split; [by right|]. intros [[v Hv]|Hl]; [|exact Hl].
      rewrite lookup_empty in Hv. discriminate Hv.
    + intros l [v Hv]. rewrite lookup_empty in Hv. discriminate Hv.
  - reflexivity.
Defined.

(** C3, as stated, fails: after a disk read error other than
    key-not-found the routed label is not among the misses. *)
Lemma C3_routed_label_not_missed :
  storecache.FetchMultiPostings (ICI := instance.empty_ic) instance.cacheKey_string
    (storecache.mkBadgerIndexCache (instance.db_failing "disk full") tt) 7%nat
    [storecache.mkLabel "job" "api"; storecache.coreLabel]
  = (∅, [storecache.mkLabel "job" "api"]) ∧
  storecache.coreLabel ∉ [storecache.mkLabel "job" "api"].
Proof.
  assert (He : storecache.extractCore
                 [storecache.mkLabel "job" "api"; storecache.coreLabel]
               = ([storecache.mkLabel "job" "api"], true))
    by (vm_compute; reflexivity).
  unfold storecache.FetchMultiPostings. rewrite He. cbn.
  rewrite (right_id_L ∅ (∪)).
  split; [reflexivity|]. intros Hin%list_elem_of_singleton. discriminate Hin.
Qed.

Lemma C3_witness :
  [storecache.mkLabel "job" "api"; storecache.coreLabel]
  ≡ₚ storecache.coreLabel :: [storecache.mkLabel "job" "api"] ∧
  storecache.FetchMultiPostings (ICI := instance.empty_ic) instance.cacheKey_string
    (storecache.mkBadgerIndexCache (instance.db_failing "disk full") tt) 7%nat
    [storecache.mkLabel "job" "api"; storecache.coreLabel]
  = (∅, [storecache.mkLabel "job" "api"]).
Proof.
  apply (C3_disk_error_policy (ICI := instance.empty_ic) instance.cacheKey_string
           (storecache.mkBadgerIndexCache (instance.db_failing "disk full") tt)
           7%nat [storecache.mkLabel "job" "api"; storecache.coreLabel]
           (err_other "disk full")).
  - apply list_elem_of_further, list_elem_of_here.
  - reflexivity.
  - discriminate.
Defined.

(** ** The remote cache-service backend *)

Section rueidis_claims.
Import cacheutil cache.
Context {Client Message : Type} {R : Rueidis Client Message}.
Implicit Types (keys : list string) (resps : list Message).
Implicit Types (results : gmap string bytes).

(** The loop of [GetMulti] returns when the reply is no longer than the
    key list; an entry of its result was there before or comes from a
    reply that converts to a string, under the key at the same index; it
    adds at most one entry for each reply. *)
Lemma GetMulti_loop_spec keys (i : nat) resps results :
  (i + length resps ≤ length keys)%nat →
  ∃ results',
    GetMulti_loop keys i resps results = Returns results' ∧
    (∀ k v, results' !! k = Some v →
       results !! k = Some v ∨
       ∃ (j : nat) resp val,
         keys !! (i + j)%nat = Some k ∧ resps !! j = Some resp ∧
         ToString resp = inl val ∧ v = stringToBytes val) ∧
    (size results' ≤ size results + length resps)%nat.
Proof.
  revert i results. induction resps as [|resp resps IH]; intros i results Hlen.
  { exists results. split; [done|]. split; [by left|]. simpl. lia. }
  simpl in *. destruct (ToString resp) as [val|err] eqn:Hval.
  - destruct (lookup_lt_is_Some_2 keys i) as [k Hk]; [lia|]. rewrite Hk.
    destruct (IH (S i) (<[k := stringToBytes val]> results)) as (r & -> & Hr & Hsz);
      [lia|].
    exists r. split; [done|]. split.
    + intros k' v Hv. destruct (Hr k' v Hv) as [Hin|(j & resp' & val' & Hj & ? & ? & ?)].
      * apply lookup_insert_Some in Hin as [[<- <-]|[_ Hin]]; [|by left].
        right. exists 0%nat, resp, val. by rewrite Nat.add_0_r.
      * right. exists (S j), resp', val'.
        by replace (i + S j)%nat with (S i + j)%nat by lia.
    + pose proof (map_size_insert k (stringToBytes val) results) as Hins.
      destruct (results !! k); simpl in Hins; lia.
  - destruct (IH (S i) results) as (r & -> & Hr & Hsz); [lia|].
    exists r. split; [done|]. split; [|lia].
    intros k' v Hv. destruct (Hr k' v Hv) as [Hin|(j & resp' & val' & Hj & ? & ? & ?)];
      [by left|].
    right. exists (S j), resp', val'.
    by replace (i + S j)%nat with (S i + j)%nat by lia.
Qed.

(** C9. When the reply to [MGET] is no longer than the key list, [Fetch]
    returns; every key of the returned map is a requested key whose reply
    converted to a string; the requests counter grows by the number of
    requested keys and the hits counter by the number of entries
    returned, which is not larger. *)
Theorem C9_fetch_contract (c : RueidisCache Client) keys :
  (length (DoCache_Mget (redisClient c) keys).2.1 ≤ length keys)%nat →
  ∃ c' results,
    Fetch c keys = Returns (c', results) ∧
    (∀ k v, results !! k = Some v →
       k ∈ keys ∧
       ∃ (j : nat) resp val,
         keys !! j = Some k ∧
         (DoCache_Mget (redisClient c) keys).2.1 !! j = Some resp ∧
         ToString resp = inl val ∧ v = stringToBytes val) ∧
    requests c' = requests c + Z.of_nat (length keys) ∧
    hits c' = hits c + Z.of_nat (size results) ∧
    hits c' - hits c ≤ requests c' - requests c.
Proof.
  intros Hlen. unfold Fetch, GetMulti.
  destruct keys as [|k0 keys'].
  { eexists _, _. split; [done|]. cbn [requests hits length].
    rewrite map_size_empty. split; [|lia].
    intros k v Hk. by rewrite lookup_empty in Hk. }
  set (keys := k0 :: keys') in *.
  destruct (DoCache_Mget (redisClient c) keys) as [c' [resps err]].
  cbn [fst snd] in Hlen.
  destruct (GetMulti_loop_spec keys 0 resps ∅) as (r & -> & Hr & Hsz); [exact Hlen|].
  eexists _, _. split; [done|]. cbn [requests hits fst snd].
  rewrite map_size_empty in Hsz. split; [|lia].
  intros k v Hk. destruct (Hr k v Hk) as [Hin|(j & resp & val & Hj & ? & ? & ?)].
  { by rewrite lookup_empty in Hin. }
  split; [apply list_elem_of_lookup; by exists j|]. by exists j, resp, val.
Qed.

End rueidis_claims.

Lemma C9_witness :
  ∃ c' results,
    cache.Fetch (R := instance.redis)
      (cache.mkRueidisCache ({["a" := "1"; "c" := "3"]} : gmap string string) 10 4)
      ["a"; "b"; "c"]
    = Returns (c', results) ∧
    cache.requests c' = 13 ∧ cache.hits c' = 4 + Z.of_nat (size results) ∧
    cache.hits c' - 4 ≤ 3.
Proof.
  destruct (C9_fetch_contract (R := instance.redis)
              (cache.mkRueidisCache ({["a" := "1"; "c" := "3"]} : gmap string string) 10 4)
              ["a"; "b"; "c"])
    as (c' & results & Heq & _ & Hreq & Hhits & Hle).
  - cbn. lia.
  - exists c', results. split; [exact Heq|]. split; [exact Hreq|].
    split; [exact Hhits|]. cbn in Hle, Hreq. lia.
Defined.
(** ** Further properties of the interceptor *)

(** *** Method names *)

Section method_names.
Import grpccache.

Lemma cut_slash_app (svc m : string) :
  "/"%char ∉ list_ascii_of_string svc →
  cut_slash (svc +:+ "/" +:+ m) = Some (svc, m).
Proof.
  induction svc as [|a svc IH]; intros Hns; simpl; [done|].
  simpl in Hns. apply not_elem_of_cons in Hns as [Ha Hns].
  destruct (Ascii.eqb_spec a "/") as [->|_]; [done|]. by rewrite IH.
Qed.

Lemma cut_slash_None (s : string) :
  "/"%char ∉ list_ascii_of_string s → cut_slash s = None.
Proof.
  induction s as [|a s IH]; intros Hns; simpl; [done|].
  simpl in Hns. apply not_elem_of_cons in Hns as [Ha Hns].
  destruct (Ascii.eqb_spec a "/") as [->|_]; [done|]. by rewrite IH.
Qed.

Lemma cut_slash_Some (t svc m : string) :
  cut_slash t = Some (svc, m) → t = svc +:+ "/" +:+ m.
Proof.
  revert svc. induction t as [|a t IH]; intros svc; simpl; [done|].
  destruct (Ascii.eqb_spec a "/") as [->|_]; [by intros [= <- <-]|].
  destruct (cut_slash t) as [[svc' m']|]; [|done].
  intros [= <- <-]. simpl. by rewrite (IH svc').
Qed.

Lemma TrimPrefix_slash_no_slash (s : string) :
  "/"%char ∉ list_ascii_of_string s → s ≠ "" →
  ∀ rest, TrimPrefix_slash (s +:+ rest) = s +:+ rest.
Proof.
  destruct s as [|a s]; [done|]. intros Hns _ rest. simpl in *.
  apply not_elem_of_cons in Hns as [Ha _].
  by destruct (Ascii.eqb_spec a "/") as [->|_].
Qed.

Lemma TrimPrefix_slash_slash (t : string) : TrimPrefix_slash ("/" +:+ t) = t.
Proof. reflexivity. Qed.

(** X1. [splitMethodName] drops one leading slash and splits at the
    first slash that follows: a service name without a slash and the rest
    come back as they are; a name with no slash to split at gives
    ["unknown"] twice. *)
Theorem splitMethodName_first_slash (svc m s : string) :
  "/"%char ∉ list_ascii_of_string svc →
  "/"%char ∉ list_ascii_of_string s →
  splitMethodName ("/" +:+ svc +:+ "/" +:+ m) = (svc, m) ∧
  (svc ≠ "" → splitMethodName (svc +:+ "/" +:+ m) = (svc, m)) ∧
  splitMethodName s = ("unknown", "unknown") ∧
  splitMethodName ("/" +:+ s) = ("unknown", "unknown").
Proof.
  intros Hsvc Hs. unfold splitMethodName. split; [|split; [|split]].
  - by rewrite TrimPrefix_slash_slash, cut_slash_app.
  - intros Hne. rewrite TrimPrefix_slash_no_slash by done. by rewrite cut_slash_app.
  - destruct s as [|a s']; [done|].
    assert (Ha : a ≠ "/"%char).
    { intros ->. apply Hs. simpl. apply list_elem_of_here. }
    simpl TrimPrefix_slash. destruct (Ascii.eqb_spec a "/") as [->|_]; [done|].
    by rewrite cut_slash_None.
  - by rewrite TrimPrefix_slash_slash, cut_slash_None.
Qed.

Lemma splitMethodName_Series_iff (method : string) :
  splitMethodName method = ("thanos.Store", "Series") ↔
  method = "thanos.Store/Series" ∨ method = "/thanos.Store/Series".
Proof.
  split.
  - unfold splitMethodName.
    destruct (cut_slash (TrimPrefix_slash method)) as [[svc m]|] eqn:Hcut; [|done].
    intros [= -> ->]. apply cut_slash_Some in Hcut. simpl in Hcut.
    destruct method as [|a method']; [done|]. simpl in Hcut.
    destruct (Ascii.eqb_spec a "/") as [->|_]; [right|left]; by rewrite Hcut.
  - by intros [-> | ->].
Qed.

(** X2. The function installed by [GetInterceptor] wraps the stream in a
    [seriesInterceptor] exactly when the streamer returned no error, the
    interceptor is not in pass-through mode, and the method is
    [thanos.Store/Series] with or without the leading slash; the wrapper
    starts without fingerprint, with an empty buffer, on the shared
    cache. In every other case the stream and the error of the streamer
    are returned as they are. *)
Theorem GetInterceptor_wraps_exactly_Series {CS IMC : Type}
    (i : SeriesRequestCachingInterceptor IMC) (tgt method : string) (cs : CS)
    (err : option error) :
  GetInterceptor i tgt method (cs, err) =
    if bool_decide (err = None ∧ passthrough i = false ∧
                    (method = "thanos.Store/Series" ∨ method = "/thanos.Store/Series"))
    then (Intercepting cs (inmemoryCache i) (mkInterceptor tgt "" [] false), None)
    else (Underlying cs, err).
Proof.
  unfold GetInterceptor. destruct err as [e|].
  { rewrite bool_decide_eq_false_2; [done|]. by intros [? _]. }
  destruct (passthrough i).
  { rewrite bool_decide_eq_false_2; [done|]. by intros (_ & ? & _). }
  destruct (decide (method = "thanos.Store/Series" ∨ method = "/thanos.Store/Series"))
    as [Hm|Hm].
  - rewrite bool_decide_eq_true_2 by done.
    apply splitMethodName_Series_iff in Hm. by rewrite Hm.
  - rewrite bool_decide_eq_false_2 by (by intros (_ & _ & ?)).
    destruct (splitMethodName method) as [svc m] eqn:Hsplit.
    destruct (String.eqb_spec svc "thanos.Store") as [->|]; [|done].
    destruct (String.eqb_spec m "Series") as [->|]; [|done].
    destruct Hm. by apply splitMethodName_Series_iff.
Qed.

End method_names.

(** *** The lookup *)

Section lookup_results.
Import grpccache.
Context {PB : Storepb} {XX : XXHash} {S : Type} {CSt : ClientStream S}.
Implicit Types (i : seriesInterceptor) (m : any) (w : World S).
Implicit Types (h : loc → SeriesResponse) (fd c : gmap string bytes).
Implicit Types (reqSig : string) (idx : list nat).

(** When every one of the distinct keys asked for is present, as many
    entries come back. *)
Lemma Fetch_size_all c (keys : list string) :
  NoDup keys → (∀ k, k ∈ keys → is_Some (c !! k)) →
  size (InMemoryCache_Fetch c keys) = length keys.
Proof.
  intros Hnd Hall.
  assert (Heq : dom (InMemoryCache_Fetch c keys) ≡@{gset string} list_to_set keys).
  { intros k. rewrite elem_of_dom, Fetch_lookup, elem_of_list_to_set.
    destruct (decide (k ∈ keys)) as [Hk|Hk]; [|split; [by intros []|done]].
    split; [done|]. intros _. by apply Hall. }
  rewrite <- size_dom, Heq. by apply size_list_to_set.
Qed.

Lemma decode_all_inv fd reqSig idx (vs : list SeriesResponse) :
  decode_all fd reqSig idx = Some vs →
  Forall2 (λ j v, SeriesResponse_Unmarshal (default [] (fd !! indexKey reqSig j)) = Some v)
          idx vs.
Proof.
  revert vs. induction idx as [|j idx IH]; intros vs; simpl.
  { intros [= <-]. constructor. }
  destruct (SeriesResponse_Unmarshal _) as [v|] eqn:Hv; [|done]. simpl.
  destruct (decode_all fd reqSig idx) as [vs'|]; [|done]. simpl.
  intros [= <-]. constructor; [done|]. by apply IH.
Qed.

(** A lookup that succeeds: the count key holds a count [n >= 0], the
    [n] indexed keys are present and decode, and the messages are in [n]
    new objects. *)
Lemma getResponses_inv reqSig w (rs : list loc) w' :
  getResponses reqSig w = Returns (inl rs, w') →
  ∃ b (vs : list SeriesResponse),
    cache w !! numKeysKey reqSig = Some b ∧
    fmt.Sscanf_d (string_of_bytes b) = Some (Z.of_nat (length vs)) ∧
    (∀ (j : nat) v, vs !! j = Some v →
       ∃ data, cache w !! indexKey reqSig j = Some data ∧
               SeriesResponse_Unmarshal data = Some v) ∧
    rs = seq (next w) (length vs) ∧
    w' = allocated vs
           (fetched [EvFetch [numKeysKey reqSig];
                     EvFetch (indexKey reqSig <$> seq 0 (length vs))] w).
Proof.
  rewrite getResponses_unfold. cbn zeta.
  destruct (cache w !! numKeysKey reqSig) as [b|] eqn:Hb; [|done].
  destruct (fmt.Sscanf_d _) as [n|] eqn:Hn; [|done].
  case_bool_decide as Hneg; [done|].
  case_bool_decide as Hsz; [done|].

  set (keys := indexKey reqSig <$> seq 0 (Z.to_nat n)) in *.
  destruct (decode_all (InMemoryCache_Fetch (cache w) keys) reqSig (seq 0 (Z.to_nat n)))
    as [vs|] eqn:Hd.
  2:{ destruct (decode_fail _ _ _ [] (fetched ([EvFetch [numKeysKey reqSig]] ++
          [EvFetch keys]) w) Hd) as (w'' & -> & _). done. }
  rewrite (decode_ok _ _ _ _ _ _ Hd). intros [= <- <-].
  apply decode_all_inv in Hd.
  assert (Hlen : length vs = Z.to_nat n).
  { apply Forall2_length in Hd. by rewrite length_seq in Hd. }
  exists b, vs. rewrite Hlen, Z2Nat.id by lia. split; [done|]. split; [done|].
  split; [|done].
  intros j v Hv.
  assert (Hj : (j < Z.to_nat n)%nat) by (rewrite <- Hlen; by eapply lookup_lt_Some).
  assert (Hsize : size (InMemoryCache_Fetch (cache w) keys) = Z.to_nat n) by lia.
  destruct (Fetch_full (cache w) (indexKey reqSig) (Z.to_nat n)
              (indexKey_inj reqSig) Hsize j Hj) as [data Hdata].
  exists data. split; [done|].
  eapply Forall2_lookup_lr in Hd; [|by apply lookup_seq_lt|done].
  simpl in Hd. rewrite Fetch_lookup, decide_True, Hdata in Hd; [done|].
  apply list_elem_of_fmap. exists j. split; [done|]. apply elem_of_seq. lia.
Qed.

Lemma getResponses_ok reqSig w b (vs : list SeriesResponse) :
  cache w !! numKeysKey reqSig = Some b →
  fmt.Sscanf_d (string_of_bytes b) = Some (Z.of_nat (length vs)) →
  (∀ (j : nat) v, vs !! j = Some v →
     ∃ data, cache w !! indexKey reqSig j = Some data ∧
             SeriesResponse_Unmarshal data = Some v) →
  getResponses reqSig w =
    Returns (inl (seq (next w) (length vs)),
             allocated vs
               (fetched [EvFetch [numKeysKey reqSig];
                         EvFetch (indexKey reqSig <$> seq 0 (length vs))] w)).
Proof.
  intros Hb Hn Hall. rewrite getResponses_unfold. cbn zeta. rewrite Hb, Hn.
  rewrite bool_decide_eq_false_2 by lia. rewrite Nat2Z.id.
  set (keys := indexKey reqSig <$> seq 0 (length vs)).
  assert (Hin : ∀ j, (j < length vs)%nat → indexKey reqSig j ∈ keys).
  { intros j Hj. apply list_elem_of_fmap. exists j. split; [done|].
    apply elem_of_seq. lia. }
  assert (Hsize : size (InMemoryCache_Fetch (cache w) keys) = length vs).
  { rewrite Fetch_size_all.
    - unfold keys. by rewrite length_fmap, length_seq.
    - apply NoDup_fmap_2; [exact (indexKey_inj reqSig)|apply NoDup_seq].
    - intros k (j & -> & Hj%elem_of_seq)%list_elem_of_fmap.
      destruct (lookup_lt_is_Some_2 vs j) as [v Hv]; [lia|].
      destruct (Hall j v Hv) as (data & -> & _). by eexists. }
  rewrite bool_decide_eq_false_2 by lia.
  rewrite (decode_ok _ _ _ _ vs); [done|].
  apply decode_all_Forall2, Forall2_same_length_lookup_2.
  { by rewrite length_seq. }
  intros j k v Hk Hv. apply lookup_seq in Hk as [-> Hj]. simpl.
  destruct (Hall j v Hv) as (data & Hdata & Hu).
  by rewrite Fetch_lookup, decide_True, Hdata by (by apply Hin).
Qed.

Lemma allocated_heap_old (vs : list SeriesResponse) w (l : loc) :
  (l < next w)%nat → heap (allocated vs w) l = heap w l.
Proof.
  intros Hl. unfold allocated. cbn [heap]. apply write_all_other.
  intros Hin%elem_of_seq. lia.
Qed.

Lemma allocated_heap_new (vs : list SeriesResponse) w (j : nat) v :
  vs !! j = Some v → heap (allocated vs w) (next w + j)%nat = v.
Proof.
  intros Hv. unfold allocated. cbn [heap].
  eapply write_all_lookup; [apply NoDup_seq| |done].
  apply lookup_seq_lt. by eapply lookup_lt_Some.
Qed.

(** X3. The lookup succeeds exactly when the count key is present, its
    value scans as a count [n >= 0], and each of the [n] indexed keys is
    present with a value that deserializes. *)
Theorem getResponses_succeeds_iff reqSig w :
  (∃ rs w', getResponses reqSig w = Returns (inl rs, w')) ↔
  ∃ b n, cache w !! numKeysKey reqSig = Some b ∧
         fmt.Sscanf_d (string_of_bytes b) = Some n ∧ 0 ≤ n ∧
         ∀ j : nat, (j < Z.to_nat n)%nat →
           ∃ data, cache w !! indexKey reqSig j = Some data ∧
                   is_Some (SeriesResponse_Unmarshal data).
Proof.
  split.
  - intros (rs & w' & Hg).
    apply getResponses_inv in Hg as (b & vs & Hb & Hn & Hall & _).
    exists b, (Z.of_nat (length vs)). split; [done|]. split; [done|]. split; [lia|].
    intros j Hj. rewrite Nat2Z.id in Hj.
    destruct (lookup_lt_is_Some_2 vs j Hj) as [v Hv].
    destruct (Hall j v Hv) as (data & Hdata & Hu). exists data. by rewrite Hu.
  - intros (b & n & Hb & Hn & Hpos & Hall).
    assert (∃ vs : list SeriesResponse, length vs = Z.to_nat n ∧
              ∀ (j : nat) v, vs !! j = Some v →
                ∃ data, cache w !! indexKey reqSig j = Some data ∧
                        SeriesResponse_Unmarshal data = Some v) as (vs & Hlen & Hvs).
    { clear Hn Hpos. induction (Z.to_nat n) as [|k IH].
      { exists []. split; [done|]. by intros j v Hv. }
      destruct IH as (vs & Hlen & Hvs); [intros j Hj; apply Hall; lia|].
      destruct (Hall k) as (data & Hdata & [v Hv]); [lia|].
      exists (vs ++ [v]). split; [rewrite length_app; simpl; lia|].
      intros j v' Hj. apply lookup_app_Some in Hj as [Hj|[Hge Hj]]; [by apply Hvs|].
      apply list_lookup_singleton_Some in Hj as [Hj <-].
      assert (j = k) as -> by lia. by exists data. }
    eexists _, _. apply (getResponses_ok reqSig w b vs); [done| |done].
    rewrite Hn, Hlen. f_equal. lia.
Qed.

(** X4. A lookup that succeeds returns, in the order of their indices,
    pointers to objects that did not exist before, one for each indexed
    key, holding the deserialized value of that key; the count key holds
    their number; every object that existed before, the cache and the
    stream are as they were. *)
Theorem getResponses_result reqSig w (rs : list loc) w' :
  getResponses reqSig w = Returns (inl rs, w') →
  rs = seq (next w) (length rs) ∧
  next w' = (next w + length rs)%nat ∧
  (∃ b, cache w !! numKeysKey reqSig = Some b ∧
        fmt.Sscanf_d (string_of_bytes b) = Some (Z.of_nat (length rs))) ∧
  (∀ (j : nat) r, rs !! j = Some r →
     ∃ data, cache w !! indexKey reqSig j = Some data ∧
             SeriesResponse_Unmarshal data = Some (heap w' r)) ∧
  (∀ l, (l < next w)%nat → heap w' l = heap w l) ∧
  cache w' = cache w ∧ stream w' = stream w.
Proof.
  intros Hg. apply getResponses_inv in Hg as (b & vs & Hb & Hn & Hall & -> & ->).
  rewrite length_seq. split; [done|]. split; [done|].
  split; [by exists b|]. split; [|split; [|done]].
  - intros j r Hr. apply lookup_seq in Hr as [-> Hj].
    destruct (lookup_lt_is_Some_2 vs j Hj) as [v Hv].
    destruct (Hall j v Hv) as (data & Hdata & Hu). exists data. split; [done|].
    rewrite Hu. f_equal. symmetry.
    by apply (allocated_heap_new vs (fetched _ w) j v).
  - intros l Hl. by apply (allocated_heap_old vs (fetched _ w) l).
Qed.

(** X5. After [putResponses] has stored the objects [buf] under
    [reqSig], a lookup for [reqSig] on a cache that still holds the keys
    of that entry as they were stored succeeds: it returns as many new
    objects as were stored, holding the stored messages in order. Other
    keys of the cache do not matter. *)
Theorem lookup_after_store reqSig (buf : list loc) (wr wr' w : World S) :
  (∀ r, SeriesResponse_Unmarshal (SeriesResponse_Marshal r) = Some r) →
  Z.of_nat (length buf) ≤ fmt.maxInt64 →
  putResponses reqSig buf wr = Returns (tt, wr') →
  (∀ k, is_Some (putResponses_batch (heap wr) reqSig buf !! k) →
        cache w !! k = cache wr' !! k) →
  ∃ w', getResponses reqSig w = Returns (inl (seq (next w) (length buf)), w') ∧
        heap w' <$> seq (next w) (length buf) = heap wr <$> buf ∧
        cache w' = cache w.
Proof.
  intros Hcodec Hmax Hput Hkeep.
  unfold putResponses in Hput. munfold. injection Hput as <-. cbn [cache] in Hkeep.
  set (batch := putResponses_batch (heap wr) reqSig buf) in *.
  assert (Hin : ∀ k v, batch !! k = Some v → cache w !! k = Some v).
  { intros k v Hk. rewrite Hkeep by (by eexists). unfold InMemoryCache_Store.
    by apply lookup_union_Some_l. }
  pose proof (getResponses_ok reqSig w
                (bytes_of_string (fmt.Sprintf_d (Z.of_nat (length buf))))
                (heap wr <$> buf)) as Hok.
  rewrite length_fmap in Hok. rewrite Hok.
  - eexists. split; [done|]. split; [|done].
    apply list_eq. intros j. rewrite !list_lookup_fmap.
    destruct (buf !! j) as [r|] eqn:Hr; simpl.
    + rewrite lookup_seq_lt by (by eapply lookup_lt_Some). cbn [fmap option_fmap option_map].
      f_equal.
      eapply write_all_lookup; [apply NoDup_seq| |by rewrite list_lookup_fmap, Hr].
      apply lookup_seq_lt. rewrite length_fmap. by eapply lookup_lt_Some.
    + apply lookup_ge_None in Hr. by rewrite lookup_seq_ge.
  - apply Hin, batch_numKeys.
  - rewrite string_of_bytes_of_string. apply Sscanf_d_Sprintf_d.
    unfold fmt.minInt64. lia.
  - intros j v Hv. apply list_lookup_fmap_Some in Hv as (r & -> & Hr).
    exists (SeriesResponse_Marshal (heap wr r)). split; [|done].
    by apply Hin, batch_index.
Qed.

End lookup_results.

(** *** Sending, replaying and recording *)

Section interceptor_more.
Import grpccache.
Context {PB : Storepb} {XX : XXHash} {S : Type} {CSt : ClientStream S}.
Implicit Types (i : seriesInterceptor) (m : any) (w : World S).
Implicit Types (h : loc → SeriesResponse) (reqSig : string).

(** X6. [SendMsg] hands every message to the wrapped stream, whatever the
    lookup answered, and returns what the stream returns; before that it
    makes [Fetch] calls only, so that the cache content is as it was; the
    counter grows by one or not at all, and only together with the flag
    that responses are available. A message that is not a request leaves
    the interceptor and the counter as they were. The call can only stop
    in the lookup of a request. *)
Theorem SendMsg_always_forwards i m w :
  match SendMsg i m w with
  | Returns ((i', err), w') =>
      err = (stream_SendMsg (stream w) m).2 ∧
      stream w' = (stream_SendMsg (stream w) m).1 ∧
      cache w' = cache w ∧
      target i' = target i ∧
      (∃ fetches, events w' = events w ++ (EvFetch <$> fetches) ++ [EvSendMsg m]) ∧
      (cachedCalls w' = cachedCalls w ∨
       cachedCalls w' = Datatypes.S (cachedCalls w) ∧
       cachedResponsesAvailable i' = true) ∧
      ((∀ r, m ≠ PtrSeriesRequest r) → i' = i ∧ cachedCalls w' = cachedCalls w)
  | Panics msg => ∃ r, m = PtrSeriesRequest r
  end.
Proof.
  destruct m as [req|l|tag].
  - rewrite SendMsg_request. cbn zeta.
    destruct (getResponses _ w) as [[[rs|e] w0]|] eqn:Hg; [| |by exists req].
    + destruct (getResponses_frame _ _ _ _ Hg) as (Hc & Hs & Hn & ks & He).
      cbn. rewrite Hs, Hc, Hn, He. split_and!; try done.
      * exists ([numKeysKey (hashReqTarget req (target i))] :: ks).
        by rewrite fmap_cons, <- !app_assoc.
      * by right.
      * intros Hm. by destruct (Hm req).
    + destruct (getResponses_frame _ _ _ _ Hg) as (Hc & Hs & Hn & ks & He).
      cbn. rewrite Hs, Hc, Hn, He. split_and!; try done.
      * exists ([numKeysKey (hashReqTarget req (target i))] :: ks).
        by rewrite fmap_cons, <- !app_assoc.
      * by left.
      * intros Hm. by destruct (Hm req).
  - rewrite SendMsg_not_request by done.
    munfold. destruct (stream_SendMsg (stream w) _) as [s' err]. cbn.
    split_and!; try done; [by exists []|by left].
  - rewrite SendMsg_not_request by done.
    munfold. destruct (stream_SendMsg (stream w) _) as [s' err]. cbn.
    split_and!; try done; [by exists []|by left].
Qed.

(** X7. Once the buffer of a call served from the cache is empty, every
    further read returns [io.EOF], whatever the destination is: nothing
    is written, the wrapped stream is not read, and the interceptor stays
    as it is. *)
Theorem replay_exhausted_EOF i (ms : list any) w :
  hashedReq i ≠ "" → cachedResponsesAvailable i = true → responses i = [] →
  run_interceptor i (OpRecvMsg <$> ms) w =
    Returns ((i, (λ m, (Some io_EOF,
                        match m with
                        | PtrSeriesResponse l => Some (heap w l)
                        | _ => None
                        end)) <$> ms), w).
Proof.
  intros Hh Hc Hr. induction ms as [|m ms IH]; [done|].
  rewrite !fmap_cons. cbn [run_interceptor].
  unfold mbind at 1, M_bind at 1. rewrite RecvMsg_replay by done. rewrite Hr.
  munfold. cbn beta iota zeta. by rewrite IH.
Qed.

Lemma write_all_replicate h (d : loc) (vs : list SeriesResponse) (v : SeriesResponse) :
  write_all h (replicate (Datatypes.S (length vs)) d) (vs ++ [v]) d = v.
Proof.
  revert h. induction vs as [|v0 vs IH]; intros h; simpl.
  - apply fn_lookup_insert.
  - apply IH.
Qed.

(** X8. The buffer of a recording call holds the caller's destinations,
    not copies: when every message is read into the same object, the
    caller sees each message as it arrives, and the entry stored at
    end-of-stream has the right count, but each of its indexed keys holds
    the serialized last message. *)
Theorem same_destination_stores_last i (d : loc) (vs : list SeriesResponse)
    (v : SeriesResponse) m w :
  hashedReq i ≠ "" → cachedResponsesAvailable i = false → responses i = [] →
  let n := Datatypes.S (length vs) in
  let ds := replicate n d in
  (stream_reads (stream w) ((PtrSeriesResponse <$> ds) ++ [m])).1
  = (RecvOK <$> (vs ++ [v])) ++ [RecvErr io_EOF] →
  ∃ i2 last w2 batch,
    run_interceptor i ((OpRecvMsg <$> (PtrSeriesResponse <$> ds)) ++ [OpRecvMsg m]) w
    = Returns ((i2, ((λ v, (None, Some v)) <$> (vs ++ [v])) ++ [(Some io_EOF, last)]),
               w2) ∧
    cache w2 = InMemoryCache_Store (cache w) batch ∧
    batch !! numKeysKey (hashedReq i)
    = Some (bytes_of_string (fmt.Sprintf_d (Z.of_nat n))) ∧
    ∀ j : nat, (j < n)%nat →
      batch !! indexKey (hashedReq i) j = Some (SeriesResponse_Marshal v).
Proof.
  intros Hh Hc Hr n ds Hreads.
  rewrite stream_reads_app in Hreads.
  pose proof (stream_reads_length (stream w) (PtrSeriesResponse <$> ds)) as Hlen1.
  destruct (stream_reads (stream w) (PtrSeriesResponse <$> ds)) as [rs1 s1] eqn:Hrs1.
  cbn [stream_reads] in Hreads.
  destruct (stream_RecvMsg s1 m) as [s2 r2] eqn:Hr2. cbn in Hreads, Hlen1.
  rewrite length_fmap in Hlen1.
  assert (Hlen : length rs1 = length (RecvOK <$> (vs ++ [v]))).
  { rewrite Hlen1, length_fmap, length_app. unfold ds. rewrite length_replicate.
    unfold n. simpl. lia. }
  apply app_inj_1 in Hreads as [-> [= ->]]; [|done].
  rewrite run_interceptor_app.
  rewrite (run_record i ds (vs ++ [v]) w) by (by rewrite ?Hrs1).
  rewrite Hrs1, Hr. cbn [snd run_interceptor responses app].
  unfold mbind, M_bind. rewrite RecvMsg_record by done.
  cbn [stream heap next cache cachedCalls events]. rewrite Hr2.
  cbn [hashedReq responses set_responses].
  set (h2 := write_all (heap w) ds (vs ++ [v])).
  set (batch := putResponses_batch h2 (hashedReq i) ds).
  rewrite bool_decide_eq_true_2 by done.
  rewrite bool_decide_eq_true_2 by (unfold ds, n; simpl; lia). cbn [andb].
  munfold. cbn zeta.
  eexists _, _, _, batch. split; [done|]. cbn [cache]. split; [done|]. split.
  - unfold batch. rewrite batch_numKeys. unfold ds. by rewrite length_replicate.
  - intros j Hj. unfold batch. rewrite (batch_index h2 (hashedReq i) ds j d).
    + unfold h2, ds, n. by rewrite write_all_replicate.
    + by apply lookup_replicate_2.
Qed.

(** Fingerprints are eight bytes long. *)
Lemma hashReqTarget_length (r : SeriesRequest) (tgt : string) :
  String.length (hashReqTarget r tgt) = 8%nat.
Proof. reflexivity. Qed.

Lemma string_app_inj_length (s1 s2 x y : string) :
  String.length s1 = String.length s2 → s1 +:+ x = s2 +:+ y → s1 = s2 ∧ x = y.
Proof.
  revert s2. induction s1 as [|a s1 IH]; intros [|b s2] Hlen Heq; try done.
  simpl in *. injection Heq as -> Heq. injection Hlen as Hlen.
  by destruct (IH s2 Hlen Heq) as [-> ->].
Qed.

(** X9. The entries of two requests share a key only if the requests
    have the same fingerprint: an indexed key determines fingerprint and
    index, a count key determines the fingerprint, and no indexed key is
    a count key. *)
Theorem entry_keys_determine_fingerprint (r1 r2 : SeriesRequest) (t1 t2 : string)
    (j1 j2 : nat) :
  let F1 := hashReqTarget r1 t1 in
  let F2 := hashReqTarget r2 t2 in
  (indexKey F1 j1 = indexKey F2 j2 ↔ F1 = F2 ∧ j1 = j2) ∧
  (numKeysKey F1 = numKeysKey F2 ↔ F1 = F2) ∧
  indexKey F1 j1 ≠ numKeysKey F2.
Proof.
  intros F1 F2.
  assert (Hlen : String.length F1 = String.length F2) by done.
  split; [|split].
  - split; [|by intros [-> ->]]. unfold indexKey. intros Heq.
    apply string_app_inj_length in Heq as [HF Heq]; [|done].
    split; [done|]. injection Heq as Heq. apply Sprintf_d_inj in Heq. lia.
  - split; [|by intros ->]. unfold numKeysKey. intros Heq.
    by apply string_app_inj_length in Heq as [HF _].
  - unfold indexKey, numKeysKey. intros Heq.
    apply string_app_inj_length in Heq as [_ Heq]; [|done].
    injection Heq as Heq. by apply Sprintf_d_not_num in Heq.
Qed.

End interceptor_more.

(** *** A call that records and a call that replays *)

Section record_replay.
Import grpccache.
Context {PB : Storepb} {XX : XXHash} {S : Type} {CSt : ClientStream S}.
Implicit Types (i : seriesInterceptor) (m : any) (w : World S).
Implicit Types (h : loc → SeriesResponse) (reqSig : string).

Lemma write_all_fmap h (ds : list loc) (vs : list SeriesResponse) :
  NoDup ds → length vs = length ds → write_all h ds vs <$> ds = vs.
Proof.
  intros Hnd Hlen. apply list_eq. intros j. rewrite list_lookup_fmap.
  destruct (ds !! j) as [d|] eqn:Hd; simpl.
  - destruct (lookup_lt_is_Some_2 vs j) as [v Hv].
    { rewrite Hlen. by eapply lookup_lt_Some. }
    rewrite Hv. f_equal. by eapply write_all_lookup.
  - symmetry. apply lookup_ge_None. rewrite Hlen. by apply lookup_ge_None.
Qed.

Lemma allocated_heap_fmap (vs : list SeriesResponse) w :
  heap (allocated vs w) <$> seq (next w) (length vs) = vs.
Proof.
  unfold allocated. cbn [heap]. apply write_all_fmap; [apply NoDup_seq|].
  by rewrite length_seq.
Qed.

Lemma replay_observations (vs : list SeriesResponse) w :
  (λ r, (@None error, Some (heap (allocated vs w) r))) <$> seq (next w) (length vs)
  = (λ v, (None, Some v)) <$> vs.
Proof.
  transitivity ((λ v, (@None error, Some v)) <$>
                (heap (allocated vs w) <$> seq (next w) (length vs))).
  - by rewrite <- list_fmap_compose.
  - by rewrite allocated_heap_fmap.
Qed.

(** A recording call from its request to end-of-stream. *)
Lemma run_recording_call (tgt : string) (req : SeriesRequest) (ds : list loc)
    (vs : list SeriesResponse) m w :
  let F := hashReqTarget req tgt in
  let mreq := PtrSeriesRequest req in
  let sent := stream_SendMsg (stream w) mreq in
  cache w !! numKeysKey F = None →
  (stream_reads sent.1 ((PtrSeriesResponse <$> ds) ++ [m])).1
  = (RecvOK <$> vs) ++ [RecvErr io_EOF] →
  ds ≠ [] →
  ∃ last s2,
    run_interceptor (mkInterceptor tgt "" [] false)
      (OpSendMsg mreq :: (OpRecvMsg <$> (PtrSeriesResponse <$> ds)) ++ [OpRecvMsg m]) w
    = Returns ((mkInterceptor tgt F ds false,
                (sent.2, None) :: ((λ v, (None, Some v)) <$> vs) ++ [(Some io_EOF, last)]),
               mkWorld (write_all (heap w) ds vs) (next w)
                 (InMemoryCache_Store (cache w)
                    (putResponses_batch (write_all (heap w) ds vs) F ds))
                 s2 (cachedCalls w)
                 (events w ++ [EvFetch [numKeysKey F]; EvSendMsg mreq] ++
                  (EvRecvMsg <$> (PtrSeriesResponse <$> ds)) ++
                  [EvRecvMsg m;
                   EvStore (putResponses_batch (write_all (heap w) ds vs) F ds)
                           ttl_5min])) ∧
    length vs = length ds.
Proof.
  intros F mreq sent Hmiss Hreads Hne. subst mreq.
  cbn [run_interceptor]. unfold mbind at 1, M_bind at 1.
  rewrite SendMsg_request. cbn zeta. cbn [target responses cachedResponsesAvailable].
  fold F. rewrite getResponses_unfold. cbn zeta. rewrite Hmiss.
  cbn [fetched stream heap next cache cachedCalls events]. fold sent.
  set (iA := mkInterceptor tgt F [] false).
  set (wA := mkWorld (heap w) (next w) (cache w) sent.1 (cachedCalls w)
               ((events w ++ [EvFetch [numKeysKey F]]) ++
                [EvSendMsg (PtrSeriesRequest req)])).
  rewrite stream_reads_app in Hreads.
  pose proof (stream_reads_length sent.1 (PtrSeriesResponse <$> ds)) as Hlen1.
  destruct (stream_reads sent.1 (PtrSeriesResponse <$> ds)) as [rs1 s1] eqn:Hrs1.
  cbn [stream_reads] in Hreads.
  destruct (stream_RecvMsg s1 m) as [s2 r2] eqn:Hr2. cbn in Hreads, Hlen1.
  rewrite length_fmap in Hlen1.
  assert (Hlenvs : length vs = length ds).
  { apply (f_equal length) in Hreads. rewrite !length_app, length_fmap in Hreads.
    simpl in Hreads. lia. }
  apply app_inj_1 in Hreads as [-> [= ->]]; [|by rewrite length_fmap; lia].
  assert (Hnone : hashedReq iA ≠ "") by apply hashReqTarget_nonempty.
  unfold mbind, M_bind. rewrite run_interceptor_app.
  rewrite (run_record iA ds vs wA) by (by cbn [stream wA]; rewrite ?Hrs1).
  cbn [stream wA]. rewrite Hrs1. cbn [snd run_interceptor responses app iA].
  unfold mbind, M_bind. rewrite RecvMsg_record by done.
  cbn [stream heap next cache cachedCalls events wA]. rewrite Hr2.
  cbn [hashedReq responses set_responses].
  rewrite bool_decide_eq_true_2 by done.
  rewrite bool_decide_eq_true_2 by (destruct ds; [done|simpl; lia]). cbn [andb].
  munfold. cbn zeta. cbn [heap].
  eexists _, s2. split; [|done]. do 2 f_equal.
  f_equal. rewrite <- !app_assoc. done.
Qed.

(** X10. A call whose request finds no count key records what it reads:
    after [n >= 1] messages, each read into an object of its own, and
    end-of-stream, the entry is in the cache. A later call to the same
    target with the same request, on a cache that holds what the first
    call left, then gives the caller the same messages in the same order
    and [io.EOF] after them, reads nothing from its stream, to which only
    the request is sent, and counts one fully cached call. *)
Theorem record_then_replay (tgt : string) (req : SeriesRequest) (ds ds' : list loc)
    (vs : list SeriesResponse) m m' w
    (h' : loc → SeriesResponse) (next' : loc) (s' : S) (calls' : nat)
    (events' : list event) :
  let F := hashReqTarget req tgt in
  let mreq := PtrSeriesRequest req in
  let i0 := mkInterceptor tgt "" [] false in
  let reads (l : list loc) (last : any) :=
    (OpRecvMsg <$> (PtrSeriesResponse <$> l)) ++ [OpRecvMsg last] in
  (∀ r, SeriesResponse_Unmarshal (SeriesResponse_Marshal r) = Some r) →
  cache w !! numKeysKey F = None →
  (stream_reads (stream_SendMsg (stream w) mreq).1
     ((PtrSeriesResponse <$> ds) ++ [m])).1
  = (RecvOK <$> vs) ++ [RecvErr io_EOF] →
  ds ≠ [] → NoDup ds → Z.of_nat (length ds) ≤ fmt.maxInt64 →
  length ds' = length ds →
  (∀ d, d ∈ ds' → d ∉ seq next' (length ds)) →
  ∃ i1 obs1 w1,
    run_interceptor i0 (OpSendMsg mreq :: reads ds m) w = Returns ((i1, obs1), w1) ∧
    ∃ i2 last w2,
      run_interceptor i0 (OpSendMsg mreq :: reads ds' m')
        (mkWorld h' next' (cache w1) s' calls' events')
      = Returns ((i2, ((stream_SendMsg s' mreq).2, None) ::
                      ((λ v, (None, Some v)) <$> vs) ++ [(Some io_EOF, last)]), w2) ∧
      stream w2 = (stream_SendMsg s' mreq).1 ∧
      events w2 = events' ++ [EvFetch [numKeysKey F];
                              EvFetch (indexKey F <$> seq 0 (length ds));
                              EvSendMsg mreq] ∧
      cachedCalls w2 = Datatypes.S calls'.
Proof.
  intros F mreq i0 reads Hcodec Hmiss Hreads Hne Hnd Hmax Hlen' Hfresh.
  subst mreq.
  destruct (run_recording_call tgt req ds vs m w Hmiss Hreads Hne)
    as (last1 & s2 & Hrun1 & Hlenvs).
  fold F i0 in Hrun1. unfold reads at 1. rewrite Hrun1.
  eexists _, _, _. split; [done|]. cbn [cache].
  set (h2 := write_all (heap w) ds vs).
  set (batch := putResponses_batch h2 F ds).
  set (w' := mkWorld h' next' (InMemoryCache_Store (cache w) batch) s' calls' events').
  assert (Hvs : h2 <$> ds = vs) by (by apply write_all_fmap).
  assert (Hin : ∀ k v, batch !! k = Some v → cache w' !! k = Some v).
  { intros k v Hk. by apply lookup_union_Some_l. }
  pose proof (getResponses_ok F w'
                (bytes_of_string (fmt.Sprintf_d (Z.of_nat (length ds)))) vs) as Hok.
  rewrite Hlenvs in Hok. rewrite string_of_bytes_of_string in Hok.
  specialize (Hok (Hin _ _ (batch_numKeys h2 F ds))).
  rewrite Sscanf_d_Sprintf_d in Hok by (unfold fmt.minInt64; lia).
  specialize (Hok eq_refl).
  assert (Hentries : ∀ (j : nat) v, vs !! j = Some v →
            ∃ data, cache w' !! indexKey F j = Some data ∧
                    SeriesResponse_Unmarshal data = Some v).
  { intros j v Hv. rewrite <- Hvs in Hv.
    apply list_lookup_fmap_Some in Hv as (d & -> & Hd).
    exists (SeriesResponse_Marshal (h2 d)). split; [|done].
    by apply Hin, batch_index. }
  specialize (Hok Hentries).
  unfold reads. cbn [run_interceptor]. unfold mbind at 1, M_bind at 1.
  rewrite SendMsg_request. cbn zeta. cbn [target i0]. fold F. rewrite Hok.
  unfold mbind, M_bind.
  match goal with |- context [run_interceptor ?i (_ ++ _) ?w0] =>
    rewrite (run_replay i ds' m' w0);
      [|apply hashReqTarget_nonempty|reflexivity
       |by cbn [responses]; rewrite length_seq|exact Hfresh]
  end.
  cbn [responses heap].
  pose proof (replay_observations vs
                (fetched [EvFetch [numKeysKey F];
                          EvFetch (indexKey F <$> seq 0 (length ds))] w')) as Hobs.
  rewrite Hlenvs in Hobs.
  change (next (fetched _ w')) with (next w') in Hobs. rewrite Hobs.
  munfold. eexists _, _, _. split; [done|]. cbn [stream events cachedCalls].
  split; [done|]. split; [|done].
  cbn [allocated fetched events w']. by rewrite <- !app_assoc.
Qed.

Lemma RecvMsg_recording_step i m w wu :
  cachedResponsesAvailable i = false → heap w = heap wu → stream w = stream wu →
  ∃ i1 err w1 wu1,
    RecvMsg i m w = Returns ((i1, err), w1) ∧
    ClientStream_RecvMsg m wu = Returns (err, wu1) ∧
    cachedResponsesAvailable i1 = false ∧ hashedReq i1 = hashedReq i ∧
    heap w1 = heap wu1 ∧ stream w1 = stream wu1 ∧
    cachedCalls w1 = cachedCalls w.
Proof.
  intros Hc Hh Hs. destruct (decide (hashedReq i = "")) as [He|He].
  - rewrite RecvMsg_no_fingerprint by done. munfold. rewrite Hs, Hh.
    destruct (stream_RecvMsg (stream wu) m) as [s' [v|e]]; simpl;
      by eexists _, _, _, _.
  - rewrite RecvMsg_record by done. munfold. rewrite Hs, Hh.
    destruct (stream_RecvMsg (stream wu) m) as [s' [v|e]]; simpl.
    + destruct m; by eexists _, _, _, _.
    + destruct (bool_decide (e = io_EOF) && _); by eexists _, _, _, _.
Qed.

(** X11. While no cached responses are available, the interceptor shows
    the caller, read after read, what the wrapped stream itself shows:
    the same errors, the same messages in the destinations, the same
    state of the stream afterwards, whatever the stream delivers and
    whatever the destinations are; the counter stays. *)
Theorem recording_is_transparent i (ms : list any) w :
  cachedResponsesAvailable i = false →
  ∃ i' obs w' wu',
    run_interceptor i (OpRecvMsg <$> ms) w = Returns ((i', obs), w') ∧
    run_stream (OpRecvMsg <$> ms) w = Returns (obs, wu') ∧
    heap w' = heap wu' ∧ stream w' = stream wu' ∧
    cachedCalls w' = cachedCalls w ∧
    cachedResponsesAvailable i' = false ∧ hashedReq i' = hashedReq i.
Proof.
  intros Hc.
  assert (∀ wu, heap w = heap wu → stream w = stream wu →
    ∃ i' obs w' wu',
      run_interceptor i (OpRecvMsg <$> ms) w = Returns ((i', obs), w') ∧
      run_stream (OpRecvMsg <$> ms) wu = Returns (obs, wu') ∧
      heap w' = heap wu' ∧ stream w' = stream wu' ∧
      cachedCalls w' = cachedCalls w ∧
      cachedResponsesAvailable i' = false ∧ hashedReq i' = hashedReq i) as Hgen.
  2:{ by apply Hgen. }
  revert i w Hc. induction ms as [|m ms IH]; intros i w Hc wu Hh Hs.
  { by eexists _, _, _, _. }
  rewrite !fmap_cons. cbn [run_interceptor run_stream]. unfold mbind, M_bind.
  destruct (RecvMsg_recording_step i m w wu Hc Hh Hs)
    as (i1 & err & w1 & wu1 & -> & -> & Hc1 & Hf1 & Hh1 & Hs1 & Hn1).
  destruct (IH i1 w1 Hc1 wu1 Hh1 Hs1)
    as (i' & obs & w' & wu' & Hr & Hu & ? & ? & ? & ? & ?).
  munfold. cbn beta iota zeta. rewrite Hr, Hu, Hh1.
  eexists _, _, _, _. split; [done|]. split; [done|].
  split_and!; congruence.
Qed.

End record_replay.

(** ** Further properties of the tiered index cache *)

Section badger_more.
Import storecache.
Context {ULID : Type} (cacheKey_string : ULID → Label → string).
Context {IC : Type} {ICI : IndexCache (ULID := ULID) IC}.
Context {ICS : IndexCacheStore (ULID := ULID) IC}.
Context (WriteBatch_Set_Flush : DB → bytes → bytes → DB).
Implicit Types (lbls pre post : list Label) (c : BadgerIndexCache IC) (blockID : ULID).

(** X12. For a list that does not name the routed label, the empty list
    among them, [FetchMultiPostings] is the fallback: it returns the
    fallback's misses and the fallback's hits (an empty map for a nil
    one) for the list as it was passed, whatever the disk store holds. *)
Theorem FetchMultiPostings_without_core c blockID lbls :
  coreLabel ∉ lbls →
  FetchMultiPostings cacheKey_string c blockID lbls
  = (default ∅ (ic_FetchMultiPostings (ic c) blockID lbls).1,
     (ic_FetchMultiPostings (ic c) blockID lbls).2).
Proof.
  intros Hnin. unfold FetchMultiPostings. rewrite (extractCore_not_found lbls Hnin).
  destruct (ic_FetchMultiPostings (ic c) blockID lbls) as [hits misses].
  cbn. by rewrite app_nil_r, (left_id_L ∅ (∪)).
Qed.

Lemma disk_hit_lookup c blockID lbls (item : Item (db c)) (val : bytes) :
  coreLabel ∈ lbls →
  txn_Get (db c) (bytes_of_string (cacheKey_string blockID coreLabel)) = inl item →
  ValueCopy (db c) item = inl val →
  let fallback := ic_FetchMultiPostings (ic c) blockID (extractCore lbls).1 in
  let result := FetchMultiPostings cacheKey_string c blockID lbls in
  result.1 !! coreLabel = Some val ∧
  (∀ l, l ≠ coreLabel → result.1 !! l = default ∅ fallback.1 !! l) ∧
  result.2 = fallback.2.
Proof.
  intros Hin Hget Hcopy fallback result. subst fallback result.
  unfold FetchMultiPostings.
  destruct (extractCore_found lbls Hin) as (lbls' & -> & _). cbn [fst].
  unfold View_core. rewrite Hget, Hcopy.
  destruct (ic_FetchMultiPostings (ic c) blockID lbls') as [hits misses].
  cbn [fst snd]. split; [|split].
  - apply lookup_union_Some_l, lookup_singleton_eq.
  - intros l Hl. apply lookup_union_r. by apply lookup_singleton_ne.
  - apply app_nil_r.
Qed.

(** X13. When the disk store holds a value for the routed label and the
    list names that label, the returned hits map it to the disk value,
    whatever the fallback answers (for a list that names the label more
    than once, the fallback is asked for it as well); for every other
    label the hits are the fallback's, and the misses are the
    fallback's. *)
Theorem FetchMultiPostings_disk_hit c blockID lbls (item : Item (db c)) (val : bytes) :
  coreLabel ∈ lbls →
  txn_Get (db c) (bytes_of_string (cacheKey_string blockID coreLabel)) = inl item →
  ValueCopy (db c) item = inl val →
  let fallback := ic_FetchMultiPostings (ic c) blockID (extractCore lbls).1 in
  let result := FetchMultiPostings cacheKey_string c blockID lbls in
  result.1 !! coreLabel = Some val ∧
  (∀ l, l ≠ coreLabel → result.1 !! l = default ∅ fallback.1 !! l) ∧
  result.2 = fallback.2.
Proof. apply disk_hit_lookup. Qed.

Lemma extractCore_loop_not_found arr (i : nat) todo :
  coreLabel ∉ todo → extractCore_loop arr i todo = (arr, length arr, false).
Proof.
  revert i. induction todo as [|lbl todo IH]; intros i Hnin;
    cbn [extractCore_loop]; [done|].
  apply not_elem_of_cons in Hnin as [Hne Hnin].
  rewrite bool_decide_eq_false_2 by done. by apply IH.
Qed.

Lemma extractCore_loop_found arr (i : nat) pre post :
  coreLabel ∉ pre →
  extractCore_loop arr i (pre ++ coreLabel :: post)
  = (match arr !! (length arr - 1)%nat with
     | Some lst => <[(i + length pre)%nat := lst]> arr
     | None => arr
     end, (length arr - 1)%nat, true).
Proof.
  revert i. induction pre as [|lbl pre IH]; intros i Hnin;
    cbn [app extractCore_loop length].
  - rewrite bool_decide_eq_true_2 by done. by rewrite Nat.add_0_r.
  - apply not_elem_of_cons in Hnin as [Hne Hnin].
    rewrite bool_decide_eq_false_2 by done. rewrite IH by done.
    by replace (Datatypes.S i + length pre)%nat
      with (i + Datatypes.S (length pre))%nat by lia.
Qed.

Lemma list_find_core pre post :
  coreLabel ∉ pre →
  list_find (λ lbl, lbl = coreLabel) (pre ++ coreLabel :: post)
  = Some (length pre, coreLabel).
Proof.
  intros Hnin. apply list_find_Some. split; [|split; [done|]].
  - by rewrite lookup_app_r, Nat.sub_diag by lia.
  - intros j y Hj Hlt Hy. subst y. apply Hnin.
    rewrite lookup_app_l in Hj by done. apply list_elem_of_lookup. by exists j.
Qed.

(** The loop on the caller's array and [extractCore] give [lbls] the
    same content. *)
Lemma extractCore_array_slice lbls :
  extractCore lbls
  = (take (extractCore_array lbls).1.2 (extractCore_array lbls).1.1,
     (extractCore_array lbls).2).
Proof.
  unfold extractCore_array.
  destruct (decide (coreLabel ∈ lbls)) as [Hin|Hnin].
  - apply list_elem_of_split_l in Hin as (pre & post & -> & Hpre).
    rewrite extractCore_loop_found by done. unfold extractCore.
    rewrite list_find_core by done. cbn [fst snd]. cbn [plus].
    by destruct (_ !! _).
  - rewrite extractCore_loop_not_found, extractCore_not_found by done.
    cbn [fst snd]. by rewrite firstn_all.
Qed.

(** X14. The first loop of [FetchMultiPostings] writes to the slice of
    the caller: when the routed label is found before the last position,
    that position of the caller's array is overwritten with the last
    label, so that the array names the last label twice and has lost this
    occurrence of the routed label; the fallback is asked for the array
    without its last position. When the routed label is last, the array
    stays and the fallback is asked for the labels before it. *)
Theorem FetchMultiPostings_overwrites_callers_slice pre post (lst : Label) :
  coreLabel ∉ pre →
  extractCore_array (pre ++ coreLabel :: post ++ [lst])
  = (pre ++ lst :: post ++ [lst], (length pre + Datatypes.S (length post))%nat, true) ∧
  extractCore (pre ++ coreLabel :: post ++ [lst]) = (pre ++ lst :: post, true) ∧
  extractCore_array (pre ++ [coreLabel]) = (pre ++ [coreLabel], length pre, true) ∧
  extractCore (pre ++ [coreLabel]) = (pre, true).
Proof.
  intros Hpre.
  assert (Hins : ∀ (x : Label) rest,
            <[(0 + length pre)%nat := x]> (pre ++ coreLabel :: rest) = pre ++ x :: rest).
  { intros x rest. rewrite insert_app_r_alt by (simpl; lia).
    by replace (0 + length pre - length pre)%nat with 0%nat by lia. }
  assert (H1 : extractCore_array (pre ++ coreLabel :: post ++ [lst])
    = (pre ++ lst :: post ++ [lst], (length pre + Datatypes.S (length post))%nat, true)).
  { unfold extractCore_array. rewrite extractCore_loop_found by done.
    assert (Hlen : (length (pre ++ coreLabel :: post ++ [lst]) - 1
                    = length pre + Datatypes.S (length post))%nat).
    { rewrite length_app. cbn [length]. rewrite length_app. cbn [length]. lia. }
    rewrite Hlen.
    assert (Hlast : (pre ++ coreLabel :: post ++ [lst])
                      !! (length pre + Datatypes.S (length post))%nat = Some lst).
    { replace (pre ++ coreLabel :: post ++ [lst])
        with ((pre ++ coreLabel :: post) ++ lst :: [])
        by (by rewrite <- app_assoc).
      apply list_lookup_middle. rewrite length_app. simpl. lia. }
    by rewrite Hlast, Hins. }
  assert (H2 : extractCore_array (pre ++ [coreLabel]) = (pre ++ [coreLabel], length pre, true)).
  { unfold extractCore_array. rewrite extractCore_loop_found by done.
    assert (Hlen : (length (pre ++ [coreLabel]) - 1 = length pre)%nat).
    { rewrite length_app. cbn [length]. lia. }
    rewrite Hlen, list_lookup_middle by done. by rewrite Hins. }
  split; [done|]. split; [|split; [done|]].
  - rewrite extractCore_array_slice, H1. cbn [fst snd]. f_equal.
    rewrite take_app_ge by lia.
    replace (length pre + Datatypes.S (length post) - length pre)%nat
      with (Datatypes.S (length post)) by lia.
    cbn [take]. by rewrite take_app_length.
  - rewrite extractCore_array_slice, H2. cbn [fst snd]. f_equal.
    by rewrite take_app_length.
Qed.

(** X15. [StorePostings] sends the routed label to the disk store and
    every other label to the fallback, never both. When the disk store
    gives back what was written, a fetch that names the routed label
    after a store of that label returns the stored value as its hit. *)
Theorem StorePostings_then_Fetch c blockID (v v' : bytes) lbls (l : Label) :
  let key := bytes_of_string (cacheKey_string blockID coreLabel) in
  let c' := StorePostings cacheKey_string WriteBatch_Set_Flush c blockID coreLabel v in
  (∃ item, txn_Get (WriteBatch_Set_Flush (db c) key v) key = inl item ∧
           ValueCopy (WriteBatch_Set_Flush (db c) key v) item = inl v) →
  coreLabel ∈ lbls →
  l ≠ coreLabel →
  ic c' = ic c ∧
  (FetchMultiPostings cacheKey_string c' blockID lbls).1 !! coreLabel = Some v ∧
  StorePostings cacheKey_string WriteBatch_Set_Flush c blockID l v'
  = mkBadgerIndexCache (db c) (ic_StorePostings (ic c) blockID l v').
Proof.
  intros key c' (item & Hget & Hcopy) Hin Hl.
  assert (Hc' : c' = mkBadgerIndexCache (WriteBatch_Set_Flush (db c) key v) (ic c)) by done.
  split; [by rewrite Hc'|]. split.
  - rewrite Hc'.
    by apply (disk_hit_lookup
                (mkBadgerIndexCache (WriteBatch_Set_Flush (db c) key v) (ic c))
                blockID lbls item v).
  - unfold StorePostings. destruct l as [n val].
    destruct (decide (n = "app")) as [->|Hn].
    + rewrite bool_decide_eq_true_2 by done.
      rewrite bool_decide_eq_false_2; [done|]. intros Hv. cbn in Hv. by subst.
    + by rewrite bool_decide_eq_false_2.
Qed.

End badger_more.

(** ** Further properties of the remote cache-service backend *)

Section rueidis_more.
Import cacheutil cache.
Context {Client Message : Type} {R : Rueidis Client Message}.
Implicit Types (keys : list string) (resps : list Message).
Implicit Types (results : gmap string bytes).

(** The loop of [GetMulti] over distinct keys: a reply with bytes puts
    them under its own key and no later reply touches that entry; a key
    none of whose replies has bytes keeps what it had; each reply with
    bytes adds one entry. *)
Lemma GetMulti_loop_distinct keys (i : nat) resps results :
  NoDup keys → (i + length resps ≤ length keys)%nat →
  ∃ results',
    GetMulti_loop keys i resps results = Returns results' ∧
    (∀ (j : nat) k resp v,
       keys !! (i + j)%nat = Some k → resps !! j = Some resp →
       reply_bytes resp = Some v → results' !! k = Some v) ∧
    (∀ k, (∀ (j : nat) resp, keys !! (i + j)%nat = Some k → resps !! j = Some resp →
                             reply_bytes resp = None) →
          results' !! k = results !! k) ∧
    ((∀ (j : nat) k, keys !! (i + j)%nat = Some k → results !! k = None) →
     size results' = (size results +
                      length (filter (λ r, is_Some (reply_bytes r)) resps))%nat).
Proof.
  intros Hnd. revert i results.
  induction resps as [|resp resps IH]; intros i results Hlen.
  { exists results. split; [done|]. split; [by intros j k resp v _ Hj|].
    split; [done|]. intros _. simpl. lia. }
  simpl in Hlen. cbn [GetMulti_loop]. unfold reply_bytes in *.
  destruct (ToString resp) as [val|err] eqn:Hval.
  - destruct (lookup_lt_is_Some_2 keys i) as [k0 Hk0]; [lia|]. rewrite Hk0.
    destruct (IH (Datatypes.S i) (<[k0 := stringToBytes val]> results))
      as (r & -> & Ha & Hb & Hc); [lia|].
    assert (Hlater : ∀ (j : nat), keys !! (Datatypes.S i + j)%nat ≠ Some k0).
    { intros j Hj. pose proof (NoDup_lookup _ _ _ _ Hnd Hk0 Hj). lia. }
    exists r. split; [done|]. split; [|split].
    + intros j k resp' v Hk Hr Hv. destruct j as [|j].
      * rewrite Nat.add_0_r in Hk. simpl in Hr. injection Hr as <-.
        rewrite Hval in Hv. injection Hv as <-.
        assert (k = k0) as -> by congruence.
        rewrite Hb; [apply lookup_insert_eq|].
        intros j resp' Hj. by destruct (Hlater j).
      * apply (Ha j k resp' v); [|done|done].
        by replace (Datatypes.S i + j)%nat with (i + Datatypes.S j)%nat by lia.
    + intros k Hk. rewrite Hb.
      * apply lookup_insert_ne. intros <-.
        specialize (Hk 0%nat resp). rewrite Nat.add_0_r, Hval in Hk.
        by specialize (Hk Hk0 eq_refl).
      * intros j resp' Hj Hr. apply (Hk (Datatypes.S j) resp'); [|done].
        by replace (i + Datatypes.S j)%nat with (Datatypes.S i + j)%nat by lia.
    + intros Hfresh. rewrite Hc.
      * rewrite map_size_insert_None.
        2:{ apply (Hfresh 0%nat). by rewrite Nat.add_0_r. }
        rewrite filter_cons_True by (by rewrite Hval). simpl. lia.
      * intros j k Hk. rewrite lookup_insert_ne.
        -- apply (Hfresh (Datatypes.S j)).
           by replace (i + Datatypes.S j)%nat with (Datatypes.S i + j)%nat by lia.
        -- intros <-. by destruct (Hlater j).
  - destruct (IH (Datatypes.S i) results) as (r & -> & Ha & Hb & Hc); [lia|].
    exists r. split; [done|]. split; [|split].
    + intros j k resp' v Hk Hr Hv. destruct j as [|j].
      * simpl in Hr. injection Hr as <-. by rewrite Hval in Hv.
      * apply (Ha j k resp' v); [|done|done].
        by replace (Datatypes.S i + j)%nat with (i + Datatypes.S j)%nat by lia.
    + intros k Hk. apply Hb. intros j resp' Hj Hr.
      apply (Hk (Datatypes.S j) resp'); [|done].
      by replace (i + Datatypes.S j)%nat with (Datatypes.S i + j)%nat by lia.
    + intros Hfresh. rewrite Hc.
      * rewrite filter_cons_False; [done|]. rewrite Hval. by intros [].
      * intros j k Hk. apply (Hfresh (Datatypes.S j)).
        by replace (i + Datatypes.S j)%nat with (Datatypes.S i + j)%nat by lia.
Qed.

(** X16. For distinct keys and a reply to [MGET] that is no longer than
    the key list, [Fetch] returns exactly the replies that have bytes,
    each under the key at its index: a key whose reply has none, or has
    no reply, and a key that was not asked for are absent; the hits
    counter grows by the number of replies with bytes. *)
Theorem Fetch_distinct_keys (c : RueidisCache Client) keys :
  let resps := (DoCache_Mget (redisClient c) keys).2.1 in
  NoDup keys →
  (length resps ≤ length keys)%nat →
  ∃ c' results,
    Fetch c keys = Returns (c', results) ∧
    (∀ (j : nat) k, keys !! j = Some k →
       results !! k = resps !! j ≫= reply_bytes) ∧
    (∀ k, k ∉ keys → results !! k = None) ∧
    hits c' = hits c +
              Z.of_nat (length (filter (λ r, is_Some (reply_bytes r)) resps)).
Proof.
  intros resps Hnd Hlen. unfold Fetch, GetMulti.
  destruct keys as [|k0 keys'].
  { subst resps. destruct ((DoCache_Mget (redisClient c) []).2.1); [|simpl in Hlen; lia].
    eexists _, _. split; [done|]. cbn [hits]. rewrite map_size_empty.
    split; [by intros j k Hj|]. split; [done|]. simpl. lia. }
  set (keys := k0 :: keys') in *. subst resps.
  destruct (DoCache_Mget (redisClient c) keys) as [c' [resps err]].
  cbn [fst snd] in *.
  destruct (GetMulti_loop_distinct keys 0 resps ∅ Hnd) as (r & -> & Ha & Hb & Hc);
    [exact Hlen|].
  eexists _, _. split; [done|]. cbn [hits]. split; [|split].
  - intros j k Hk. destruct (resps !! j) as [resp|] eqn:Hr; cbn.
    + destruct (reply_bytes resp) as [v|] eqn:Hv.
      * by apply (Ha j k resp v).
      * rewrite Hb; [done|]. intros j' resp' Hk' Hr'.
        pose proof (NoDup_lookup _ _ _ _ Hnd Hk Hk'). by simplify_eq/=.
    + rewrite Hb; [done|]. intros j' resp' Hk' Hr'.
      pose proof (NoDup_lookup _ _ _ _ Hnd Hk Hk'). by simplify_eq/=.
  - intros k Hk. rewrite Hb; [done|]. intros j resp Hj.
    destruct Hk. apply list_elem_of_lookup. by exists j.
  - rewrite Hc; [by rewrite map_size_empty|]. done.
Qed.

Lemma GetMulti_loop_panics_iff keys (i : nat) resps results :
  (∃ msg, GetMulti_loop keys i resps results = Panics msg) ↔
  ∃ (j : nat) resp, resps !! j = Some resp ∧ is_Some (reply_bytes resp) ∧
                    (length keys ≤ i + j)%nat.
Proof.
  revert i results. induction resps as [|resp resps IH]; intros i results.
  { split; [by intros [msg ?]|by intros (j & r & ? & _)]. }
  cbn [GetMulti_loop]. unfold reply_bytes in *.
  destruct (ToString resp) as [val|err] eqn:Hval.
  - destruct (keys !! i) as [k|] eqn:Hk.
    + rewrite IH. split.
      * intros (j & r & Hj & Hs & Hle). exists (Datatypes.S j), r.
        split; [done|]. split; [done|]. lia.
      * intros ([|j] & r & Hj & Hs & Hle).
        -- apply lookup_lt_Some in Hk. simpl in Hle. lia.
        -- exists j, r. split; [done|]. split; [done|]. lia.
    + split; [|by eexists]. intros _. exists 0%nat, resp.
      split; [done|]. rewrite Hval. split; [by eexists|].
      apply lookup_ge_None in Hk. lia.
  - rewrite IH. split.
    + intros (j & r & Hj & Hs & Hle). exists (Datatypes.S j), r.
      split; [done|]. split; [done|]. lia.
    + intros ([|j] & r & Hj & Hs & Hle).
      * simpl in Hj. injection Hj as <-. rewrite Hval in Hs. by destruct Hs.
      * exists j, r. split; [done|]. split; [done|]. lia.
Qed.

(** X17. [Fetch] panics (index out of range at [keys[i]]) exactly when
    the key list is not empty and the reply to [MGET] has a reply with
    bytes at an index that the key list does not have; in every other
    case it returns. Replies without bytes beyond the key list are
    skipped. *)
Theorem Fetch_panics_iff (c : RueidisCache Client) keys :
  (∃ msg, Fetch c keys = Panics msg) ↔
  keys ≠ [] ∧
  ∃ (j : nat) resp,
    (DoCache_Mget (redisClient c) keys).2.1 !! j = Some resp ∧
    is_Some (reply_bytes resp) ∧ (length keys ≤ j)%nat.
Proof.
  unfold Fetch, GetMulti. destruct keys as [|k0 keys'].
  { split; [by intros [msg ?]|by intros [? _]]. }
  set (keys := k0 :: keys').
  destruct (DoCache_Mget (redisClient c) keys) as [c' [resps err]]. cbn [fst snd].
  rewrite <- (GetMulti_loop_panics_iff keys 0 resps ∅).
  destruct (GetMulti_loop keys 0 resps ∅) as [r|msg].
  - split; [by intros [msg ?]|by intros (_ & msg & ?)].
  - split; [by intros _; split; [|eexists]|by eexists].
Qed.

(** The loop of [GetMulti] over keys that may repeat: for each key the
    last reply with bytes decides. *)
Lemma GetMulti_loop_last_wins keys (i : nat) resps results :
  (i + length resps ≤ length keys)%nat →
  let last_hit (k : string) (v : bytes) (j : nat) :=
    ∃ resp, keys !! (i + j)%nat = Some k ∧ resps !! j = Some resp ∧
            reply_bytes resp = Some v ∧
            ∀ (j' : nat) resp', (j < j')%nat → keys !! (i + j')%nat = Some k →
                                resps !! j' = Some resp' → reply_bytes resp' = None in
  let no_hit (k : string) :=
    ∀ (j : nat) resp, keys !! (i + j)%nat = Some k → resps !! j = Some resp →
                      reply_bytes resp = None in
  ∃ results',
    GetMulti_loop keys i resps results = Returns results' ∧
    (∀ k v j, last_hit k v j → results' !! k = Some v) ∧
    (∀ k, no_hit k → results' !! k = results !! k) ∧
    (∀ k v, results' !! k = Some v →
       (results !! k = Some v ∧ no_hit k) ∨ ∃ j, last_hit k v j).
Proof.
  revert i results. induction resps as [|resp resps IH]; intros i results Hlen; cbn zeta.
  { exists results. split; [done|]. split; [by intros k v j (resp & _ & ? & _)|].
    split; [done|]. intros k v Hk. left. split; [done|]. by intros j resp _ ?. }
  simpl in Hlen. cbn [GetMulti_loop].
  assert (Hshift : ∀ j : nat, (i + Datatypes.S j)%nat = (Datatypes.S i + j)%nat) by lia.
  destruct (reply_bytes resp) as [v0|] eqn:Hv0.
  - unfold reply_bytes in Hv0. destruct (ToString resp) as [val|err] eqn:Hval; [|done].
    injection Hv0 as <-.
    assert (Hv0 : reply_bytes resp = Some (stringToBytes val))
      by (unfold reply_bytes; by rewrite Hval).
    destruct (lookup_lt_is_Some_2 keys i) as [k0 Hk0]; [lia|]. rewrite Hk0.
    destruct (IH (Datatypes.S i) (<[k0 := stringToBytes val]> results))
      as (r & -> & Ha & Hb & Hc); [lia|]. cbn zeta in Ha, Hb, Hc.
    exists r. split; [done|]. split; [|split].
    + intros k v [|j] (resp' & Hk & Hr & Hv & Hlast).
      * rewrite Nat.add_0_r in Hk. simpl in Hr. injection Hr as <-.
        assert (k = k0) as -> by congruence. assert (v = stringToBytes val) as -> by congruence.
        rewrite Hb; [apply lookup_insert_eq|].
        intros j resp' Hj Hr'. apply (Hlast (Datatypes.S j) resp'); [lia| |done].
        by rewrite Hshift.
      * apply (Ha k v j). exists resp'. rewrite <- Hshift. split; [done|].
        split; [done|]. split; [done|].
        intros j' resp'' Hlt Hj' Hr'. apply (Hlast (Datatypes.S j') resp''); [lia| |done].
        by rewrite Hshift.
    + intros k Hno. rewrite Hb.
      * apply lookup_insert_ne. intros <-.
        specialize (Hno 0%nat resp). rewrite Nat.add_0_r in Hno.
        specialize (Hno Hk0 eq_refl). congruence.
      * intros j resp' Hj Hr'. apply (Hno (Datatypes.S j) resp'); [|done].
        by rewrite Hshift.
    + intros k v Hk. destruct (Hc k v Hk) as [[Hins Hno]|[j (resp' & Hj & Hr & Hv & Hlast)]].
      * apply lookup_insert_Some in Hins as [[<- <-]|[Hne Hin]].
        -- right. exists 0%nat, resp. rewrite Nat.add_0_r. split; [done|].
           split; [done|]. split; [done|].
           intros [|j'] resp' Hlt Hj' Hr'; [lia|].
           apply (Hno j' resp'); [|done]. by rewrite <- Hshift.
        -- left. split; [done|]. intros [|j] resp' Hj Hr'.
           ++ rewrite Nat.add_0_r in Hj. congruence.
           ++ apply (Hno j resp'); [|done]. by rewrite <- Hshift.
      * right. exists (Datatypes.S j), resp'. rewrite Hshift. split; [done|].
        split; [done|]. split; [done|].
        intros [|j'] resp'' Hlt Hj' Hr'; [lia|].
        apply (Hlast j' resp''); [lia| |done]. by rewrite <- Hshift.
  - assert (Hts : ∃ err, ToString resp = inr err).
    { unfold reply_bytes in Hv0. destruct (ToString resp); [done|by eexists]. }
    destruct Hts as [err ->].
    destruct (IH (Datatypes.S i) results) as (r & -> & Ha & Hb & Hc); [lia|].
    cbn zeta in Ha, Hb, Hc.
    exists r. split; [done|]. split; [|split].
    + intros k v [|j] (resp' & Hk & Hr & Hv & Hlast).
      * simpl in Hr. injection Hr as <-. congruence.
      * apply (Ha k v j). exists resp'. rewrite <- Hshift. split; [done|].
        split; [done|]. split; [done|].
        intros j' resp'' Hlt Hj' Hr'. apply (Hlast (Datatypes.S j') resp''); [lia| |done].
        by rewrite Hshift.
    + intros k Hno. apply Hb. intros j resp' Hj Hr'.
      apply (Hno (Datatypes.S j) resp'); [|done]. by rewrite Hshift.
    + intros k v Hk. destruct (Hc k v Hk) as [[Hin Hno]|[j (resp' & Hj & Hr & Hv & Hlast)]].
      * left. split; [done|]. intros [|j] resp' Hj Hr'.
        -- simpl in Hr'. injection Hr' as <-. done.
        -- apply (Hno j resp'); [|done]. by rewrite <- Hshift.
      * right. exists (Datatypes.S j), resp'. rewrite Hshift. split; [done|].
        split; [done|]. split; [done|].
        intros [|j'] resp'' Hlt Hj' Hr'; [lia|].
        apply (Hlast j' resp''); [lia| |done]. by rewrite <- Hshift.
Qed.

(** X18. When keys repeat in the list, the last reply with bytes decides:
    for a reply to [MGET] that is no longer than the key list, the map
    that [Fetch] returns holds [v] under [k] exactly when [v] are the
    bytes of a reply at an index of [k] after which no reply at an index
    of [k] has bytes. *)
Theorem Fetch_last_reply_wins (c : RueidisCache Client) keys :
  let resps := (DoCache_Mget (redisClient c) keys).2.1 in
  (length resps ≤ length keys)%nat →
  ∃ c' results,
    Fetch c keys = Returns (c', results) ∧
    ∀ k v, results !! k = Some v ↔
      ∃ (j : nat) resp,
        keys !! j = Some k ∧ resps !! j = Some resp ∧ reply_bytes resp = Some v ∧
        ∀ (j' : nat) resp', (j < j')%nat → keys !! j' = Some k →
                            resps !! j' = Some resp' → reply_bytes resp' = None.
Proof.
  intros resps Hlen. unfold Fetch, GetMulti.
  destruct keys as [|k0 keys'].
  { eexists _, _. split; [done|]. intros k v. rewrite lookup_empty.
    split; [done|]. by intros (j & resp & ? & _). }
  set (keys := k0 :: keys') in *. subst resps.
  destruct (DoCache_Mget (redisClient c) keys) as [c' [resps err]].
  cbn [fst snd] in *.
  destruct (GetMulti_loop_last_wins keys 0 resps ∅ Hlen) as (r & -> & Ha & _ & Hc).
  cbn zeta in Ha, Hc. eexists _, _. split; [done|]. intros k v. split.
  - intros Hk. destruct (Hc k v Hk) as [[Hin _]|[j (resp & ?)]].
    + by rewrite lookup_empty in Hin.
    + by exists j, resp.
  - intros (j & resp & Hj). apply (Ha k v j). by exists resp.
Qed.

End rueidis_more.

(** ** Reference adjusters and the lookup table builder *)

Section adjusters.
Import store.

Lemma eachStore_bounds (storeCount : Z) :
  0 < storeCount ≤ MaxUint64 →
  1 ≤ MaxUint64 `div` storeCount ∧
  (MaxUint64 `div` storeCount) * storeCount ≤ MaxUint64.
Proof.
  intros Hc. split.
  - apply Z.div_le_lower_bound; lia.
  - rewrite Z.mul_comm. apply Z.mul_div_le. lia.
Qed.

Lemma adjusterFn_exact (storeCount storeIndex ref : Z) :
  0 < storeCount ≤ MaxUint64 → 0 ≤ storeIndex < storeCount →
  let eachStore := MaxUint64 `div` storeCount in
  adjusterFn eachStore storeIndex ref
  = Returns (eachStore * storeIndex + ref `mod` eachStore) ∧
  eachStore * storeIndex ≤ eachStore * storeIndex + ref `mod` eachStore
    < eachStore * (storeIndex + 1) ∧
  eachStore * (storeIndex + 1) ≤ MaxUint64.
Proof.
  intros Hc Hi eachStore.
  destruct (eachStore_bounds storeCount Hc) as [H1 Hmul]. fold eachStore in H1, Hmul.
  pose proof (Z.mod_pos_bound ref eachStore ltac:(lia)) as Hmod.
  assert (Hup : eachStore * (storeIndex + 1) ≤ MaxUint64) by nia.
  split; [|split; [nia|done]].
  unfold adjusterFn. rewrite bool_decide_eq_false_2 by lia.
  unfold uint64, MaxUint64 in *. f_equal.
  rewrite (Z.mod_small (eachStore * storeIndex)) by nia.
  apply Z.mod_small. nia.
Qed.

(** X19. For a store count that is not zero, the factory and its
    adjusters return without a division by zero, and the adjuster of a
    store index below the count maps every reference into that store's
    range [[eachStore * index, eachStore * (index + 1))], whose end is
    within [uint64]: nothing wraps around. *)
Theorem adjuster_in_store_range (storeCount storeIndex ref : Z) :
  0 < storeCount ≤ MaxUint64 → 0 ≤ storeIndex < storeCount →
  ∃ factory eachStore a,
    NewReferenceAdjusterFactory storeCount = Returns factory ∧
    maxStringsPerStore storeCount = Returns eachStore ∧ 1 ≤ eachStore ∧
    factory storeIndex ref = Returns a ∧
    a = eachStore * storeIndex + ref `mod` eachStore ∧
    eachStore * storeIndex ≤ a < eachStore * (storeIndex + 1) ∧
    eachStore * (storeIndex + 1) ≤ MaxUint64.
Proof.
  intros Hc Hi.
  destruct (adjusterFn_exact storeCount storeIndex ref Hc Hi) as (Ha & Hr & Hup).
  destruct (eachStore_bounds storeCount Hc) as [H1 _].
  unfold NewReferenceAdjusterFactory, maxStringsPerStore.
  rewrite bool_decide_eq_false_2 by lia.
  by eexists _, _, _.
Qed.

(** X20. Two adjusted references from one factory are equal exactly when
    they come from the same store and the references are congruent
    modulo the size of a store's range: stores never collide, and within
    a store two references collide exactly when they differ by a
    multiple of that size. *)
Theorem adjusted_refs_equal_iff (storeCount i1 i2 r1 r2 : Z) factory a1 a2 :
  0 < storeCount ≤ MaxUint64 → 0 ≤ i1 < storeCount → 0 ≤ i2 < storeCount →
  NewReferenceAdjusterFactory storeCount = Returns factory →
  factory i1 r1 = Returns a1 → factory i2 r2 = Returns a2 →
  a1 = a2 ↔
  i1 = i2 ∧ r1 `mod` (MaxUint64 `div` storeCount) = r2 `mod` (MaxUint64 `div` storeCount).
Proof.
  intros Hc Hi1 Hi2 Hf H1 H2.
  unfold NewReferenceAdjusterFactory, maxStringsPerStore in Hf.
  rewrite bool_decide_eq_false_2 in Hf by lia. injection Hf as <-.
  destruct (adjusterFn_exact storeCount i1 r1 Hc Hi1) as (Ha1 & Hr1 & _).
  destruct (adjusterFn_exact storeCount i2 r2 Hc Hi2) as (Ha2 & Hr2 & _).
  rewrite Ha1 in H1. rewrite Ha2 in H2. injection H1 as <-. injection H2 as <-.
  destruct (eachStore_bounds storeCount Hc) as [He _].
  set (e := MaxUint64 `div` storeCount) in *.
  split.
  - intros Heq. assert (i1 = i2) as -> by nia. split; [done|lia].
  - intros [-> ->]. done.
Qed.

End adjusters.

Section builder.
Import store.
Implicit Types (b : LookupTableBuilder) (s : string) (ss : list string).

Lemma NewLookupTableBuilder_consistent (maxElements : Z) :
  0 ≤ maxElements ≤ MaxUint64 → consistent (NewLookupTableBuilder maxElements).
Proof.
  intros Hm. unfold consistent, NewLookupTableBuilder. cbn.
  split; [lia|]. split; [lia|]. split; [|split].
  - intros n s. by rewrite !lookup_empty.
  - intros n. rewrite lookup_empty. split; [by intros []|lia].
  - by rewrite !map_size_empty.
Qed.

(** One call of [PutString] on a consistent builder. *)
Lemma PutString_step b s :
  consistent b →
  let '(b', (n, err)) := PutString b s in
  consistent b' ∧ maxElements b' = maxElements b ∧ table b ⊆ table b' ∧
  (err = None → table b' !! n = Some s) ∧
  (err = None ↔ current b < maxElements b) ∧
  (err ≠ None → b' = b ∧ n = 0 ∧ err = Some MaxElementsReached) ∧
  dom (reverseTable b') =
    (if bool_decide (current b < maxElements b)
     then {[ s ]} ∪ dom (reverseTable b) else dom (reverseTable b) : gset string).
Proof.
  intros Hb. pose proof Hb as (Hcur & Hmax & Hinv & Hdense & Hsize & Hsize').
  unfold PutString. case_bool_decide as Hfull.
  { rewrite bool_decide_eq_false_2 by lia.
    split; [done|]. split; [done|]. split; [done|].
    split; [done|]. split; [split; [done|lia]|]. done. }
  rewrite bool_decide_eq_true_2 by lia.
  destruct (reverseTable b !! s) as [num|] eqn:Hs.
  { split; [done|]. split; [done|]. split; [done|].
    split; [by intros _; apply Hinv|]. split; [split; [lia|done]|].
    split; [done|]. apply set_eq. intros x. rewrite elem_of_union, elem_of_singleton.
    split; [by right|]. intros [->|?]; [|done]. apply elem_of_dom. by eexists. }
  assert (Hfresh : table b !! current b = None).
  { apply eq_None_not_Some. rewrite Hdense. lia. }
  assert (Hw : uint64 (current b + 1) = current b + 1).
  { unfold uint64, MaxUint64 in *. apply Z.mod_small. lia. }
  cbn [current]. rewrite Hw.
  replace (uint64 (current b + 1 - 1)) with (current b).
  2:{ unfold uint64, MaxUint64 in *. rewrite Z.mod_small; lia. }
  split; [|split; [done|split; [by apply insert_subseteq|]]].
  - unfold consistent. cbn. split; [lia|]. split; [done|]. split; [|split].
    + intros n s'.
      destruct (decide (n = current b)) as [->|Hn], (decide (s' = s)) as [->|Hs'].
      * by rewrite !lookup_insert_eq.
      * rewrite lookup_insert_eq, lookup_insert_ne by done.
        rewrite <- Hinv, Hfresh. split; [by intros [= ->]|done].
      * rewrite lookup_insert_ne, lookup_insert_eq by done.
        rewrite Hinv, Hs. split; [done|intros [= Heq]; by destruct Hn].
      * rewrite !lookup_insert_ne by done. apply Hinv.
    + intros n. destruct (decide (n = current b)) as [->|Hn].
      * rewrite lookup_insert_eq. split; [lia|by eexists].
      * rewrite lookup_insert_ne by done. rewrite Hdense. lia.
    + rewrite !map_size_insert_None by done. lia.
  - split; [by intros _; apply lookup_insert_eq|]. split; [split; [lia|done]|].
    split; [done|]. cbn. by rewrite dom_insert_L.
Qed.

(** A run of [PutString] calls on a consistent builder. *)
Lemma PutStrings_run b ss :
  consistent b →
  let '(b', rs) := PutStrings b ss in
  consistent b' ∧ maxElements b' = maxElements b ∧ table b ⊆ table b' ∧
  length rs = length ss ∧
  (∀ (j : nat) s n, ss !! j = Some s → rs !! j = Some (n, None) →
                    table b' !! n = Some s).
Proof.
  revert b. induction ss as [|s ss IH]; intros b Hb; cbn [PutStrings].
  { split; [done|]. split; [done|]. split; [done|]. split; [done|]. by intros j s n Hj. }
  pose proof (PutString_step b s Hb) as Hstep.
  destruct (PutString b s) as [b1 [n err]].
  destruct Hstep as (Hb1 & Hmax1 & Hsub1 & Hn & _).
  specialize (IH b1 Hb1). destruct (PutStrings b1 ss) as [b2 rs].
  destruct IH as (Hb2 & Hmax2 & Hsub2 & Hlen & Hrs).
  split; [done|]. split; [congruence|]. split; [by etrans|].
  split; [simpl; lia|].
  intros [|j] s' n' Hj Hr; simpl in *.
  - injection Hj as <-. injection Hr as <- ->.
    eapply lookup_weaken; [|done]. by apply Hn.
  - by eapply Hrs.
Qed.

(** X21. Whatever strings are put into a new builder, in whatever order,
    the table and the reverse table stay inverse to each other, the
    numbers in use are exactly those below the counter, the table has as
    many entries as the counter says, and the counter never passes the
    limit. *)
Theorem PutStrings_consistent (maxElements : Z) ss :
  0 ≤ maxElements ≤ MaxUint64 →
  let b := (PutStrings (NewLookupTableBuilder maxElements) ss).1 in
  0 ≤ current b ≤ maxElements ∧
  (∀ n s, GetTable b !! n = Some s ↔ reverseTable b !! s = Some n) ∧
  (∀ n, is_Some (GetTable b !! n) ↔ 0 ≤ n < current b) ∧
  Z.of_nat (size (GetTable b)) = current b.
Proof.
  intros Hm b.
  pose proof (PutStrings_run (NewLookupTableBuilder maxElements) ss
                (NewLookupTableBuilder_consistent _ Hm)) as Hrun.
  subst b. destruct (PutStrings _ ss) as [b rs]. cbn [fst].
  destruct Hrun as ((Hcur & Hmax & Hinv & Hdense & Hsize & _) & Hmax' & _).
  cbn in Hmax'. rewrite Hmax' in Hcur. by unfold GetTable.
Qed.

(** X22. A number that [PutString] returned without error stands for the
    string it was returned for, in the table as it is after any further
    calls: entries of the table are never overwritten or removed. *)
Theorem PutStrings_GetTable (maxElements : Z) ss (j : nat) s (n : Z) :
  0 ≤ maxElements ≤ MaxUint64 →
  ss !! j = Some s →
  (PutStrings (NewLookupTableBuilder maxElements) ss).2 !! j = Some (n, None) →
  GetTable (PutStrings (NewLookupTableBuilder maxElements) ss).1 !! n = Some s.
Proof.
  intros Hm Hj Hr.
  pose proof (PutStrings_run (NewLookupTableBuilder maxElements) ss
                (NewLookupTableBuilder_consistent _ Hm)) as Hrun.
  destruct (PutStrings _ ss) as [b rs]. cbn [fst snd] in *.
  destruct Hrun as (_ & _ & _ & _ & Hrs). by apply (Hrs j).
Qed.

(** X23. Among the calls of a run that returned without error, two
    returned the same number exactly when they were given the same
    string. *)
Theorem PutStrings_numbers_identify_strings (maxElements : Z) ss
    (j1 j2 : nat) s1 s2 (n1 n2 : Z) :
  0 ≤ maxElements ≤ MaxUint64 →
  let rs := (PutStrings (NewLookupTableBuilder maxElements) ss).2 in
  ss !! j1 = Some s1 → rs !! j1 = Some (n1, None) →
  ss !! j2 = Some s2 → rs !! j2 = Some (n2, None) →
  n1 = n2 ↔ s1 = s2.
Proof.
  intros Hm rs Hj1 Hr1 Hj2 Hr2. subst rs.
  pose proof (PutStrings_run (NewLookupTableBuilder maxElements) ss
                (NewLookupTableBuilder_consistent _ Hm)) as Hrun.
  destruct (PutStrings _ ss) as [b rs]. cbn [fst snd] in *.
  destruct Hrun as ((_ & _ & Hinv & _) & _ & _ & _ & Hrs).
  pose proof (Hrs j1 s1 n1 Hj1 Hr1) as H1.
  pose proof (Hrs j2 s2 n2 Hj2 Hr2) as H2.
  split.
  - intros ->. congruence.
  - intros ->. apply Hinv in H1, H2. congruence.
Qed.

Lemma PutStrings_current_from b ss :
  consistent b →
  current (PutStrings b ss).1
  = Z.min (maxElements b)
          (Z.of_nat (size (dom (reverseTable b) ∪ list_to_set ss : gset string))).
Proof.
  revert b. induction ss as [|s ss IH]; intros b Hb; cbn [PutStrings list_to_set].
  { cbn [fst]. rewrite (right_id_L ∅ (∪)), size_dom.
    destruct Hb as (Hcur & _ & _ & _ & _ & ->). lia. }
  pose proof (PutString_step b s Hb) as Hstep.
  destruct (PutString b s) as [b1 [n err]].
  destruct Hstep as (Hb1 & Hmax1 & _ & _ & _ & Herr & Hdom).
  specialize (IH b1 Hb1). destruct (PutStrings b1 ss) as [b2 rs]. cbn [fst] in *.
  rewrite IH, Hmax1, Hdom. case_bool_decide as Hfull.
  - do 3 f_equal. by rewrite (comm_L (∪) {[ s ]}), (assoc_L (∪)).
  - destruct Hb as (Hcur & _ & _ & _ & _ & Hsize).
    assert (Hle : ∀ X : gset string,
              current b ≤ Z.of_nat (size (dom (reverseTable b) ∪ X))).
    { intros X. rewrite <- Hsize, <- size_dom. apply inj_le, subseteq_size.
      apply union_subseteq_l. }
    pose proof (Hle (list_to_set ss)). pose proof (Hle ({[ s ]} ∪ list_to_set ss)).
    lia.
Qed.

(** X24. After a run on a new builder the counter is the number of
    distinct strings of the run, or the limit if that is smaller; a
    builder that has reached its limit refuses every string, also one it
    holds, with [MaxElementsReached], and stays as it is. *)
Theorem PutStrings_current (maxElements : Z) ss s :
  0 ≤ maxElements ≤ MaxUint64 →
  let b := (PutStrings (NewLookupTableBuilder maxElements) ss).1 in
  let distinct := Z.of_nat (size (list_to_set ss : gset string)) in
  current b = Z.min maxElements distinct ∧
  (maxElements ≤ distinct → PutString b s = (b, (0, Some MaxElementsReached))).
Proof.
  intros Hm b distinct.
  pose proof (PutStrings_current_from (NewLookupTableBuilder maxElements) ss
                (NewLookupTableBuilder_consistent _ Hm)) as Hcur.
  pose proof (PutStrings_run (NewLookupTableBuilder maxElements) ss
                (NewLookupTableBuilder_consistent _ Hm)) as Hrun.
  fold b in Hcur. cbn [reverseTable NewLookupTableBuilder store.maxElements] in Hcur.
  rewrite dom_empty_L, (left_id_L ∅ (∪)) in Hcur. fold distinct in Hcur.
  split; [done|]. intros Hfull. unfold PutString.
  destruct (PutStrings _ ss) as [b' rs]. cbn [fst] in b. subst b.
  destruct Hrun as (_ & Hmax & _). cbn in Hmax.
  rewrite bool_decide_eq_true_2; [done|]. lia.
Qed.

End builder.

(** ** The further properties on the small instance *)

Lemma splitMethodName_first_slash_witness :
  grpccache.splitMethodName "/thanos.Store/Series/x" = ("thanos.Store", "Series/x") ∧
  grpccache.splitMethodName "thanos.Store/Series/x" = ("thanos.Store", "Series/x") ∧
  grpccache.splitMethodName "Series" = ("unknown", "unknown") ∧
  grpccache.splitMethodName "/Series" = ("unknown", "unknown").
Proof.
  destruct (splitMethodName_first_slash "thanos.Store" "Series/x" "Series")
    as (H1 & H2 & H3 & H4).
  - vm_compute. intros H. repeat (apply elem_of_cons in H as [H|H]; [discriminate H|]).
    by apply elem_of_nil in H.
  - vm_compute. intros H. repeat (apply elem_of_cons in H as [H|H]; [discriminate H|]).
    by apply elem_of_nil in H.
  - split; [exact H1|]. split; [apply H2; discriminate|]. split; [exact H3|exact H4].
Defined.

Section interceptor_more_witnesses.
Import grpccache.
Local Existing Instances instance.storepb instance.xxhash instance.script.

Import instance.

Lemma getResponses_result_witness :
  ∃ w', getResponses F world_later = Returns (inl [5%nat; 6%nat], w') ∧
        next w' = 7%nat ∧
        (∃ data, cache world_later !! indexKey F 1 = Some data ∧
                 SeriesResponse_Unmarshal data = Some (heap w' 6%nat)) ∧
        heap w' 2%nat = heap world_later 2%nat.
Proof.
  assert (Hg : getResponses F world_later
               = Returns (inl [5%nat; 6%nat],
                          mkWorld (<[6%nat := msg "b"]> (<[5%nat := msg "a"]> (λ _, msg "")))
                            7%nat (InMemoryCache_Store ∅ entry) [] 0%nat
                            [EvFetch [numKeysKey F];
                             EvFetch [indexKey F 0; indexKey F 1]]))
    by (vm_compute; reflexivity).
  destruct (getResponses_result F world_later [5%nat; 6%nat] _ Hg)
    as (_ & Hnext & _ & Hdata & Hold & _).
  eexists. split; [exact Hg|]. split; [exact Hnext|].
  split; [apply (Hdata 1%nat); reflexivity|]. apply Hold. cbn. lia.
Defined.

Lemma lookup_after_store_witness :
  ∃ w', getResponses F world_later = Returns (inl [5%nat; 6%nat], w') ∧
        heap w' <$> [5%nat; 6%nat] = [msg "a"; msg "b"] ∧
        cache w' = cache world_later.
Proof.
  apply (lookup_after_store F [0%nat; 1%nat] world_recording
           (mkWorld recorded 2%nat (InMemoryCache_Store ∅ entry) [] 0%nat
              [EvStore entry ttl_5min]) world_later).
  - intros r. apply (f_equal Some), string_of_list_byte_of_string.
  - vm_compute. discriminate.
  - reflexivity.
  - intros k _. reflexivity.
Defined.

Lemma replay_exhausted_EOF_witness :
  run_interceptor (mkInterceptor tgt F [] true)
    [OpRecvMsg (PtrSeriesResponse 0); OpRecvMsg (OtherValue 1)]
    (instance.world [RecvOK (msg "a")])
  = Returns ((mkInterceptor tgt F [] true,
              [(Some io_EOF, Some (msg "")); (Some io_EOF, None)]),
             instance.world [RecvOK (msg "a")]).
Proof.
  apply (replay_exhausted_EOF (mkInterceptor tgt F [] true)
           [PtrSeriesResponse 0; OtherValue 1] (instance.world [RecvOK (msg "a")]));
    [discriminate | reflexivity | reflexivity].
Defined.

Lemma same_destination_stores_last_witness :
  ∃ i2 last w2 batch,
    run_interceptor (mkInterceptor tgt F [] false)
      [OpRecvMsg (PtrSeriesResponse 0); OpRecvMsg (PtrSeriesResponse 0);
       OpRecvMsg (PtrSeriesResponse 0)]
      (instance.world [RecvOK (msg "a"); RecvOK (msg "b")])
    = Returns ((i2, [(None, Some (msg "a")); (None, Some (msg "b"));
                     (Some io_EOF, last)]), w2) ∧
    cache w2 = InMemoryCache_Store ∅ batch ∧
    batch !! numKeysKey F = Some (bytes_of_string "2") ∧
    batch !! indexKey F 0 = Some (SeriesResponse_Marshal (msg "b")) ∧
    batch !! indexKey F 1 = Some (SeriesResponse_Marshal (msg "b")).
Proof.
  destruct (same_destination_stores_last (mkInterceptor tgt F [] false) 0%nat
              [msg "a"] (msg "b") (PtrSeriesResponse 0)
              (instance.world [RecvOK (msg "a"); RecvOK (msg "b")]))
    as (i2 & last & w2 & batch & Hrun & Hcache & Hnum & Hidx);
    [discriminate | reflexivity | reflexivity | reflexivity |].
  exists i2, last, w2, batch. split; [exact Hrun|]. split; [exact Hcache|].
  split; [exact Hnum|]. split; apply Hidx; cbn; lia.
Defined.

Lemma record_then_replay_witness :
  ∃ i1 obs1 w1,
    run_interceptor (mkInterceptor tgt "" [] false)
      [OpSendMsg (PtrSeriesRequest req);
       OpRecvMsg (PtrSeriesResponse 0); OpRecvMsg (PtrSeriesResponse 1);
       OpRecvMsg (PtrSeriesResponse 2)]
      (instance.world [RecvOK (msg "a"); RecvOK (msg "b")])
    = Returns ((i1, obs1), w1) ∧
    ∃ i2 last w2,
      run_interceptor (mkInterceptor tgt "" [] false)
        [OpSendMsg (PtrSeriesRequest req);
         OpRecvMsg (PtrSeriesResponse 10); OpRecvMsg (PtrSeriesResponse 11);
         OpRecvMsg (PtrSeriesResponse 12)]
        (mkWorld (λ _, msg "") 5%nat (cache w1) [] 0%nat [])
      = Returns ((i2, [(None, None); (None, Some (msg "a")); (None, Some (msg "b"));
                       (Some io_EOF, last)]), w2) ∧
      stream w2 = [] ∧
      events w2 = [EvFetch [numKeysKey F]; EvFetch [indexKey F 0; indexKey F 1];
                   EvSendMsg (PtrSeriesRequest req)] ∧
      cachedCalls w2 = 1%nat.
Proof.
  destruct (record_then_replay tgt req [0%nat; 1%nat] [10%nat; 11%nat]
              [msg "a"; msg "b"] (PtrSeriesResponse 2) (PtrSeriesResponse 12)
              (instance.world [RecvOK (msg "a"); RecvOK (msg "b")])
              (λ _, msg "") 5%nat [] 0%nat [])
    as (i1 & obs1 & w1 & Hrun1 & i2 & last & w2 & Hrun2 & Hs & He & Hc).
  - intros r. apply (f_equal Some), string_of_list_byte_of_string.
  - reflexivity.
  - reflexivity.
  - discriminate.
  - apply NoDup_cons_2; [|apply NoDup_singleton].
    intros Hin%list_elem_of_singleton. discriminate Hin.
  - vm_compute. discriminate.
  - reflexivity.
  - intros d Hd Hr. cbn in Hd, Hr.
    apply elem_of_cons in Hd as [->|Hd%list_elem_of_singleton];
      apply elem_of_cons in Hr as [Hr|Hr%list_elem_of_singleton]; subst;
      discriminate.
  - exists i1, obs1, w1. split; [exact Hrun1|]. exists i2, last, w2.
    split; [exact Hrun2|]. split; [exact Hs|]. split; [exact He|exact Hc].
Defined.

Lemma recording_is_transparent_witness :
  ∃ i' obs w' wu',
    run_interceptor (mkInterceptor tgt F [] false)
      [OpRecvMsg (PtrSeriesResponse 0); OpRecvMsg (OtherValue 1)]
      (instance.world [RecvOK (msg "a")])
    = Returns ((i', obs), w') ∧
    run_stream [OpRecvMsg (PtrSeriesResponse 0); OpRecvMsg (OtherValue 1)]
      (instance.world [RecvOK (msg "a")])
    = Returns (obs, wu') ∧
    heap w' = heap wu' ∧ stream w' = stream wu' ∧ cachedCalls w' = 0%nat ∧
    cachedResponsesAvailable i' = false ∧ hashedReq i' = F.
Proof.
  apply (recording_is_transparent (mkInterceptor tgt F [] false)
           [PtrSeriesResponse 0; OtherValue 1] (instance.world [RecvOK (msg "a")])).
  reflexivity.
Defined.

End interceptor_more_witnesses.

Lemma FetchMultiPostings_without_core_witness :
  storecache.FetchMultiPostings (ICI := instance.empty_ic) instance.cacheKey_string
    (storecache.mkBadgerIndexCache (instance.db_failing "disk full") tt) 7%nat
    [storecache.mkLabel "job" "api"]
  = (∅, [storecache.mkLabel "job" "api"]).
Proof.
  apply (FetchMultiPostings_without_core (ICI := instance.empty_ic)
           instance.cacheKey_string
           (storecache.mkBadgerIndexCache (instance.db_failing "disk full") tt) 7%nat
           [storecache.mkLabel "job" "api"]).
  intros Hin%list_elem_of_singleton. discriminate Hin.
Defined.

Lemma FetchMultiPostings_disk_hit_witness :
  (storecache.FetchMultiPostings (ICI := instance.empty_ic) instance.cacheKey_string
     (storecache.mkBadgerIndexCache (instance.db_holding [Byte.x01]) tt) 7%nat
     [storecache.coreLabel; storecache.mkLabel "job" "api"]).1 !! storecache.coreLabel
  = Some [Byte.x01] ∧
  (storecache.FetchMultiPostings (ICI := instance.empty_ic) instance.cacheKey_string
     (storecache.mkBadgerIndexCache (instance.db_holding [Byte.x01]) tt) 7%nat
     [storecache.coreLabel; storecache.mkLabel "job" "api"]).2
  = [storecache.mkLabel "job" "api"].
Proof.
  destruct (FetchMultiPostings_disk_hit (ICI := instance.empty_ic)
              instance.cacheKey_string
              (storecache.mkBadgerIndexCache (instance.db_holding [Byte.x01]) tt) 7%nat
              [storecache.coreLabel; storecache.mkLabel "job" "api"] tt [Byte.x01])
    as (Hhit & _ & Hmiss).
  - apply list_elem_of_here.
  - reflexivity.
  - reflexivity.
  - split; [exact Hhit|]. rewrite Hmiss. vm_compute. reflexivity.
Defined.

Lemma FetchMultiPostings_overwrites_callers_slice_witness :
  storecache.extractCore_array
    [storecache.mkLabel "job" "api"; storecache.coreLabel; storecache.mkLabel "env" "prod"]
  = ([storecache.mkLabel "job" "api"; storecache.mkLabel "env" "prod";
      storecache.mkLabel "env" "prod"], 2%nat, true) ∧
  storecache.extractCore
    [storecache.mkLabel "job" "api"; storecache.coreLabel; storecache.mkLabel "env" "prod"]
  = ([storecache.mkLabel "job" "api"; storecache.mkLabel "env" "prod"], true) ∧
  storecache.extractCore_array [storecache.mkLabel "job" "api"; storecache.coreLabel]
  = ([storecache.mkLabel "job" "api"; storecache.coreLabel], 1%nat, true) ∧
  storecache.extractCore [storecache.mkLabel "job" "api"; storecache.coreLabel]
  = ([storecache.mkLabel "job" "api"], true).
Proof.
  apply (FetchMultiPostings_overwrites_callers_slice
           [storecache.mkLabel "job" "api"] [] (storecache.mkLabel "env" "prod")).
  intros Hin%list_elem_of_singleton. discriminate Hin.
Defined.

Lemma StorePostings_then_Fetch_witness :
  storecache.ic
    (storecache.StorePostings (ICS := instance.empty_ic_store) instance.cacheKey_string
       instance.db_write (storecache.mkBadgerIndexCache instance.db_empty tt) 7%nat
       storecache.coreLabel [Byte.x01]) = tt ∧
  (storecache.FetchMultiPostings (ICI := instance.empty_ic) instance.cacheKey_string
     (storecache.StorePostings (ICS := instance.empty_ic_store) instance.cacheKey_string
        instance.db_write (storecache.mkBadgerIndexCache instance.db_empty tt) 7%nat
        storecache.coreLabel [Byte.x01])
     7%nat [storecache.coreLabel]).1 !! storecache.coreLabel = Some [Byte.x01] ∧
  storecache.StorePostings (ICS := instance.empty_ic_store) instance.cacheKey_string
    instance.db_write (storecache.mkBadgerIndexCache instance.db_empty tt) 7%nat
    (storecache.mkLabel "job" "api") [Byte.x02]
  = storecache.mkBadgerIndexCache instance.db_empty tt.
Proof.
  apply (StorePostings_then_Fetch (ICI := instance.empty_ic)
           (ICS := instance.empty_ic_store) instance.cacheKey_string instance.db_write
           (storecache.mkBadgerIndexCache instance.db_empty tt) 7%nat
           [Byte.x01] [Byte.x02] [storecache.coreLabel] (storecache.mkLabel "job" "api")).
  - exists (inl [Byte.x01]). split; reflexivity.
  - apply list_elem_of_here.
  - discriminate.
Defined.

Lemma Fetch_distinct_keys_witness :
  ∃ c' results,
    cache.Fetch (R := instance.redis)
      (cache.mkRueidisCache ({["a" := "1"; "c" := "3"]} : gmap string string) 10 4)
      ["a"; "b"; "c"]
    = Returns (c', results) ∧
    results !! "a" = Some (bytes_of_string "1") ∧
    results !! "b" = None ∧
    results !! "d" = None ∧
    cache.hits c' = 6.
Proof.
  destruct (Fetch_distinct_keys (R := instance.redis)
              (cache.mkRueidisCache ({["a" := "1"; "c" := "3"]} : gmap string string) 10 4)
              ["a"; "b"; "c"])
    as (c' & results & Heq & Hkeys & Hother & Hhits).
  - apply NoDup_cons_2.
    { intros Hin. apply elem_of_cons in Hin as [Hin|Hin%list_elem_of_singleton];
        discriminate Hin. }
    apply NoDup_cons_2; [|apply NoDup_singleton].
    intros Hin%list_elem_of_singleton. discriminate Hin.
  - cbn. lia.
  - exists c', results. split; [exact Heq|].
    split; [exact (Hkeys 0%nat "a" eq_refl)|].
    split; [exact (Hkeys 1%nat "b" eq_refl)|].
    split; [|exact Hhits].
    apply Hother. intros Hin.
    repeat (apply elem_of_cons in Hin as [Hin|Hin]; [discriminate Hin|]).
    by apply elem_of_nil in Hin.
Defined.

Lemma Fetch_last_reply_wins_witness :
  ∃ c' results,
    cache.Fetch (R := instance.redis)
      (cache.mkRueidisCache ({["a" := "1"]} : gmap string string) 0 0) ["a"; "b"; "a"]
    = Returns (c', results) ∧
    results !! "a" = Some (bytes_of_string "1") ∧
    results !! "b" = None.
Proof.
  destruct (Fetch_last_reply_wins (R := instance.redis)
              (cache.mkRueidisCache ({["a" := "1"]} : gmap string string) 0 0)
              ["a"; "b"; "a"])
    as (c' & results & Heq & Hres).
  - cbn. lia.
  - exists c', results. split; [exact Heq|]. split.
    + apply Hres. exists 2%nat, (Some "1"). split; [reflexivity|].
      split; [reflexivity|]. split; [reflexivity|].
      intros [|[|[|j']]] resp' Hlt Hj'; (lia || discriminate Hj').
    + apply eq_None_not_Some. intros [v Hv].
      apply Hres in Hv as (j & resp & Hj & Hr & Hb & _).
      destruct j as [|[|[|j]]]; try discriminate Hj.
      cbn in Hr. injection Hr as <-. discriminate Hb.
Defined.

Lemma adjuster_in_store_range_witness :
  ∃ factory eachStore a,
    store.NewReferenceAdjusterFactory 4 = Returns factory ∧
    store.maxStringsPerStore 4 = Returns eachStore ∧ 1 ≤ eachStore ∧
    factory 1 4611686018427387910 = Returns a ∧
    a = eachStore * 1 + 4611686018427387910 `mod` eachStore ∧
    eachStore * 1 ≤ a < eachStore * (1 + 1) ∧
    eachStore * (1 + 1) ≤ store.MaxUint64.
Proof.
  apply (adjuster_in_store_range 4 1 4611686018427387910);
    unfold store.MaxUint64; lia.
Defined.

Lemma adjusted_refs_equal_iff_witness :
  store.adjusterFn (store.MaxUint64 `div` 4) 1 7 = Returns 4611686018427387910 ∧
  store.adjusterFn (store.MaxUint64 `div` 4) 1 4611686018427387910
  = Returns 4611686018427387910 ∧
  7 `mod` (store.MaxUint64 `div` 4)
  = 4611686018427387910 `mod` (store.MaxUint64 `div` 4).
Proof.
  split; [reflexivity|]. split; [reflexivity|].
  apply (adjusted_refs_equal_iff 4 1 1 7 4611686018427387910
           (store.adjusterFn (store.MaxUint64 `div` 4))
           4611686018427387910 4611686018427387910);
    [unfold store.MaxUint64; lia | lia | lia
    | reflexivity | reflexivity | reflexivity | reflexivity].
Defined.

Lemma PutStrings_consistent_witness :
  0 ≤ store.current
        (store.PutStrings (store.NewLookupTableBuilder 2) ["a"; "b"; "a"; "c"]).1 ≤ 2 ∧
  Z.of_nat (size (store.GetTable
                    (store.PutStrings (store.NewLookupTableBuilder 2)
                       ["a"; "b"; "a"; "c"]).1))
  = store.current (store.PutStrings (store.NewLookupTableBuilder 2)
                     ["a"; "b"; "a"; "c"]).1.
Proof.
  destruct (PutStrings_consistent 2 ["a"; "b"; "a"; "c"]) as (Hcur & _ & _ & Hsize).
  - unfold store.MaxUint64. lia.
  - split; [exact Hcur | exact Hsize].
Defined.

Lemma PutStrings_GetTable_witness :
  store.GetTable (store.PutStrings (store.NewLookupTableBuilder 2)
                    ["a"; "b"; "a"; "c"]).1 !! 1 = Some "b".
Proof.
  apply (PutStrings_GetTable 2 ["a"; "b"; "a"; "c"] 1%nat "b" 1);
    [unfold store.MaxUint64; lia | reflexivity | vm_compute; reflexivity].
Defined.

Lemma PutStrings_numbers_identify_strings_witness :
  (store.PutStrings (store.NewLookupTableBuilder 3) ["a"; "b"; "a"; "c"]).2
  = [(0, None); (1, None); (0, None); (2, None)] ∧
  (0 = 1 ↔ "a" = "b").
Proof.
  split; [vm_compute; reflexivity|].
  apply (PutStrings_numbers_identify_strings 3 ["a"; "b"; "a"; "c"]
           0%nat 1%nat "a" "b" 0 1);
    [unfold store.MaxUint64; lia | reflexivity | vm_compute; reflexivity
    | reflexivity | vm_compute; reflexivity].
Defined.

Lemma PutStrings_current_witness :
  store.current (store.PutStrings (store.NewLookupTableBuilder 2)
                   ["a"; "b"; "a"; "c"]).1 = 2 ∧
  store.PutString (store.PutStrings (store.NewLookupTableBuilder 2)
                     ["a"; "b"; "a"; "c"]).1 "a"
  = ((store.PutStrings (store.NewLookupTableBuilder 2) ["a"; "b"; "a"; "c"]).1,
     (0, Some store.MaxElementsReached)).
Proof.
  destruct (PutStrings_current 2 ["a"; "b"; "a"; "c"] "a") as [Hcur Hfull].
  - unfold store.MaxUint64. lia.
  - split.
    + rewrite Hcur. vm_compute. reflexivity.
    + apply Hfull. vm_compute. discriminate.
Defined.

(** ** A few evaluations *)

Example splitMethodName_Series :
  grpccache.splitMethodName "/thanos.Store/Series" = ("thanos.Store", "Series").
Proof. reflexivity. Qed.

Example splitMethodName_no_slash :
  grpccache.splitMethodName "Series" = ("unknown", "unknown").
Proof. reflexivity. Qed.

Example GetInterceptor_wraps_Series :
  grpccache.GetInterceptor (CS := nat) (IMC := unit) (grpccache.mkCaching (Some tt) false)
    "store:10901" "/thanos.Store/Series" (7%nat, None)
  = (grpccache.Intercepting 7%nat (Some tt)
       (grpccache.mkInterceptor "store:10901" "" [] false), None).
Proof. reflexivity. Qed.

Example GetInterceptor_other_method :
  grpccache.GetInterceptor (CS := nat) (IMC := unit) (grpccache.mkCaching (Some tt) false)
    "store:10901" "/thanos.Store/LabelNames" (7%nat, None)
  = (grpccache.Underlying 7%nat, None).
Proof. reflexivity. Qed.

Example fingerprint_has_eight_bytes :
  String.length instance.F = 8%nat.
Proof. reflexivity. Qed.

Example extractCore_swaps_last_in :
  storecache.extractCore
    [storecache.coreLabel; storecache.mkLabel "job" "api"; storecache.mkLabel "env" "prod"]
  = ([storecache.mkLabel "env" "prod"; storecache.mkLabel "job" "api"], true).
Proof. vm_compute. reflexivity. Qed.

Example GetMulti_index_out_of_range :
  cacheutil.GetMulti_loop (R := instance.redis) ["a"] 0 [Some "1"; Some "2"] ∅
  = Panics "index out of range".
Proof. reflexivity. Qed.

(** [SendMsg] keeps no record of a first message: a request sent after a
    message of another type is fingerprinted and looked up as well. *)
Example later_request_is_looked_up :
  ∃ i w',
    grpccache.run_interceptor (PB := instance.storepb) (XX := instance.xxhash)
      (CSt := instance.script)
      (grpccache.mkInterceptor instance.tgt "" [] false)
      [grpccache.OpSendMsg (grpccache.OtherValue 3);
       grpccache.OpSendMsg (grpccache.PtrSeriesRequest instance.req);
       grpccache.OpRecvMsg (grpccache.PtrSeriesResponse 10)] instance.world_later
    = Returns ((i, [(None, None); (None, None); (None, Some (instance.msg "a"))]), w') ∧
    grpccache.hashedReq i = instance.F.
Proof. eexists _, _. split; [vm_compute; reflexivity | reflexivity]. Qed.

(** A count that scans as a negative number stops the lookup in [make]. *)
Example negative_count_panics :
  grpccache.getResponses (PB := instance.storepb) "F"
    (@grpccache.mkWorld instance.storepb (list (@grpccache.recv_result instance.storepb))
       (λ _, "") 0%nat {[ grpccache.numKeysKey "F" := bytes_of_string "-1" ]}
       [] 0%nat [])
  = Panics "makeslice: cap out of range".
Proof. vm_compute. reflexivity. Qed.

(** A factory for no store at all stops in the division. *)
Example zero_store_count_panics :
  store.maxStringsPerStore 0 = Panics "runtime error: integer divide by zero".
Proof. reflexivity. Qed.

(** A builder with room for two strings. *)
Example PutStrings_results :
  (store.PutStrings (store.NewLookupTableBuilder 2) ["a"; "b"; "a"; "c"]).2
  = [(0, None); (1, None); (0, Some store.MaxElementsReached);
     (0, Some store.MaxElementsReached)].
Proof. vm_compute. reflexivity. Qed.
